(** * ml-stutter: timing fabric, effect engines and the SPSC queue

    A shallow embedding of the real-time control fabric of the looper:
    [TimeKeeper] (timekeeper.cpp), the CHOKE, FREEZE and STUTTER engines
    (audio_choke.h, audio_freeze.h, audio_stutter.h), the quantization helpers
    (effect_quantization.cpp), the CHOKE controller (choke_controller.cpp),
    the command dispatcher (effect_manager.cpp) and the lock-free queue
    (spsc_queue.h).

    Fixed-width unsigned integers are integers of [Z] whose wrap-around is
    written out with [u32] and [u64]; arrays are lists read and written by
    index; a division whose divisor is zero has no defined result in the
    source and yields [None] here. *)

From stdpp Require Import base numbers list.
From Stdlib Require Import ZArith QArith Lia Bool.

Local Open Scope Z_scope.

(** ** Machine words *)

Definition u32 (x : Z) : Z := x mod 2 ^ 32.
Definition u64 (x : Z) : Z := x mod 2 ^ 64.

Definition is_u32 (x : Z) : Prop := 0 <= x < 2 ^ 32.
Definition is_u64 (x : Z) : Prop := 0 <= x < 2 ^ 64.

(** [AUDIO_BLOCK_SAMPLES] of the audio library. *)
Definition AUDIO_BLOCK_SAMPLES : Z := 128.

(** ** TimeKeeper (timekeeper.h, timekeeper.cpp) *)

Module TimeKeeper.

Inductive TransportState := STOPPED | PLAYING | RECORDING.

Definition SAMPLE_RATE : Z := 44100.
Definition BEATS_PER_BAR : Z := 4.
Definition MIDI_PPQN : Z := 24.
Definition DEFAULT_BPM : Z := 120.
Definition DEFAULT_SAMPLES_PER_BEAT : Z := (SAMPLE_RATE * 60) / DEFAULT_BPM.

(** The static members of the class. The trace ring written by the [TRACE]
    macro is a debugging aid and is not part of this state. *)
Record t := mk {
  s_samplePosition : Z;             (* uint64_t *)
  s_beatNumber : Z;                 (* uint32_t *)
  s_tickInBeat : Z;                 (* uint32_t *)
  s_samplesPerBeat : Z;             (* uint32_t *)
  s_transportState : TransportState;
  s_beatFlag : bool
}.

(** The values the static initialisers give. *)
Definition initial : t :=
  mk 0 0 0 DEFAULT_SAMPLES_PER_BEAT STOPPED false.

Definition reset (tk : t) : t :=
  mk 0 0 0 DEFAULT_SAMPLES_PER_BEAT STOPPED (s_beatFlag tk).

Definition incrementSamples (numSamples : Z) (tk : t) : t :=
  mk (u64 (s_samplePosition tk + numSamples)) (s_beatNumber tk)
     (s_tickInBeat tk) (s_samplesPerBeat tk) (s_transportState tk)
     (s_beatFlag tk).

Definition getSamplePosition (tk : t) : Z := s_samplePosition tk.
Definition getBeatNumber (tk : t) : Z := s_beatNumber tk.
Definition getTickInBeat (tk : t) : Z := s_tickInBeat tk.
Definition getSamplesPerBeat (tk : t) : Z := s_samplesPerBeat tk.

Definition setSamplesPerBeat (samplesPerBeat : Z) (tk : t) : t :=
  mk (s_samplePosition tk) (s_beatNumber tk) (s_tickInBeat tk)
     samplesPerBeat (s_transportState tk) (s_beatFlag tk).

(** [syncToMIDIClock]: the product is formed in 64 bits and the quotient is
    stored in the 32-bit local [spb] before the range test. *)
Definition syncToMIDIClock (tickPeriodUs : Z) (tk : t) : t :=
  let beatPeriodUs := u64 (tickPeriodUs * MIDI_PPQN) in
  let spb := u32 (u64 (beatPeriodUs * SAMPLE_RATE) / 1000000) in
  if (8000 <=? spb) && (spb <=? 100000)
  then setSamplesPerBeat spb tk
  else tk.

(** The quotient the header's formula describes, before any narrowing. *)
Definition exactSamplesPerBeat (tickPeriodUs : Z) : Z :=
  (tickPeriodUs * 24 * 44100) / 1000000.

Definition incrementTick (tk : t) : t :=
  let tick := u32 (s_tickInBeat tk + 1) in
  if MIDI_PPQN <=? tick
  then mk (s_samplePosition tk) (u32 (s_beatNumber tk + 1)) 0
          (s_samplesPerBeat tk) (s_transportState tk) true
  else mk (s_samplePosition tk) (s_beatNumber tk) tick
          (s_samplesPerBeat tk) (s_transportState tk) (s_beatFlag tk).

Definition setTransportState (st : TransportState) (tk : t) : t :=
  mk (s_samplePosition tk) (s_beatNumber tk) (s_tickInBeat tk)
     (s_samplesPerBeat tk) st (s_beatFlag tk).

Definition getTransportState (tk : t) : TransportState := s_transportState tk.

Definition isRunning (tk : t) : bool :=
  match getTransportState tk with
  | PLAYING | RECORDING => true
  | STOPPED => false
  end.

Definition pollBeatFlag (tk : t) : bool * t :=
  (s_beatFlag tk,
   mk (s_samplePosition tk) (s_beatNumber tk) (s_tickInBeat tk)
      (s_samplesPerBeat tk) (s_transportState tk) false).

(** [samplesToNextBeat]: [None] stands for the remainder by a zero
    [samplesPerBeat]. *)
Definition samplesToNextBeat (tk : t) : option Z :=
  let currentSample := getSamplePosition tk in
  let spb := getSamplesPerBeat tk in
  if spb =? 0 then None
  else
    let sampleWithinBeat := u32 (currentSample mod spb) in
    let samplesToNext := u32 (spb - sampleWithinBeat) in
    if sampleWithinBeat <=? 16 then Some 0 else Some samplesToNext.

(** The position inside the beat that the tick counter stands for. *)
Definition samplesElapsedInBeat (tk : t) : Z :=
  let samplesPerTick := getSamplesPerBeat tk / MIDI_PPQN in
  u32 (getTickInBeat tk * samplesPerTick).

(** [samplesToNextSubdivision]: [None] stands for the quotient by a zero
    [subdivision], reached only when [subdivision < spb]. *)
Definition samplesToNextSubdivision (subdivision : Z) (tk : t) : option Z :=
  let spb := getSamplesPerBeat tk in
  let elapsed := samplesElapsedInBeat tk in
  if spb <=? subdivision then Some (u32 (spb - elapsed))
  else if subdivision =? 0 then None
  else
    let subdivisionIndex := elapsed / subdivision in
    let nextSubdivisionStart := u32 ((subdivisionIndex + 1) * subdivision) in
    let nextSubdivisionStart :=
      if spb <? nextSubdivisionStart then spb else nextSubdivisionStart in
    Some (u32 (nextSubdivisionStart - elapsed)).

Definition getBarNumber (tk : t) : Z := getBeatNumber tk / BEATS_PER_BAR.

Definition getBeatInBar (tk : t) : Z := getBeatNumber tk mod BEATS_PER_BAR.

(** [samplesToNextBar]: the bar length is formed in 32 bits; [None] stands
    for the remainder by a bar length of zero. *)
Definition samplesToNextBar (tk : t) : option Z :=
  let currentSample := getSamplePosition tk in
  let spb := getSamplesPerBeat tk in
  let samplesPerBar := u32 (spb * BEATS_PER_BAR) in
  if samplesPerBar =? 0 then None
  else
    let sampleWithinBar := u32 (currentSample mod samplesPerBar) in
    let samplesToNext := u32 (samplesPerBar - sampleWithinBar) in
    if sampleWithinBar <=? 16 then Some 0 else Some samplesToNext.


Definition barToSample (barNumber : Z) (tk : t) : Z :=
  u64 (u64 (barNumber * BEATS_PER_BAR) * getSamplesPerBeat tk).


(** Every field inside the range of its C type. *)
Definition wf (tk : t) : Prop :=
  is_u64 (s_samplePosition tk) /\ is_u32 (s_beatNumber tk) /\
  is_u32 (s_tickInBeat tk) /\ is_u32 (s_samplesPerBeat tk).

(** The states the public operations reach from the initial one. *)
Inductive reachable : t -> Prop :=
| reach_initial : reachable initial
| reach_reset tk : reachable tk -> reachable (reset tk)
| reach_samples n tk : is_u32 n -> reachable tk -> reachable (incrementSamples n tk)
| reach_sync p tk : is_u32 p -> reachable tk -> reachable (syncToMIDIClock p tk)
| reach_setspb n tk : is_u32 n -> reachable tk -> reachable (setSamplesPerBeat n tk)
| reach_tick tk : reachable tk -> reachable (incrementTick tk)
| reach_transport st tk : reachable tk -> reachable (setTransportState st tk)
| reach_poll tk : reachable tk -> reachable (snd (pollBeatFlag tk)).

End TimeKeeper.

(** ** Trace buffer (trace.h, trace.cpp)

    With TRACE_ENABLED at its default 1. [micros()] is an input of
    [record]; [dump] is modelled by the list of events it prints, in
    order. *)

Module Trace.

Definition BUFFER_SIZE : Z := 1024.

Record TraceEvent := mkEvent {
  timestamp : Z;   (* uint32_t *)
  eventId : Z;     (* uint16_t *)
  value : Z        (* uint16_t *)
}.

#[global] Instance TraceEvent_inhabited : Inhabited TraceEvent :=
  populate (mkEvent 0 0 0).

Record t := mk {
  s_buffer : list TraceEvent;   (* BUFFER_SIZE entries *)
  s_writeIdx : Z                (* volatile size_t *)
}.

(** Static storage: zero-initialised. *)
Definition initial : t :=
  mk (replicate (Z.to_nat BUFFER_SIZE) (mkEvent 0 0 0)) 0.

Definition record (micros : Z) (eventId value : Z) (tr : t) : t :=
  let idx := Z.land (s_writeIdx tr) (BUFFER_SIZE - 1) in
  mk (<[Z.to_nat idx := mkEvent micros eventId value]> (s_buffer tr))
     (u32 (s_writeIdx tr + 1)).

(** The loop of [dump], with [n] iterations left at index [i]. *)
Fixpoint dumpLoop (n : nat) (i startIdx : Z) (buf : list TraceEvent)
  : list TraceEvent :=
  match n with
  | O => []
  | S n' =>
      let idx := Z.land (u32 (startIdx + i)) (BUFFER_SIZE - 1) in
      let e := buf !!! Z.to_nat idx in
      if timestamp e =? 0 then dumpLoop n' (i + 1) startIdx buf
      else e :: dumpLoop n' (i + 1) startIdx buf
  end.

Definition dump (tr : t) : list TraceEvent :=
  let currentIdx := s_writeIdx tr in
  let startIdx :=
    if BUFFER_SIZE <=? currentIdx then Z.land currentIdx (BUFFER_SIZE - 1)
    else 0 in
  dumpLoop (Z.to_nat BUFFER_SIZE) 0 startIdx (s_buffer tr).

Definition clear (tr : t) : t :=
  mk (replicate (Z.to_nat BUFFER_SIZE) (mkEvent 0 0 0)) 0.

(** Recording a sequence of events, oldest first. *)
Definition recordAll (events : list TraceEvent) (tr : t) : t :=
  foldl (fun tr e => record (timestamp e) (eventId e) (value e) tr) tr events.

End Trace.

(** ** The audio-library boundary

    One call of an engine's [update] sees the blocks [receiveWritable] hands
    out (absent when the upstream sent nothing) and the outcome of its two
    [allocate] calls, and transmits at most one block per channel. A block
    is its [AUDIO_BLOCK_SAMPLES] 16-bit samples. *)

Definition block := list Z.

Record BlockIO := mkIO {
  in0 : option block;     (* receiveWritable(0) *)
  in1 : option block;     (* receiveWritable(1) *)
  alloc0 : bool;          (* first allocate() succeeded *)
  alloc1 : bool           (* second allocate() succeeded *)
}.

Definition transmitted : Type := option block * option block.

(** ** Rings, loops and streams

    The notions the engines' block properties are stated with. *)

(** A ring read once around, starting at a position. *)
Definition unrolled {A : Type} (buf : list A) (pos : Z) : list A :=
  drop (Z.to_nat pos) buf ++ take (Z.to_nat pos) buf.

(** A loop repeated for [n] samples. *)
Definition looped (loop : list Z) (n : nat) : list Z :=
  map (fun k => loop !!! (k mod length loop)%nat) (seq 0 n).

(** The samples met going [n] steps around the first [m] slots of a buffer
    from position [r]. *)
Definition ring_read (m : Z) (buf : list Z) (r : Z) (n : nat) : list Z :=
  map (fun k => buf !!! Z.to_nat ((r + Z.of_nat k) mod m)) (seq 0 n).

(** Both input blocks arrived, with a block's worth of samples each. *)
Definition full_input (io : BlockIO) : Prop :=
  match in0 io, in1 io with
  | Some l, Some r =>
      Z.of_nat (length l) = AUDIO_BLOCK_SAMPLES /\
      Z.of_nat (length r) = AUDIO_BLOCK_SAMPLES
  | _, _ => False
  end.

(** Both output blocks of a transmission are there, a block long each. *)
Definition full_output (o : transmitted) : Prop :=
  match o with
  | (Some l, Some r) =>
      Z.of_nat (length l) = AUDIO_BLOCK_SAMPLES /\
      Z.of_nat (length r) = AUDIO_BLOCK_SAMPLES
  | _ => False
  end.

(** Both output blocks can be allocated. *)
Definition can_allocate (io : BlockIO) : Prop := alloc0 io && alloc1 io = true.

Definition inputs (blocks : list (Z * BlockIO)) : list transmitted :=
  map (fun p => (in0 (snd p), in1 (snd p))) blocks.

(** The samples a sequence of transmitted blocks carries on each channel. *)
Definition left_stream (outs : list transmitted) : list Z :=
  concat (map (fun o => default [] (fst o)) outs).
Definition right_stream (outs : list transmitted) : list Z :=
  concat (map (fun o => default [] (snd o)) outs).

(** ** AudioEffectBase (audio_effect_base.h) *)

Class AudioEffectBase (E : Type) := {
  enable : E -> E;
  disable : E -> E;
  toggle : E -> E;
  isEnabled : E -> bool
}.

Inductive Mode := FREE | QUANTIZED.

(** ** Single-precision arithmetic

    The CHOKE gain is a C [float]. Its operations are kept abstract: the
    engine is written against this interface and every statement about it
    holds for any implementation. *)

Class Float32 := {
  float : Type;
  f_zero : float;
  f_one : float;
  FADE_SAMPLES : float;
  f_add : float -> float -> float;
  f_sub : float -> float -> float;
  f_mul : float -> float -> float;
  f_div : float -> float -> float;
  f_ltb : float -> float -> bool;
  f_of_int : Z -> float;
  f_to_int : float -> Z
}.

(** Exact rational arithmetic as one implementation of the interface; it
    serves to run the engine on concrete blocks. *)
Definition ExactGain : Float32 :=
  {| float := Q;
     f_zero := 0%Q;
     f_one := 1%Q;
     FADE_SAMPLES := (1323 # 10)%Q;
     f_add := Qplus;
     f_sub := Qminus;
     f_mul := Qmult;
     f_div := Qdiv;
     f_ltb := fun a b => negb (Qle_bool b a);
     f_of_int := inject_Z;
     f_to_int := fun q => Z.quot (Qnum q) (Z.pos (Qden q)) |}.

(** ** CHOKE engine (audio_choke.h) *)

Module Choke.
Section WithFloat.
Context {F : Float32}.

Record t := mk {
  m_currentGain : float;
  m_targetGain : float;
  m_isEnabled : bool;
  m_lengthMode : Mode;
  m_releaseAtSample : Z;     (* uint64_t, 0 = none *)
  m_onsetMode : Mode;
  m_onsetAtSample : Z        (* uint64_t, 0 = none *)
}.

Definition initial : t := mk f_one f_one false FREE 0 FREE 0.

Definition set_gain (g : float) (s : t) : t :=
  mk g (m_targetGain s) (m_isEnabled s) (m_lengthMode s)
     (m_releaseAtSample s) (m_onsetMode s) (m_onsetAtSample s).

Definition set_target (g : float) (en : bool) (s : t) : t :=
  mk (m_currentGain s) g en (m_lengthMode s)
     (m_releaseAtSample s) (m_onsetMode s) (m_onsetAtSample s).

Definition choke_enable (s : t) : t := set_target f_zero true s.
Definition choke_disable (s : t) : t := set_target f_one false s.
Definition choke_isEnabled (s : t) : bool := m_isEnabled s.
Definition choke_toggle (s : t) : t :=
  if choke_isEnabled s then choke_disable s else choke_enable s.

Definition setLengthMode (mode : Mode) (s : t) : t :=
  mk (m_currentGain s) (m_targetGain s) (m_isEnabled s) mode
     (m_releaseAtSample s) (m_onsetMode s) (m_onsetAtSample s).
Definition getLengthMode (s : t) : Mode := m_lengthMode s.

Definition scheduleRelease (releaseSample : Z) (s : t) : t :=
  mk (m_currentGain s) (m_targetGain s) (m_isEnabled s) (m_lengthMode s)
     releaseSample (m_onsetMode s) (m_onsetAtSample s).
Definition cancelScheduledRelease (s : t) : t := scheduleRelease 0 s.

Definition scheduleOnset (onsetSample : Z) (s : t) : t :=
  mk (m_currentGain s) (m_targetGain s) (m_isEnabled s) (m_lengthMode s)
     (m_releaseAtSample s) (m_onsetMode s) onsetSample.
Definition cancelScheduledOnset (s : t) : t := scheduleOnset 0 s.

Definition setOnsetMode (mode : Mode) (s : t) : t :=
  mk (m_currentGain s) (m_targetGain s) (m_isEnabled s) (m_lengthMode s)
     (m_releaseAtSample s) mode (m_onsetAtSample s).
Definition getOnsetMode (s : t) : Mode := m_onsetMode s.

(** The scheduled sample lies in [currentSample, blockEndSample). *)
Definition inBlock (at_ currentSample : Z) : bool :=
  let blockEndSample := u64 (currentSample + AUDIO_BLOCK_SAMPLES) in
  (0 <? at_) && (currentSample <=? at_) && (at_ <? blockEndSample).

Definition checkOnset (currentSample : Z) (s : t) : t :=
  if inBlock (m_onsetAtSample s) currentSample
  then scheduleOnset 0 (set_target f_zero true s)
  else s.

Definition checkRelease (currentSample : Z) (s : t) : t :=
  if inBlock (m_releaseAtSample s) currentSample
  then scheduleRelease 0 (set_target f_one false s)
  else s.

(** One sample of [applyGainRamp]. *)
Definition rampSample (gainIncrement : float) (g : float) (x : Z) : float * Z :=
  let g := f_add g gainIncrement in
  let g := if f_ltb g f_zero then f_zero else g in
  let g := if f_ltb f_one g then f_one else g in
  let sample := f_to_int (f_mul (f_of_int x) g) in
  let sample := if 32767 <? sample then 32767 else sample in
  let sample := if sample <? -32768 then -32768 else sample in
  (g, sample).

Fixpoint applyGainRamp (data : block) (gainIncrement : float) (g : float)
  : float * block :=
  match data with
  | [] => (g, [])
  | x :: rest =>
      let '(g1, y) := rampSample gainIncrement g x in
      let '(g2, ys) := applyGainRamp rest gainIncrement g1 in
      (g2, y :: ys)
  end.

Definition rampChannel (b : option block) (gainIncrement : float) (s : t)
  : t * option block :=
  match b with
  | Some data =>
      let '(g, out) := applyGainRamp data gainIncrement (m_currentGain s) in
      (set_gain g s, Some out)
  | None => (s, None)
  end.

Definition update (currentSample : Z) (io : BlockIO) (s : t) : t * transmitted :=
  let s := checkOnset currentSample s in
  let s := checkRelease currentSample s in
  let gainIncrement :=
    f_div (f_sub (m_targetGain s) (m_currentGain s)) FADE_SAMPLES in
  let '(s, outL) := rampChannel (in0 io) gainIncrement s in
  let '(s, outR) := rampChannel (in1 io) gainIncrement s in
  (s, (outL, outR)).

#[export] Instance effect : AudioEffectBase t :=
  {| enable := choke_enable; disable := choke_disable;
     toggle := choke_toggle; isEnabled := choke_isEnabled |}.

(** The operations of the public interface. *)
Inductive op :=
| OpEnable | OpDisable | OpToggle
| OpSetLengthMode (m : Mode) | OpSetOnsetMode (m : Mode)
| OpScheduleRelease (x : Z) | OpCancelScheduledRelease
| OpScheduleOnset (x : Z) | OpCancelScheduledOnset
| OpUpdate (currentSample : Z) (io : BlockIO).

Definition step (o : op) (s : t) : t :=
  match o with
  | OpEnable => choke_enable s
  | OpDisable => choke_disable s
  | OpToggle => choke_toggle s
  | OpSetLengthMode m => setLengthMode m s
  | OpSetOnsetMode m => setOnsetMode m s
  | OpScheduleRelease x => scheduleRelease x s
  | OpCancelScheduledRelease => cancelScheduledRelease s
  | OpScheduleOnset x => scheduleOnset x s
  | OpCancelScheduledOnset => cancelScheduledOnset s
  | OpUpdate c io => fst (update c io s)
  end.

Definition run (ops : list op) (s : t) : t := foldl (fun s o => step o s) s ops.

(** A block of 16-bit samples, and an output channel that mirrors its input
    channel: present exactly when the input is, of the same length. *)
Definition int16_block (b : block) : Prop :=
  Forall (fun y => -32768 <= y <= 32767) b.

Definition mirrors (i o : option block) : Prop :=
  match i, o with
  | Some d, Some y => length y = length d /\ int16_block y
  | None, None => True
  | _, _ => False
  end.

(** The audio interrupt alone: one [update] per block. *)
Definition updates (blocks : list (Z * BlockIO)) : list op :=
  map (fun p => OpUpdate (fst p) (snd p)) blocks.

(** What the gain ramp leaves alone. *)
Definition same_control (a b : t) : Prop :=
  m_targetGain a = m_targetGain b /\ m_isEnabled a = m_isEnabled b /\
  m_lengthMode a = m_lengthMode b /\ m_releaseAtSample a = m_releaseAtSample b /\
  m_onsetMode a = m_onsetMode b /\ m_onsetAtSample a = m_onsetAtSample b.

(** The enabled flag and the target gain move together. *)
Definition coherent (s : t) : Prop :=
  m_targetGain s = if m_isEnabled s then f_zero else f_one.

End WithFloat.
End Choke.

(** ** FREEZE engine (audio_freeze.h) *)

Module Freeze.

Definition FREEZE_BUFFER_MS : Z := 3.
Definition FREEZE_BUFFER_SAMPLES : Z :=
  (FREEZE_BUFFER_MS * TimeKeeper.SAMPLE_RATE) / 1000.

Record t := mk {
  m_freezeBufferL : list Z;
  m_freezeBufferR : list Z;
  m_writePos : Z;            (* size_t *)
  m_readPos : Z;             (* size_t *)
  m_isEnabled : bool;
  m_lengthMode : Mode;
  m_releaseAtSample : Z;     (* uint64_t, 0 = none *)
  m_onsetMode : Mode;
  m_onsetAtSample : Z        (* uint64_t, 0 = none *)
}.

Definition silence : list Z := replicate (Z.to_nat FREEZE_BUFFER_SAMPLES) 0.

Definition initial : t := mk silence silence 0 0 false FREE 0 FREE 0.

Definition set_enabled (en : bool) (s : t) : t :=
  mk (m_freezeBufferL s) (m_freezeBufferR s) (m_writePos s) (m_readPos s)
     en (m_lengthMode s) (m_releaseAtSample s) (m_onsetMode s)
     (m_onsetAtSample s).

Definition set_readPos (r : Z) (s : t) : t :=
  mk (m_freezeBufferL s) (m_freezeBufferR s) (m_writePos s) r
     (m_isEnabled s) (m_lengthMode s) (m_releaseAtSample s) (m_onsetMode s)
     (m_onsetAtSample s).

Definition freeze_enable (s : t) : t :=
  set_enabled true (set_readPos (m_writePos s) s).
Definition freeze_disable (s : t) : t := set_enabled false s.
Definition freeze_isEnabled (s : t) : bool := m_isEnabled s.
Definition freeze_toggle (s : t) : t :=
  if freeze_isEnabled s then freeze_disable s else freeze_enable s.

Definition setLengthMode (mode : Mode) (s : t) : t :=
  mk (m_freezeBufferL s) (m_freezeBufferR s) (m_writePos s) (m_readPos s)
     (m_isEnabled s) mode (m_releaseAtSample s) (m_onsetMode s)
     (m_onsetAtSample s).
Definition getLengthMode (s : t) : Mode := m_lengthMode s.

Definition scheduleRelease (releaseSample : Z) (s : t) : t :=
  mk (m_freezeBufferL s) (m_freezeBufferR s) (m_writePos s) (m_readPos s)
     (m_isEnabled s) (m_lengthMode s) releaseSample (m_onsetMode s)
     (m_onsetAtSample s).

Definition scheduleOnset (onsetSample : Z) (s : t) : t :=
  mk (m_freezeBufferL s) (m_freezeBufferR s) (m_writePos s) (m_readPos s)
     (m_isEnabled s) (m_lengthMode s) (m_releaseAtSample s) (m_onsetMode s)
     onsetSample.
Definition cancelScheduledOnset (s : t) : t := scheduleOnset 0 s.

Definition setOnsetMode (mode : Mode) (s : t) : t :=
  mk (m_freezeBufferL s) (m_freezeBufferR s) (m_writePos s) (m_readPos s)
     (m_isEnabled s) (m_lengthMode s) (m_releaseAtSample s) mode
     (m_onsetAtSample s).
Definition getOnsetMode (s : t) : Mode := m_onsetMode s.

Definition inBlock (at_ currentSample : Z) : bool :=
  let blockEndSample := u64 (currentSample + AUDIO_BLOCK_SAMPLES) in
  (0 <? at_) && (currentSample <=? at_) && (at_ <? blockEndSample).

Definition checkOnset (currentSample : Z) (s : t) : t :=
  if inBlock (m_onsetAtSample s) currentSample
  then scheduleOnset 0 (set_enabled true (set_readPos (m_writePos s) s))
  else s.

Definition checkRelease (currentSample : Z) (s : t) : t :=
  if inBlock (m_releaseAtSample s) currentSample
  then scheduleRelease 0 (set_enabled false s)
  else s.

(** One iteration of the recording loop: store a stereo sample at
    [m_writePos] and advance it circularly. *)
Definition writeSample (l r : Z) (s : t) : t :=
  let w := u32 (m_writePos s + 1) in
  mk (<[Z.to_nat (m_writePos s) := l]> (m_freezeBufferL s))
     (<[Z.to_nat (m_writePos s) := r]> (m_freezeBufferR s))
     (if FREEZE_BUFFER_SAMPLES <=? w then 0 else w)
     (m_readPos s) (m_isEnabled s) (m_lengthMode s) (m_releaseAtSample s)
     (m_onsetMode s) (m_onsetAtSample s).

Fixpoint recordLoop (n i : nat) (dataL dataR : block) (s : t) : t :=
  match n with
  | O => s
  | S n' => recordLoop n' (S i) dataL dataR
              (writeSample (dataL !!! i) (dataR !!! i) s)
  end.

(** The playback loop: read at [m_readPos] and advance it circularly. *)
Fixpoint playLoop (n : nat) (s : t) : t * (block * block) :=
  match n with
  | O => (s, ([], []))
  | S n' =>
      let l := m_freezeBufferL s !!! Z.to_nat (m_readPos s) in
      let r := m_freezeBufferR s !!! Z.to_nat (m_readPos s) in
      let p := u32 (m_readPos s + 1) in
      let s1 := set_readPos (if FREEZE_BUFFER_SAMPLES <=? p then 0 else p) s in
      let '(s2, (ls, rs)) := playLoop n' s1 in
      (s2, (l :: ls, r :: rs))
  end.

Definition update (currentSample : Z) (io : BlockIO) (s : t) : t * transmitted :=
  let s := checkOnset currentSample s in
  let s := checkRelease currentSample s in
  let frozen := m_isEnabled s in
  if negb frozen then
    match in0 io, in1 io with
    | Some blockL, Some blockR =>
        (recordLoop (Z.to_nat AUDIO_BLOCK_SAMPLES) 0 blockL blockR s,
         (Some blockL, Some blockR))
    | _, _ => (s, (None, None))
    end
  else
    if alloc0 io && alloc1 io then
      let '(s1, (outL, outR)) := playLoop (Z.to_nat AUDIO_BLOCK_SAMPLES) s in
      (s1, (Some outL, Some outR))
    else (s, (None, None)).

#[export] Instance effect : AudioEffectBase t :=
  {| enable := freeze_enable; disable := freeze_disable;
     toggle := freeze_toggle; isEnabled := freeze_isEnabled |}.

Inductive op :=
| OpEnable | OpDisable | OpToggle
| OpSetLengthMode (m : Mode) | OpSetOnsetMode (m : Mode)
| OpScheduleRelease (x : Z)
| OpScheduleOnset (x : Z) | OpCancelScheduledOnset
| OpUpdate (currentSample : Z) (io : BlockIO).

Definition step (o : op) (s : t) : t * transmitted :=
  match o with
  | OpEnable => (freeze_enable s, (None, None))
  | OpDisable => (freeze_disable s, (None, None))
  | OpToggle => (freeze_toggle s, (None, None))
  | OpSetLengthMode m => (setLengthMode m s, (None, None))
  | OpSetOnsetMode m => (setOnsetMode m s, (None, None))
  | OpScheduleRelease x => (scheduleRelease x s, (None, None))
  | OpScheduleOnset x => (scheduleOnset x s, (None, None))
  | OpCancelScheduledOnset => (cancelScheduledOnset s, (None, None))
  | OpUpdate c io => update c io s
  end.

(** Running a sequence of operations: the final state and everything
    transmitted on the way, in order. *)
Fixpoint run (ops : list op) (s : t) : t * list transmitted :=
  match ops with
  | [] => (s, [])
  | o :: rest =>
      let '(s1, out) := step o s in
      let '(s2, outs) := run rest s1 in
      (s2, out :: outs)
  end.

(** What an observer of the audio output can tell apart: every field, but
    the read position only while the engine is frozen (engaging overwrites
    it before the first read). *)
Definition obs_eq (a b : t) : Prop :=
  m_freezeBufferL a = m_freezeBufferL b /\
  m_freezeBufferR a = m_freezeBufferR b /\
  m_writePos a = m_writePos b /\
  m_isEnabled a = m_isEnabled b /\
  m_lengthMode a = m_lengthMode b /\
  m_releaseAtSample a = m_releaseAtSample b /\
  m_onsetMode a = m_onsetMode b /\
  m_onsetAtSample a = m_onsetAtSample b /\
  (m_isEnabled a = true -> m_readPos a = m_readPos b).


(** The buffers are full-sized and both positions index them. *)
Definition wf (s : t) : Prop :=
  Z.of_nat (length (m_freezeBufferL s)) = FREEZE_BUFFER_SAMPLES /\
  Z.of_nat (length (m_freezeBufferR s)) = FREEZE_BUFFER_SAMPLES /\
  0 <= m_writePos s < FREEZE_BUFFER_SAMPLES /\
  0 <= m_readPos s < FREEZE_BUFFER_SAMPLES.

(** The audio interrupt alone: one [update] per block. *)
Definition updates (blocks : list (Z * BlockIO)) : list op :=
  map (fun p => OpUpdate (fst p) (snd p)) blocks.

End Freeze.

(** ** STUTTER engine (audio_stutter.h) *)

Module Stutter.

Inductive StutterState :=
| IDLE_NO_LOOP | IDLE_WITH_LOOP | WAIT_CAPTURE_START | CAPTURING
| WAIT_CAPTURE_END | WAIT_PLAYBACK_ONSET | PLAYING | WAIT_PLAYBACK_LENGTH.

Definition MIN_TEMPO : Z := 70.

(** [static_cast<size_t>((1 / (MIN_TEMPO / 60.0)) * SAMPLE_RATE) * 4]: the
    double-precision product is 37800.0, so the cast gives 37800. *)
Definition STUTTER_BUFFER_SAMPLES : Z := 37800 * 4.

Record t := mk {
  m_stutterBufferL : list Z;
  m_stutterBufferR : list Z;
  m_writePos : Z;                (* size_t *)
  m_readPos : Z;                 (* size_t *)
  m_captureLength : Z;           (* size_t, 0 = no loop *)
  m_state : StutterState;
  m_onsetMode : Mode;
  m_lengthMode : Mode;
  m_captureStartMode : Mode;
  m_captureEndMode : Mode;
  m_captureStartAtSample : Z;    (* uint64_t, 0 = none *)
  m_captureEndAtSample : Z;      (* uint64_t, 0 = none *)
  m_playbackOnsetAtSample : Z;   (* uint64_t, 0 = none *)
  m_playbackLengthAtSample : Z;  (* uint64_t, 0 = none *)
  m_stutterHeld : bool
}.

Definition silence : list Z := replicate (Z.to_nat STUTTER_BUFFER_SAMPLES) 0.

Definition initial : t :=
  mk silence silence 0 0 0 IDLE_NO_LOOP FREE FREE FREE FREE 0 0 0 0 false.

(** Field updates. *)
Definition set_state (st : StutterState) (s : t) : t :=
  mk (m_stutterBufferL s) (m_stutterBufferR s) (m_writePos s) (m_readPos s)
     (m_captureLength s) st (m_onsetMode s) (m_lengthMode s)
     (m_captureStartMode s) (m_captureEndMode s) (m_captureStartAtSample s)
     (m_captureEndAtSample s) (m_playbackOnsetAtSample s)
     (m_playbackLengthAtSample s) (m_stutterHeld s).

Definition set_writePos (w : Z) (s : t) : t :=
  mk (m_stutterBufferL s) (m_stutterBufferR s) w (m_readPos s)
     (m_captureLength s) (m_state s) (m_onsetMode s) (m_lengthMode s)
     (m_captureStartMode s) (m_captureEndMode s) (m_captureStartAtSample s)
     (m_captureEndAtSample s) (m_playbackOnsetAtSample s)
     (m_playbackLengthAtSample s) (m_stutterHeld s).

Definition set_readPos (r : Z) (s : t) : t :=
  mk (m_stutterBufferL s) (m_stutterBufferR s) (m_writePos s) r
     (m_captureLength s) (m_state s) (m_onsetMode s) (m_lengthMode s)
     (m_captureStartMode s) (m_captureEndMode s) (m_captureStartAtSample s)
     (m_captureEndAtSample s) (m_playbackOnsetAtSample s)
     (m_playbackLengthAtSample s) (m_stutterHeld s).

Definition set_captureLength (c : Z) (s : t) : t :=
  mk (m_stutterBufferL s) (m_stutterBufferR s) (m_writePos s) (m_readPos s)
     c (m_state s) (m_onsetMode s) (m_lengthMode s)
     (m_captureStartMode s) (m_captureEndMode s) (m_captureStartAtSample s)
     (m_captureEndAtSample s) (m_playbackOnsetAtSample s)
     (m_playbackLengthAtSample s) (m_stutterHeld s).

Definition set_modes (onset length captureStart captureEnd : Mode) (s : t) : t :=
  mk (m_stutterBufferL s) (m_stutterBufferR s) (m_writePos s) (m_readPos s)
     (m_captureLength s) (m_state s) onset length captureStart captureEnd
     (m_captureStartAtSample s) (m_captureEndAtSample s)
     (m_playbackOnsetAtSample s) (m_playbackLengthAtSample s)
     (m_stutterHeld s).

Definition set_schedule (cs ce po pl : Z) (s : t) : t :=
  mk (m_stutterBufferL s) (m_stutterBufferR s) (m_writePos s) (m_readPos s)
     (m_captureLength s) (m_state s) (m_onsetMode s) (m_lengthMode s)
     (m_captureStartMode s) (m_captureEndMode s) cs ce po pl
     (m_stutterHeld s).

Definition set_stutterHeld (h : bool) (s : t) : t :=
  mk (m_stutterBufferL s) (m_stutterBufferR s) (m_writePos s) (m_readPos s)
     (m_captureLength s) (m_state s) (m_onsetMode s) (m_lengthMode s)
     (m_captureStartMode s) (m_captureEndMode s) (m_captureStartAtSample s)
     (m_captureEndAtSample s) (m_playbackOnsetAtSample s)
     (m_playbackLengthAtSample s) h.

Definition set_captureStartAt (x : Z) (s : t) : t :=
  set_schedule x (m_captureEndAtSample s) (m_playbackOnsetAtSample s)
    (m_playbackLengthAtSample s) s.
Definition set_captureEndAt (x : Z) (s : t) : t :=
  set_schedule (m_captureStartAtSample s) x (m_playbackOnsetAtSample s)
    (m_playbackLengthAtSample s) s.
Definition set_playbackOnsetAt (x : Z) (s : t) : t :=
  set_schedule (m_captureStartAtSample s) (m_captureEndAtSample s) x
    (m_playbackLengthAtSample s) s.
Definition set_playbackLengthAt (x : Z) (s : t) : t :=
  set_schedule (m_captureStartAtSample s) (m_captureEndAtSample s)
    (m_playbackOnsetAtSample s) x s.

(** *** AudioEffectBase interface *)

Definition stutter_enable (s : t) : t := set_state PLAYING (set_readPos 0 s).

Definition stutter_disable (s : t) : t :=
  set_readPos 0 (set_writePos 0 (set_captureLength 0 (set_state IDLE_NO_LOOP s))).

Definition stutter_isEnabled (s : t) : bool :=
  match m_state s with
  | IDLE_NO_LOOP | IDLE_WITH_LOOP => false
  | _ => true
  end.

Definition stutter_toggle (s : t) : t :=
  if stutter_isEnabled s then stutter_disable s else stutter_enable s.

(** *** State machine control *)

Definition getState (s : t) : StutterState := m_state s.

Definition startCapture (s : t) : t :=
  set_state CAPTURING (set_captureLength 0 (set_writePos 0 s)).

Definition scheduleCaptureStart (sample : Z) (s : t) : t :=
  set_state WAIT_CAPTURE_START (set_captureStartAt sample s).

Definition cancelCaptureStart (s : t) : t :=
  set_state IDLE_NO_LOOP (set_captureStartAt 0 s).

(** The transition both [endCapture] and the scheduled capture end make. *)
Definition finishCapture (held : bool) (s : t) : t :=
  if 0 <? m_writePos s then
    let s := set_captureLength (m_writePos s) s in
    if held then set_state PLAYING (set_readPos 0 s)
    else set_state IDLE_WITH_LOOP s
  else set_state IDLE_NO_LOOP s.

Definition endCapture (stutterHeld : bool) (s : t) : t :=
  finishCapture stutterHeld s.

Definition scheduleCaptureEnd (sample : Z) (stutterHeld : bool) (s : t) : t :=
  set_state WAIT_CAPTURE_END (set_stutterHeld stutterHeld (set_captureEndAt sample s)).

Definition startPlayback (s : t) : t := set_state PLAYING (set_readPos 0 s).

Definition schedulePlaybackOnset (sample : Z) (s : t) : t :=
  set_state WAIT_PLAYBACK_ONSET (set_playbackOnsetAt sample s).

Definition stopPlayback (s : t) : t := set_state IDLE_WITH_LOOP s.

Definition schedulePlaybackLength (sample : Z) (s : t) : t :=
  set_state WAIT_PLAYBACK_LENGTH (set_playbackLengthAt sample s).

(** *** Parameter control *)

Definition setLengthMode (mode : Mode) (s : t) : t :=
  set_modes (m_onsetMode s) mode (m_captureStartMode s) (m_captureEndMode s) s.
Definition setOnsetMode (mode : Mode) (s : t) : t :=
  set_modes mode (m_lengthMode s) (m_captureStartMode s) (m_captureEndMode s) s.
Definition setCaptureStartMode (mode : Mode) (s : t) : t :=
  set_modes (m_onsetMode s) (m_lengthMode s) mode (m_captureEndMode s) s.
Definition setCaptureEndMode (mode : Mode) (s : t) : t :=
  set_modes (m_onsetMode s) (m_lengthMode s) (m_captureStartMode s) mode s.

(** *** update *)

(** The test the four schedule checks share: a schedule is set, the block
    has reached it, and the block end has not wrapped. *)
Definition due (at_ currentSample : Z) : bool :=
  let blockEndSample := u64 (currentSample + AUDIO_BLOCK_SAMPLES) in
  (0 <? at_) && (at_ <=? currentSample) && (currentSample <? blockEndSample).

Definition checkCaptureStart (currentSample : Z) (s : t) : t :=
  if due (m_captureStartAtSample s) currentSample
  then set_captureStartAt 0
         (set_state CAPTURING (set_captureLength 0 (set_writePos 0 s)))
  else s.

Definition checkCaptureEnd (currentSample : Z) (s : t) : t :=
  if due (m_captureEndAtSample s) currentSample
  then set_captureEndAt 0 (finishCapture (m_stutterHeld s) s)
  else s.

Definition checkPlaybackOnset (currentSample : Z) (s : t) : t :=
  if due (m_playbackOnsetAtSample s) currentSample
  then set_playbackOnsetAt 0 (set_state PLAYING (set_readPos 0 s))
  else s.

Definition checkPlaybackLength (currentSample : Z) (s : t) : t :=
  if due (m_playbackLengthAtSample s) currentSample
  then set_playbackLengthAt 0 (set_state IDLE_WITH_LOOP s)
  else s.

Definition writeSample (l r : Z) (s : t) : t :=
  mk (<[Z.to_nat (m_writePos s) := l]> (m_stutterBufferL s))
     (<[Z.to_nat (m_writePos s) := r]> (m_stutterBufferR s))
     (u32 (m_writePos s + 1)) (m_readPos s)
     (m_captureLength s) (m_state s) (m_onsetMode s) (m_lengthMode s)
     (m_captureStartMode s) (m_captureEndMode s) (m_captureStartAtSample s)
     (m_captureEndAtSample s) (m_playbackOnsetAtSample s)
     (m_playbackLengthAtSample s) (m_stutterHeld s).

(** [for (i = 0; i < AUDIO_BLOCK_SAMPLES && m_writePos < STUTTER_BUFFER_SAMPLES; i++)],
    with [n] iterations left and [i] the index into the block. *)
Fixpoint captureLoop (n i : nat) (dataL dataR : block) (s : t) : t :=
  match n with
  | O => s
  | S n' =>
      if m_writePos s <? STUTTER_BUFFER_SAMPLES
      then captureLoop n' (S i) dataL dataR
             (writeSample (dataL !!! i) (dataR !!! i) s)
      else s
  end.

(** The buffer-full transition at the end of the capturing branch. *)
Definition bufferFull (s : t) : t :=
  if STUTTER_BUFFER_SAMPLES <=? m_writePos s then
    let s := set_captureLength (m_writePos s) s in
    let s := if m_stutterHeld s then set_state PLAYING (set_readPos 0 s)
             else set_state IDLE_WITH_LOOP s in
    set_captureEndAt 0 s
  else s.

Fixpoint playLoop (n : nat) (s : t) : t * (block * block) :=
  match n with
  | O => (s, ([], []))
  | S n' =>
      let l := m_stutterBufferL s !!! Z.to_nat (m_readPos s) in
      let r := m_stutterBufferR s !!! Z.to_nat (m_readPos s) in
      let p := u32 (m_readPos s + 1) in
      let s1 := set_readPos (if m_captureLength s <=? p then 0 else p) s in
      let '(s2, (ls, rs)) := playLoop n' s1 in
      (s2, (l :: ls, r :: rs))
  end.

(** The [switch (m_state)] of [update]. *)
Definition process (io : BlockIO) (s : t) : t * transmitted :=
  match m_state s with
  | IDLE_NO_LOOP | IDLE_WITH_LOOP | WAIT_CAPTURE_START | WAIT_PLAYBACK_ONSET =>
      match in0 io, in1 io with
      | Some blockL, Some blockR => (s, (Some blockL, Some blockR))
      | _, _ => (s, (None, None))
      end
  | CAPTURING | WAIT_CAPTURE_END =>
      match in0 io, in1 io with
      | Some blockL, Some blockR =>
          (bufferFull
             (captureLoop (Z.to_nat AUDIO_BLOCK_SAMPLES) 0 blockL blockR s),
           (Some blockL, Some blockR))
      | _, _ => (s, (None, None))
      end
  | PLAYING | WAIT_PLAYBACK_LENGTH =>
      if alloc0 io && alloc1 io then
        let '(s1, (outL, outR)) := playLoop (Z.to_nat AUDIO_BLOCK_SAMPLES) s in
        (s1, (Some outL, Some outR))
      else (s, (None, None))
  end.

(** The four schedule checks of [update], in source order. *)
Definition checkSchedules (currentSample : Z) (s : t) : t :=
  checkPlaybackLength currentSample
    (checkPlaybackOnset currentSample
       (checkCaptureEnd currentSample
          (checkCaptureStart currentSample s))).

Definition update (currentSample : Z) (io : BlockIO) (s : t) : t * transmitted :=
  process io (checkSchedules currentSample s).

#[export] Instance effect : AudioEffectBase t :=
  {| enable := stutter_enable; disable := stutter_disable;
     toggle := stutter_toggle; isEnabled := stutter_isEnabled |}.

(** *** The public operations and the states they reach *)

Inductive op :=
| OpEnable | OpDisable | OpToggle
| OpStartCapture
| OpScheduleCaptureStart (sample : Z)
| OpCancelCaptureStart
| OpEndCapture (stutterHeld : bool)
| OpScheduleCaptureEnd (sample : Z) (stutterHeld : bool)
| OpStartPlayback
| OpSchedulePlaybackOnset (sample : Z)
| OpStopPlayback
| OpSchedulePlaybackLength (sample : Z)
| OpSetLengthMode (m : Mode) | OpSetOnsetMode (m : Mode)
| OpSetCaptureStartMode (m : Mode) | OpSetCaptureEndMode (m : Mode)
| OpUpdate (currentSample : Z) (io : BlockIO).

Definition step (o : op) (s : t) : t :=
  match o with
  | OpEnable => stutter_enable s
  | OpDisable => stutter_disable s
  | OpToggle => stutter_toggle s
  | OpStartCapture => startCapture s
  | OpScheduleCaptureStart x => scheduleCaptureStart x s
  | OpCancelCaptureStart => cancelCaptureStart s
  | OpEndCapture h => endCapture h s
  | OpScheduleCaptureEnd x h => scheduleCaptureEnd x h s
  | OpStartPlayback => startPlayback s
  | OpSchedulePlaybackOnset x => schedulePlaybackOnset x s
  | OpStopPlayback => stopPlayback s
  | OpSchedulePlaybackLength x => schedulePlaybackLength x s
  | OpSetLengthMode m => setLengthMode m s
  | OpSetOnsetMode m => setOnsetMode m s
  | OpSetCaptureStartMode m => setCaptureStartMode m s
  | OpSetCaptureEndMode m => setCaptureEndMode m s
  | OpUpdate c io => fst (update c io s)
  end.

Definition run (ops : list op) (s : t) : t := foldl (fun s o => step o s) s ops.

Definition reachable (s : t) : Prop := exists ops, s = run ops initial.

Definition is_cancel (o : op) : bool :=
  match o with OpCancelCaptureStart => true | _ => false end.


(** What every operation preserves. The last part holds as long as no
    [cancelCaptureStart] has been called ([strict]). *)
Definition inv (strict : bool) (s : t) : Prop :=
  0 <= m_captureLength s <= m_writePos s /\
  m_writePos s <= STUTTER_BUFFER_SAMPLES /\
  0 <= m_readPos s /\
  (m_state s = PLAYING -> m_readPos s = 0 \/ m_readPos s < m_captureLength s) /\
  (strict = true -> m_state s = IDLE_NO_LOOP -> m_captureLength s = 0).

(** The three properties the data model asks of every state. *)
Definition length_bounded (s : t) : Prop :=
  m_captureLength s <= STUTTER_BUFFER_SAMPLES.
Definition read_in_loop (s : t) : Prop :=
  m_state s = PLAYING -> m_readPos s < m_captureLength s.
Definition no_loop_is_empty (s : t) : Prop :=
  m_state s = IDLE_NO_LOOP -> m_captureLength s = 0.


(** The four mode settings agree. *)
Definition same_modes (a b : t) : Prop :=
  m_onsetMode a = m_onsetMode b /\ m_lengthMode a = m_lengthMode b /\
  m_captureStartMode a = m_captureStartMode b /\
  m_captureEndMode a = m_captureEndMode b.

(** Every buffer access the engine can make is inside the buffers. *)
Definition bounds (s : t) : Prop :=
  Z.of_nat (length (m_stutterBufferL s)) = STUTTER_BUFFER_SAMPLES /\
  Z.of_nat (length (m_stutterBufferR s)) = STUTTER_BUFFER_SAMPLES /\
  0 <= m_writePos s <= STUTTER_BUFFER_SAMPLES /\
  0 <= m_readPos s < STUTTER_BUFFER_SAMPLES /\
  0 <= m_captureLength s <= STUTTER_BUFFER_SAMPLES.

(** No state transition is scheduled. *)
Definition unscheduled (s : t) : Prop :=
  m_captureStartAtSample s = 0 /\ m_captureEndAtSample s = 0 /\
  m_playbackOnsetAtSample s = 0 /\ m_playbackLengthAtSample s = 0.

(** The audio interrupt alone: one [update] per block, with what each
    transmits. *)
Fixpoint updates (blocks : list (Z * BlockIO)) (s : t) : t * list transmitted :=
  match blocks with
  | [] => (s, [])
  | (c, io) :: rest =>
      let '(s1, out) := update c io s in
      let '(s2, outs) := updates rest s1 in
      (s2, out :: outs)
  end.

End Stutter.

(** ** Commands (command.h) *)

Inductive CommandType :=
| CMD_NONE | EFFECT_TOGGLE | EFFECT_ENABLE | EFFECT_DISABLE | EFFECT_SET_PARAM
| CMD_UNKNOWN (raw : Z).      (* any other byte value *)

Inductive EffectID := ID_NONE | ID_STUTTER | ID_FREEZE | ID_CHOKE | ID_FUNC.

Record Command := mkCommand {
  type : CommandType;
  targetEffect : EffectID;
  param1 : Z;
  param2 : Z;
  value : Z
}.

Definition EffectID_eqb (a b : EffectID) : bool :=
  match a, b with
  | ID_NONE, ID_NONE | ID_STUTTER, ID_STUTTER | ID_FREEZE, ID_FREEZE
  | ID_CHOKE, ID_CHOKE | ID_FUNC, ID_FUNC => true
  | _, _ => false
  end.

(** ** Quantization helpers (effect_quantization.h, effect_quantization.cpp) *)

Module EffectQuantization.

Inductive Quantization := QUANT_32 | QUANT_16 | QUANT_8 | QUANT_4.

Record t := mk {
  globalQuantization : Quantization;
  lookaheadOffset : Z          (* uint32_t *)
}.

Definition initialize : t := mk QUANT_16 128.

Definition calculateQuantizedDuration (quant : Quantization) (tk : TimeKeeper.t) : Z :=
  let samplesPerBeat := TimeKeeper.getSamplesPerBeat tk in
  match quant with
  | QUANT_32 => samplesPerBeat / 8
  | QUANT_16 => samplesPerBeat / 4
  | QUANT_8 => samplesPerBeat / 2
  | QUANT_4 => samplesPerBeat
  end.

Definition samplesToNextQuantizedBoundary (quant : Quantization) (tk : TimeKeeper.t)
  : option Z :=
  let subdivision := calculateQuantizedDuration quant tk in
  TimeKeeper.samplesToNextSubdivision subdivision tk.

Definition getGlobalQuantization (q : t) : Quantization := globalQuantization q.
Definition setGlobalQuantization (quant : Quantization) (q : t) : t :=
  mk quant (lookaheadOffset q).
Definition getLookaheadOffset (q : t) : Z := lookaheadOffset q.

End EffectQuantization.

(** ** CHOKE controller (choke_controller.cpp)

    The LED, display and serial-console calls of the handlers leave the
    engine and the timeline untouched and are not modelled. *)

Module ChokeController.
Section WithFloat.
Context {F : Float32}.

(** The quantized-onset branch of [handleButtonPress]: the wait to the next
    boundary, shortened by the lookahead, added to the current sample. *)
Definition quantizedOnsetSample (q : EffectQuantization.t) (tk : TimeKeeper.t)
  : option Z :=
  let quant := EffectQuantization.getGlobalQuantization q in
  let currentSample := TimeKeeper.getSamplePosition tk in
  match EffectQuantization.samplesToNextQuantizedBoundary quant tk with
  | None => None
  | Some samplesToNext =>
      let lookahead := EffectQuantization.getLookaheadOffset q in
      let adjustedSamples :=
        if lookahead <? samplesToNext then u32 (samplesToNext - lookahead) else 0 in
      Some (u64 (currentSample + adjustedSamples))
  end.

(** [handleButtonPress]: whether the command was handled, and the engine
    afterwards; [None] when the boundary computation divides by zero. *)
Definition handleButtonPress (q : EffectQuantization.t) (tk : TimeKeeper.t)
    (cmd : Command) (s : Choke.t) : option (bool * Choke.t) :=
  match targetEffect cmd with
  | ID_CHOKE =>
      match type cmd with
      | EFFECT_ENABLE | EFFECT_TOGGLE =>
          let lengthMode := Choke.getLengthMode s in
          let onsetMode := Choke.getOnsetMode s in
          let quant := EffectQuantization.getGlobalQuantization q in
          let durationSamples :=
            EffectQuantization.calculateQuantizedDuration quant tk in
          match onsetMode with
          | FREE =>
              let s := Choke.choke_enable s in
              match lengthMode with
              | QUANTIZED =>
                  let releaseSample :=
                    u64 (TimeKeeper.getSamplePosition tk + durationSamples) in
                  Some (true, Choke.scheduleRelease releaseSample s)
              | FREE => Some (true, s)
              end
          | QUANTIZED =>
              match quantizedOnsetSample q tk with
              | None => None
              | Some onsetSample =>
                  let s := Choke.scheduleOnset onsetSample s in
                  match lengthMode with
                  | QUANTIZED =>
                      let releaseSample := u64 (onsetSample + durationSamples) in
                      Some (true, Choke.scheduleRelease releaseSample s)
                  | FREE => Some (true, s)
                  end
              end
          end
      | _ => Some (false, s)
      end
  | _ => Some (false, s)
  end.

Definition handleButtonRelease (cmd : Command) (s : Choke.t) : bool * Choke.t :=
  match targetEffect cmd with
  | ID_CHOKE =>
      match type cmd with
      | EFFECT_DISABLE =>
          match Choke.getLengthMode s with
          | QUANTIZED => (true, s)
          | FREE => (false, Choke.cancelScheduledOnset s)
          end
      | _ => (false, s)
      end
  | _ => (false, s)
  end.

End WithFloat.
End ChokeController.

(** ** FREEZE controller (freeze_controller.cpp)

    The same two handlers for the FREEZE engine; again the LED, display and
    serial-console calls are not modelled. *)

Module FreezeController.

Definition quantizedOnsetSample (q : EffectQuantization.t) (tk : TimeKeeper.t)
  : option Z :=
  let quant := EffectQuantization.getGlobalQuantization q in
  match EffectQuantization.samplesToNextQuantizedBoundary quant tk with
  | None => None
  | Some samplesToNext =>
      let lookahead := EffectQuantization.getLookaheadOffset q in
      let adjustedSamples :=
        if lookahead <? samplesToNext then u32 (samplesToNext - lookahead) else 0 in
      Some (u64 (TimeKeeper.getSamplePosition tk + adjustedSamples))
  end.

Definition handleButtonPress (q : EffectQuantization.t) (tk : TimeKeeper.t)
    (cmd : Command) (s : Freeze.t) : option (bool * Freeze.t) :=
  match targetEffect cmd with
  | ID_FREEZE =>
      match type cmd with
      | EFFECT_ENABLE | EFFECT_TOGGLE =>
          let lengthMode := Freeze.getLengthMode s in
          let onsetMode := Freeze.getOnsetMode s in
          match onsetMode with
          | FREE =>
              let s := Freeze.freeze_enable s in
              match lengthMode with
              | QUANTIZED =>
                  let quant := EffectQuantization.getGlobalQuantization q in
                  let durationSamples :=
                    EffectQuantization.calculateQuantizedDuration quant tk in
                  let releaseSample :=
                    u64 (TimeKeeper.getSamplePosition tk + durationSamples) in
                  Some (true, Freeze.scheduleRelease releaseSample s)
              | FREE => Some (true, s)
              end
          | QUANTIZED =>
              match quantizedOnsetSample q tk with
              | None => None
              | Some onsetSample =>
                  let s := Freeze.scheduleOnset onsetSample s in
                  match lengthMode with
                  | QUANTIZED =>
                      let quant := EffectQuantization.getGlobalQuantization q in
                      let durationSamples :=
                        EffectQuantization.calculateQuantizedDuration quant tk in
                      let releaseSample := u64 (onsetSample + durationSamples) in
                      Some (true, Freeze.scheduleRelease releaseSample s)
                  | FREE => Some (true, s)
                  end
              end
          end
      | _ => Some (false, s)
      end
  | _ => Some (false, s)
  end.

Definition handleButtonRelease (cmd : Command) (s : Freeze.t) : bool * Freeze.t :=
  match targetEffect cmd with
  | ID_FREEZE =>
      match type cmd with
      | EFFECT_DISABLE =>
          match Freeze.getLengthMode s with
          | QUANTIZED => (true, s)
          | FREE => (false, Freeze.cancelScheduledOnset s)
          end
      | _ => (false, s)
      end
  | _ => (false, s)
  end.

End FreezeController.

(** ** STUTTER controller (stutter_controller.cpp)

    The controller's own state is which of the FUNC and STUTTER keys are
    held. The LED, display and serial-console calls are not modelled; the
    handlers give [None] where the boundary computation divides by zero. *)

Module StutterController.

Record t := mk {
  m_funcHeld : bool;
  m_stutterHeld : bool
}.

Definition initial : t := mk false false.

(** [TimeKeeper::getSamplePosition() + samplesToNext]. *)
Definition boundarySample (q : EffectQuantization.t) (tk : TimeKeeper.t)
  : option Z :=
  let quant := EffectQuantization.getGlobalQuantization q in
  match EffectQuantization.samplesToNextQuantizedBoundary quant tk with
  | None => None
  | Some samplesToNext =>
      Some (u64 (TimeKeeper.getSamplePosition tk + samplesToNext))
  end.

Definition handleButtonPress (q : EffectQuantization.t) (tk : TimeKeeper.t)
    (cmd : Command) (c : t) (s : Stutter.t) : option (bool * t * Stutter.t) :=
  match targetEffect cmd with
  | ID_FUNC => Some (true, mk true (m_stutterHeld c), s)
  | ID_STUTTER =>
      match type cmd with
      | EFFECT_ENABLE | EFFECT_TOGGLE =>
          let c := mk (m_funcHeld c) true in
          let currentState := Stutter.getState s in
          if m_funcHeld c then
            match Stutter.m_captureStartMode s with
            | FREE => Some (true, c, Stutter.startCapture s)
            | QUANTIZED =>
                match boundarySample q tk with
                | None => None
                | Some captureStartSample =>
                    Some (true, c, Stutter.scheduleCaptureStart captureStartSample s)
                end
            end
          else
            match currentState with
            | Stutter.IDLE_NO_LOOP => Some (true, c, s)
            | Stutter.IDLE_WITH_LOOP =>
                match Stutter.m_onsetMode s with
                | FREE => Some (true, c, Stutter.startPlayback s)
                | QUANTIZED =>
                    match boundarySample q tk with
                    | None => None
                    | Some playbackOnsetSample =>
                        Some (true, c,
                              Stutter.schedulePlaybackOnset playbackOnsetSample s)
                    end
                end
            | _ => Some (true, c, s)
            end
      | _ => Some (false, c, s)
      end
  | _ => Some (false, c, s)
  end.

Definition handleButtonRelease (q : EffectQuantization.t) (tk : TimeKeeper.t)
    (cmd : Command) (c : t) (s : Stutter.t) : option (bool * t * Stutter.t) :=
  match targetEffect cmd with
  | ID_FUNC =>
      let c := mk false (m_stutterHeld c) in
      match Stutter.getState s with
      | Stutter.CAPTURING | Stutter.WAIT_CAPTURE_END =>
          if m_stutterHeld c then
            match Stutter.m_captureEndMode s with
            | FREE => Some (true, c, Stutter.endCapture true s)
            | QUANTIZED =>
                match boundarySample q tk with
                | None => None
                | Some captureEndSample =>
                    Some (true, c, Stutter.scheduleCaptureEnd captureEndSample true s)
                end
            end
          else Some (true, c, s)
      | _ => Some (true, c, s)
      end
  | ID_STUTTER =>
      match type cmd with
      | EFFECT_DISABLE =>
          let c := mk (m_funcHeld c) false in
          match Stutter.getState s with
          | Stutter.WAIT_CAPTURE_START =>
              Some (true, c, Stutter.cancelCaptureStart s)
          | Stutter.CAPTURING | Stutter.WAIT_CAPTURE_END =>
              match Stutter.m_captureEndMode s with
              | FREE => Some (true, c, Stutter.endCapture false s)
              | QUANTIZED =>
                  match boundarySample q tk with
                  | None => None
                  | Some captureEndSample =>
                      Some (true, c,
                            Stutter.scheduleCaptureEnd captureEndSample false s)
                  end
              end
          | Stutter.WAIT_PLAYBACK_ONSET => Some (true, c, Stutter.stopPlayback s)
          | Stutter.PLAYING =>
              match Stutter.m_lengthMode s with
              | FREE => Some (true, c, Stutter.stopPlayback s)
              | QUANTIZED =>
                  match boundarySample q tk with
                  | None => None
                  | Some playbackLengthSample =>
                      Some (true, c,
                            Stutter.schedulePlaybackLength playbackLengthSample s)
                  end
              end
          | _ => Some (true, c, s)
          end
      | _ => Some (false, c, s)
      end
  | _ => Some (false, c, s)
  end.

(** The four keys events the handlers tell apart. *)
Definition pressFunc : Command := mkCommand EFFECT_ENABLE ID_FUNC 0 0 0.
Definition releaseFunc : Command := mkCommand EFFECT_DISABLE ID_FUNC 0 0 0.
Definition pressStutter : Command := mkCommand EFFECT_ENABLE ID_STUTTER 0 0 0.
Definition releaseStutter : Command := mkCommand EFFECT_DISABLE ID_STUTTER 0 0 0.

(** What happens to the controller and the engine, in order: key events
    in the control thread, each with the timeline it finds, and blocks of
    the audio interrupt. *)
Inductive event :=
| Press (tk : TimeKeeper.t) (cmd : Command)
| Release (tk : TimeKeeper.t) (cmd : Command)
| Audio (currentSample : Z) (io : BlockIO).

Definition audio (blocks : list (Z * BlockIO)) : list event :=
  map (fun p => Audio (fst p) (snd p)) blocks.

Fixpoint drive (q : EffectQuantization.t) (events : list event) (c : t)
    (s : Stutter.t) : option (t * Stutter.t * list transmitted) :=
  match events with
  | [] => Some (c, s, [])
  | Press tk cmd :: rest =>
      match handleButtonPress q tk cmd c s with
      | Some (_, c1, s1) => drive q rest c1 s1
      | None => None
      end
  | Release tk cmd :: rest =>
      match handleButtonRelease q tk cmd c s with
      | Some (_, c1, s1) => drive q rest c1 s1
      | None => None
      end
  | Audio p io :: rest =>
      let '(s1, out) := Stutter.update p io s in
      match drive q rest c s1 with
      | Some (c2, s2, outs) => Some (c2, s2, out :: outs)
      | None => None
      end
  end.

End StutterController.

(** ** Command dispatch (effect_manager.h, effect_manager.cpp) *)

Module EffectManager.
Section WithFloat.
Context {F : Float32}.

Definition MAX_EFFECTS : Z := 4.

(** The three engine objects of main.cpp, and the non-null pointers the
    registry can hold. *)
Record Engines := mkEngines {
  stutter : Stutter.t;
  freeze : Freeze.t;
  choke : Choke.t
}.

Inductive EffectPtr := PtrStutter | PtrFreeze | PtrChoke.

(** The first [s_numEffects] entries of [s_effects], in order. *)
Definition t := list (EffectID * EffectPtr).

Definition empty : t := [].

Fixpoint getEffect (id : EffectID) (reg : t) : option EffectPtr :=
  match reg with
  | [] => None
  | (id', e) :: rest => if EffectID_eqb id' id then Some e else getEffect id rest
  end.

Definition registerEffect (id : EffectID) (effect : option EffectPtr) (reg : t)
  : bool * t :=
  match effect with
  | None => (false, reg)
  | Some e =>
      match id with
      | ID_NONE => (false, reg)
      | _ =>
          if MAX_EFFECTS <=? Z.of_nat (length reg) then (false, reg)
          else match getEffect id reg with
               | Some _ => (false, reg)
               | None => (true, reg ++ [(id, e)])
               end
      end
  end.

(** A virtual call through a registered pointer. *)
Definition call (m : forall E, AudioEffectBase E -> E -> E) (p : EffectPtr)
    (w : Engines) : Engines :=
  match p with
  | PtrStutter => mkEngines (m _ Stutter.effect (stutter w)) (freeze w) (choke w)
  | PtrFreeze => mkEngines (stutter w) (m _ Freeze.effect (freeze w)) (choke w)
  | PtrChoke => mkEngines (stutter w) (freeze w) (m _ Choke.effect (choke w))
  end.

Definition executeCommand (cmd : Command) (reg : t) (w : Engines) : bool * Engines :=
  match type cmd with
  | CMD_NONE => (true, w)
  | ty =>
      match getEffect (targetEffect cmd) reg with
      | None => (false, w)
      | Some effect =>
          match ty with
          | EFFECT_TOGGLE => (true, call (@toggle) effect w)
          | EFFECT_ENABLE => (true, call (@enable) effect w)
          | EFFECT_DISABLE => (true, call (@disable) effect w)
          | EFFECT_SET_PARAM => (true, w)   (* setParameter: base no-op *)
          | _ => (false, w)
          end
      end
  end.

(** The registry main.cpp builds. *)
Definition mainRegistry : t :=
  (snd (registerEffect ID_CHOKE (Some PtrChoke)
     (snd (registerEffect ID_FREEZE (Some PtrFreeze)
        (snd (registerEffect ID_STUTTER (Some PtrStutter) empty)))))).

(** A registry built by any sequence of [registerEffect] calls. *)
Definition registerAll (calls : list (EffectID * option EffectPtr)) : t :=
  foldl (fun reg c => snd (registerEffect (fst c) (snd c) reg)) empty calls.

Definition ids (reg : t) : list EffectID := map fst reg.

Definition registered (id : EffectID) (reg : t) : bool :=
  match getEffect id reg with Some _ => true | None => false end.

(** At most [MAX_EFFECTS] entries, no identifier twice, none of them NONE. *)
Definition registry_ok (reg : t) : Prop :=
  (length reg <= 4)%nat /\ NoDup (ids reg) /\ ~ In ID_NONE (ids reg).

(** [effect->isEnabled()] through a registered pointer. *)
Definition isEnabledOf (p : EffectPtr) (w : Engines) : bool :=
  match p with
  | PtrStutter => @isEnabled _ Stutter.effect (stutter w)
  | PtrFreeze => @isEnabled _ Freeze.effect (freeze w)
  | PtrChoke => @isEnabled _ Choke.effect (choke w)
  end.

End WithFloat.
End EffectManager.

(** ** The command loop (app_logic.cpp, processInputCommands)

    One iteration of the loop, for a command popped from the button queue:
    the CHOKE and FREEZE controllers get the first look at their commands,
    and what they do not handle goes to [EffectManager::executeCommand].
    The LED, display and serial-console feedback is not modelled. The
    result is [None] where the boundary computation divides by zero, and for
    STUTTER commands: that branch compares [cmd.type] with an enumerator
    [CommandType::STUTTER_ENABLE] that command.h does not declare, and is
    left out. *)

Module InputCommands.
Section WithFloat.
Context {F : Float32}.

Definition with_choke (c : Choke.t) (w : EffectManager.Engines) :=
  EffectManager.mkEngines (EffectManager.stutter w) (EffectManager.freeze w) c.
Definition with_freeze (f : Freeze.t) (w : EffectManager.Engines) :=
  EffectManager.mkEngines (EffectManager.stutter w) f (EffectManager.choke w).

(** [if (!handled && EffectManager::executeCommand(cmd)) ...]. *)
Definition finish (handled : bool) (cmd : Command) (reg : EffectManager.t)
    (w : EffectManager.Engines) : EffectManager.Engines :=
  if handled then w else snd (EffectManager.executeCommand cmd reg w).

Definition processInputCommand (q : EffectQuantization.t) (tk : TimeKeeper.t)
    (reg : EffectManager.t) (cmd : Command) (w : EffectManager.Engines)
  : option EffectManager.Engines :=
  match targetEffect cmd with
  | ID_CHOKE =>
      match type cmd with
      | EFFECT_ENABLE | EFFECT_TOGGLE =>
          match ChokeController.handleButtonPress q tk cmd (EffectManager.choke w) with
          | None => None
          | Some (handled, c) => Some (finish handled cmd reg (with_choke c w))
          end
      | EFFECT_DISABLE =>
          let '(handled, c) :=
            ChokeController.handleButtonRelease cmd (EffectManager.choke w) in
          Some (finish handled cmd reg (with_choke c w))
      | _ => Some (finish false cmd reg w)
      end
  | ID_FREEZE =>
      match type cmd with
      | EFFECT_ENABLE | EFFECT_TOGGLE =>
          match FreezeController.handleButtonPress q tk cmd (EffectManager.freeze w) with
          | None => None
          | Some (handled, f) => Some (finish handled cmd reg (with_freeze f w))
          end
      | EFFECT_DISABLE =>
          let '(handled, f) :=
            FreezeController.handleButtonRelease cmd (EffectManager.freeze w) in
          Some (finish handled cmd reg (with_freeze f w))
      | _ => Some (finish false cmd reg w)
      end
  | ID_STUTTER => None
  | _ => Some (finish false cmd reg w)
  end.

(** The loop over the commands in the queue, oldest first. *)
Fixpoint processInputCommands (q : EffectQuantization.t) (tk : TimeKeeper.t)
    (reg : EffectManager.t) (cmds : list Command) (w : EffectManager.Engines)
  : option EffectManager.Engines :=
  match cmds with
  | [] => Some w
  | cmd :: rest =>
      match processInputCommand q tk reg cmd w with
      | None => None
      | Some w1 => processInputCommands q tk reg rest w1
      end
  end.

End WithFloat.
End InputCommands.

(** ** Encoder menus (encoder_menu.h, encoder_menu.cpp; setupEncoder4 of
    app_logic.cpp)

    [Handler::update] with what it reads as inputs: the button state
    [EncoderIO::getButton] would return, the raw position, and the two
    readings of [millis()]. The callbacks it invokes are returned as a list
    of calls, in order; which callbacks are installed is a parameter.
    Signed 32-bit arithmetic is taken to wrap. *)

Module EncoderMenu.

Definition i32 (x : Z) : Z := (x + 2 ^ 31) mod 2 ^ 32 - 2 ^ 31.
Definition i8 (x : Z) : Z := (x + 2 ^ 7) mod 2 ^ 8 - 2 ^ 7.

Definition DISPLAY_COOLDOWN_MS : Z := 2000.
Definition STEPS_PER_TURN : Z := 8.

Record Handler := mk {
  lastPosition : Z;     (* int32_t *)
  accumulator : Z;      (* int32_t *)
  wasTouched : bool;
  releaseTime : Z       (* uint32_t *)
}.

Record Callbacks := mkCallbacks {
  valueChangeCallback : bool;
  buttonPressCallback : bool;
  displayUpdateCallback : bool
}.

Inductive call :=
| ButtonPress
| DisplayUpdate (isTouched : bool)
| ValueChange (delta : Z).     (* int8_t *)

(** [if (!wasTouched) { wasTouched = true; if (displayUpdateCallback) ... }]. *)
Definition touch (cb : Callbacks) (h : Handler) : Handler * list call :=
  if wasTouched h then (h, [])
  else (mk (lastPosition h) (accumulator h) true (releaseTime h),
        if displayUpdateCallback cb then [DisplayUpdate true] else []).

Definition update (cb : Callbacks) (button : bool) (currentPosition : Z)
    (millis1 millis2 : Z) (h : Handler) : Handler * list call :=
  (* button *)
  let '(h, calls1) :=
    if buttonPressCallback cb && button then
      let '(h1, cs) := touch cb h in
      (mk (lastPosition h1) (accumulator h1) (wasTouched h1) 0,
       ButtonPress :: cs)
    else (h, []) in
  (* rotation *)
  let delta := i32 (currentPosition - lastPosition h) in
  let '(h, calls2) :=
    if negb (delta =? 0) then
      let '(h1, cs) := touch cb h in
      let acc := i32 (accumulator h1 + delta) in
      let turns := Z.quot acc STEPS_PER_TURN in
      if negb (turns =? 0) && valueChangeCallback cb then
        (mk currentPosition (Z.rem acc STEPS_PER_TURN) (wasTouched h1) 0,
         cs ++ [ValueChange (i8 turns)])
      else (mk currentPosition acc (wasTouched h1) 0, cs)
    else if wasTouched h then
      (mk (lastPosition h) (accumulator h) false millis1, [])
    else (h, []) in
  (* cooldown *)
  let '(h, calls3) :=
    if negb (wasTouched h) && (0 <? releaseTime h) then
      if DISPLAY_COOLDOWN_MS <=? u32 (millis2 - releaseTime h) then
        (mk (lastPosition h) (accumulator h) (wasTouched h) 0,
         if displayUpdateCallback cb then [DisplayUpdate false] else [])
      else (h, [])
    else (h, []) in
  (h, calls1 ++ calls2 ++ calls3).

Definition resetPosition (currentPosition : Z) (h : Handler) : Handler :=
  mk currentPosition 0 (wasTouched h) (releaseTime h).

(** One reading of the hardware per [update]. *)
Record reading := mkReading {
  r_button : bool;
  r_position : Z;
  r_millis1 : Z;
  r_millis2 : Z
}.

Fixpoint updates (cb : Callbacks) (rs : list reading) (h : Handler)
  : Handler * list call :=
  match rs with
  | [] => (h, [])
  | r :: rest =>
      let '(h1, cs) :=
        update cb (r_button r) (r_position r) (r_millis1 r) (r_millis2 r) h in
      let '(h2, cs') := updates cb rest h1 in
      (h2, cs ++ cs')
  end.

(** The turns delivered to the value-change callback, added up. *)
Fixpoint turnsDelivered (cs : list call) : Z :=
  match cs with
  | [] => 0
  | ValueChange d :: rest => d + turnsDelivered rest
  | _ :: rest => turnsDelivered rest
  end.

(** The readings move the encoder by at most [step] between two updates. *)
Fixpoint smooth (step : Z) (from : Z) (rs : list reading) : Prop :=
  match rs with
  | [] => True
  | r :: rest =>
      Z.abs (r_position r - from) <= step /\ smooth step (r_position r) rest
  end.

(** The value-change callback of encoder 4: step the global quantization. *)
Definition quantizationIndex (quant : EffectQuantization.Quantization) : Z :=
  match quant with
  | EffectQuantization.QUANT_32 => 0
  | EffectQuantization.QUANT_16 => 1
  | EffectQuantization.QUANT_8 => 2
  | EffectQuantization.QUANT_4 => 3
  end.

(** [static_cast<Quantization>(newIndex)] for the indices the clamp lets
    through. *)
Definition quantizationOfIndex (i : Z) : EffectQuantization.Quantization :=
  if i =? 0 then EffectQuantization.QUANT_32
  else if i =? 1 then EffectQuantization.QUANT_16
  else if i =? 2 then EffectQuantization.QUANT_8
  else EffectQuantization.QUANT_4.

Definition encoder4ValueChange (delta : Z) (q : EffectQuantization.t)
  : EffectQuantization.t :=
  let currentIndex := quantizationIndex (EffectQuantization.getGlobalQuantization q) in
  let newIndex := i8 (currentIndex + delta) in
  let newIndex := if newIndex <? 0 then 0 else newIndex in
  let newIndex := if 3 <? newIndex then 3 else newIndex in
  if negb (newIndex =? currentIndex)
  then EffectQuantization.setGlobalQuantization (quantizationOfIndex newIndex) q
  else q.

End EncoderMenu.

(** ** SPSC queue (spsc_queue.h) *)

Module SPSC.
Section Queue.
Context {T : Type}.
Variable SIZE : Z.

Record t := mk {
  buffer : list T;       (* T buffer[SIZE] *)
  writeIdx : Z;          (* volatile uint32_t *)
  readIdx : Z            (* volatile uint32_t *)
}.

(** The two [static_assert]s of the class. *)
Definition size_ok : Prop := Z.land SIZE (SIZE - 1) = 0 /\ 0 < SIZE.

(** The constructor zeroes the indices and leaves the array as it is. *)
Definition create (buf : list T) : t := mk buf 0 0.

Definition mask (x : Z) : Z := Z.land x (SIZE - 1).

Definition push (item : T) (q : t) : bool * t :=
  let current_write := writeIdx q in
  let next_write := u32 (current_write + 1) in
  if mask next_write =? mask (readIdx q) then (false, q)
  else (true, mk (<[Z.to_nat (mask current_write) := item]> (buffer q))
                 next_write (readIdx q)).

(** [bool pop(T& item)]: the result, the referenced [item] afterwards, and
    the queue. *)
Definition pop (item : T) (q : t) : bool * T * t :=
  let current_read := readIdx q in
  if current_read =? writeIdx q then (false, item, q)
  else (true,
        default item (buffer q !! Z.to_nat (mask current_read)),
        mk (buffer q) (writeIdx q) (u32 (current_read + 1))).

Definition isEmpty (q : t) : bool := readIdx q =? writeIdx q.

Definition isFull (q : t) : bool :=
  mask (u32 (writeIdx q + 1)) =? mask (readIdx q).

Definition size (q : t) : Z := mask (u32 (writeIdx q - readIdx q)).

Definition capacity : Z := SIZE - 1.

(** The number of elements pushed and not yet popped. *)
Definition stored (q : t) : Z := u32 (writeIdx q - readIdx q).

(** The [n] slots of the ring from index [start] on. *)
Fixpoint slots (buf : list T) (start : Z) (n : nat) : list T :=
  match n with
  | O => []
  | S n' =>
      match buf !! Z.to_nat (mask start) with
      | Some x => x :: slots buf (start + 1) n'
      | None => slots buf (start + 1) n'
      end
  end.

(** The elements in the queue, oldest first. *)
Definition contents (q : t) : list T :=
  slots (buffer q) (readIdx q) (Z.to_nat (stored q)).

Inductive reachable : t -> Prop :=
| reach_create buf : Z.of_nat (length buf) = SIZE -> reachable (create buf)
| reach_push item q : reachable q -> reachable (snd (push item q))
| reach_pop item q : reachable q -> reachable (snd (pop item q)).

Definition inv (q : t) : Prop :=
  is_u32 (writeIdx q) /\ is_u32 (readIdx q) /\
  stored q <= capacity /\ Z.of_nat (length (buffer q)) = SIZE.

(** The producers' pattern: push each item, dropping what does not fit. *)
Definition pushAll (items : list T) (q : t) : t :=
  foldl (fun q x => snd (push x q)) q items.

(** The consumers' pattern [while (queue.pop(item)) { ... }], collecting the
    items it hands out; [fuel] bounds the number of iterations. *)
Fixpoint drain (fuel : nat) (item : T) (q : t) : list T * t :=
  match fuel with
  | O => ([], q)
  | S fuel' =>
      let '(ok, x, q1) := pop item q in
      if ok then let '(xs, q2) := drain fuel' x q1 in (x :: xs, q2)
      else ([], q1)
  end.

End Queue.
End SPSC.

(** ** Key scanning (input_io.cpp)

    One pass of the [for (;;)] loop of [threadLoop] is [scan]; the thread is
    the sequence of its scans. A scan reads the key bitmask once
    ([neokey.read()]); [millis()] and [micros()] are read while a mapping is
    handled, so a reading gives their values for each mapping index. Every
    call of [commandQueue.push] is also listed, in order, with the time
    [now] it was decided at and the key it came from. The four mappings
    have the key indices 0..3, inside the two arrays of [NUM_KEYS]
    entries. *)

Module InputIO.

Definition NUM_KEYS : Z := 4.
Definition DEBOUNCE_MS : Z := 20.
Definition TRACE_CHOKE_BUTTON_PRESS : Z := 500.

Record ButtonMapping := mkMapping {
  keyIndex : Z;               (* uint8_t *)
  pressCommand : Command;
  releaseCommand : Command
}.

Definition buttonMappings : list ButtonMapping :=
  [ mkMapping 0 (mkCommand EFFECT_ENABLE ID_FREEZE 0 0 0)
                (mkCommand EFFECT_DISABLE ID_FREEZE 0 0 0);
    mkMapping 1 (mkCommand CMD_NONE ID_NONE 0 0 0)
                (mkCommand CMD_NONE ID_NONE 0 0 0);
    mkMapping 2 (mkCommand EFFECT_ENABLE ID_CHOKE 0 0 0)
                (mkCommand EFFECT_DISABLE ID_CHOKE 0 0 0);
    mkMapping 3 (mkCommand CMD_NONE ID_NONE 0 0 0)
                (mkCommand CMD_NONE ID_NONE 0 0 0) ].

Record t := mk {
  commandQueue : SPSC.t (T := Command);   (* SPSCQueue<Command, 32> *)
  lastKeyState : list bool;               (* NUM_KEYS entries *)
  lastEventTime : list Z;                 (* uint32_t, NUM_KEYS entries *)
  trace : Trace.t
}.

(** Static storage. *)
Definition initial : t :=
  mk (SPSC.create (replicate 32 (mkCommand CMD_NONE ID_NONE 0 0 0)))
     [false; false; false; false] [0; 0; 0; 0] Trace.initial.

Record reading := mkReading {
  buttons : Z;             (* uint32_t, neokey.read() *)
  millis : nat -> Z;       (* millis(), read for mapping i *)
  micros : nat -> Z        (* micros() inside Trace::record *)
}.

Record pushed := mkPushed {
  at_ms : Z;               (* now *)
  key : Z;                 (* keyIndex *)
  cmd : Command
}.

Definition isNone (c : CommandType) : bool :=
  match c with CMD_NONE => true | _ => false end.

(** The body of the loop over the mappings, for mapping [i]. *)
Definition handleMapping (r : reading) (i : nat) (mapping : ButtonMapping)
    (s : t) : list pushed * t :=
  let k := Z.to_nat (keyIndex mapping) in
  let pressed :=
    negb (Z.land (buttons r) (Z.shiftl 1 (keyIndex mapping)) =? 0) in
  if Bool.eqb pressed (lastKeyState s !!! k) then ([], s)
  else
    let now := millis r i in
    let '(log, s1) :=
      if DEBOUNCE_MS <=? u32 (now - lastEventTime s !!! k) then
        let times := <[k := now]> (lastEventTime s) in
        let cmd := if pressed then pressCommand mapping
                   else releaseCommand mapping in
        if isNone (type cmd) then
          ([], mk (commandQueue s) (lastKeyState s) times (trace s))
        else
          ([mkPushed now (keyIndex mapping) cmd],
           mk (snd (SPSC.push 32 cmd (commandQueue s)))
              (lastKeyState s) times
              (Trace.record (micros r i)
                 (TRACE_CHOKE_BUTTON_PRESS + (if pressed then 0 else 1))
                 (keyIndex mapping) (trace s)))
      else ([], s) in
    (log, mk (commandQueue s1) (<[k := pressed]> (lastKeyState s1))
             (lastEventTime s1) (trace s1)).

Fixpoint scanFrom (r : reading) (i : nat) (mappings : list ButtonMapping)
    (s : t) : list pushed * t :=
  match mappings with
  | [] => ([], s)
  | mapping :: rest =>
      let '(log1, s1) := handleMapping r i mapping s in
      let '(log2, s2) := scanFrom r (S i) rest s1 in
      (log1 ++ log2, s2)
  end.

Definition scan (r : reading) (s : t) : list pushed * t :=
  scanFrom r 0 buttonMappings s.

(** The thread: one scan per reading. *)
Fixpoint scans (rs : list reading) (s : t) : list pushed * t :=
  match rs with
  | [] => ([], s)
  | r :: rs' =>
      let '(log1, s1) := scan r s in
      let '(log2, s2) := scans rs' s1 in
      (log1 ++ log2, s2)
  end.

(** [popCommand]. *)
Definition popCommand (outCmd : Command) (s : t) : bool * Command * t :=
  let '(ok, c, q) := SPSC.pop 32 outCmd (commandQueue s) in
  (ok, c, mk q (lastKeyState s) (lastEventTime s) (trace s)).

(** Whether key [k] is down in a reading. *)
Definition down (k : Z) (r : reading) : bool :=
  negb (Z.land (buttons r) (Z.shiftl 1 k) =? 0).

(** The pushes that came from key [k]. *)
Definition of_key (k : Z) (log : list pushed) : list pushed :=
  filter (fun e => key e = k) log.

(** Every push of the log comes at least [DEBOUNCE_MS] after the push before
    it, and the first one after [t0], in [uint32_t] arithmetic. *)
Fixpoint spaced (t0 : Z) (log : list pushed) : Prop :=
  match log with
  | [] => True
  | e :: rest => DEBOUNCE_MS <= u32 (at_ms e - t0) /\ spaced (at_ms e) rest
  end.

End InputIO.

(** ** The control loop (app_logic.cpp)

    The parts of the loop that drive the timeline: transport events, clock
    ticks and the beat LED. Serial output and trace records are left out. *)

Module AppLogic.

Inductive MidiEvent := START | STOP | CONTINUE.

Record t := mk {
  ledPin : bool;                 (* level written to LED_PIN *)
  s_ledOffSample : Z;            (* uint64_t, 0 = LED off *)
  s_transportActive : bool;
  s_lastTickMicros : Z;          (* uint32_t *)
  s_avgTickPeriodUs : Z;         (* uint32_t *)
  timeline : TimeKeeper.t
}.

(** The static initialisers. *)
Definition initial : t := mk false 0 false 0 20833 TimeKeeper.initial.

Definition set_timeline (tk : TimeKeeper.t) (a : t) : t :=
  mk (ledPin a) (s_ledOffSample a) (s_transportActive a) (s_lastTickMicros a)
     (s_avgTickPeriodUs a) tk.

(** One iteration of the loop of [processTransportEvents]. *)
Definition processTransportEvent (event : MidiEvent) (a : t) : t :=
  match event with
  | START =>
      let tk := TimeKeeper.setTransportState TimeKeeper.PLAYING
                  (TimeKeeper.reset (timeline a)) in
      let spb := TimeKeeper.getSamplesPerBeat tk in
      let pulseSamples := u32 (spb * 2) / 24 in
      mk true (u64 (TimeKeeper.getSamplePosition tk + pulseSamples)) true 0
         (s_avgTickPeriodUs a) tk
  | STOP =>
      mk false 0 false (s_lastTickMicros a) (s_avgTickPeriodUs a)
         (TimeKeeper.setTransportState TimeKeeper.STOPPED (timeline a))
  | CONTINUE =>
      mk (ledPin a) (s_ledOffSample a) true (s_lastTickMicros a)
         (s_avgTickPeriodUs a)
         (TimeKeeper.setTransportState TimeKeeper.PLAYING (timeline a))
  end.

(** One iteration of the loop of [processClockTicks], for the timestamp the
    queue handed out. *)
Definition processClockTick (clockMicros : Z) (a : t) : t :=
  if negb (s_transportActive a) then a
  else
    let a1 :=
      if 0 <? s_lastTickMicros a then
        let tickPeriod := u32 (clockMicros - s_lastTickMicros a) in
        if (10000 <=? tickPeriod) && (tickPeriod <=? 50000) then
          let avg := u32 (u32 (s_avgTickPeriodUs a * 9) + tickPeriod) / 10 in
          mk (ledPin a) (s_ledOffSample a) (s_transportActive a)
             (s_lastTickMicros a) avg
             (TimeKeeper.syncToMIDIClock avg (timeline a))
        else a
      else a in
    mk (ledPin a1) (s_ledOffSample a1) (s_transportActive a1) clockMicros
       (s_avgTickPeriodUs a1) (TimeKeeper.incrementTick (timeline a1)).

(** [processClockTicks]: the loop over the 256-slot clock queue. *)
Fixpoint processClockTicks (fuel : nat) (clockMicros : Z) (q : SPSC.t) (a : t)
  : SPSC.t * t :=
  match fuel with
  | O => (q, a)
  | S fuel' =>
      let '(ok, clockMicros, q1) := SPSC.pop 256 clockMicros q in
      if ok then processClockTicks fuel' clockMicros q1 (processClockTick clockMicros a)
      else (q1, a)
  end.

Definition updateBeatLed (a : t) : t :=
  let currentSample := TimeKeeper.getSamplePosition (timeline a) in
  let '(flag, tk) := TimeKeeper.pollBeatFlag (timeline a) in
  let a1 :=
    if flag then
      let spb := TimeKeeper.getSamplesPerBeat tk in
      let pulseSamples := u32 (spb * 2) / 24 in
      mk true (u64 (currentSample + pulseSamples)) (s_transportActive a)
         (s_lastTickMicros a) (s_avgTickPeriodUs a) tk
    else set_timeline tk a in
  if (0 <? s_ledOffSample a1) && (s_ledOffSample a1 <=? currentSample)
  then mk false 0 (s_transportActive a1) (s_lastTickMicros a1)
          (s_avgTickPeriodUs a1) (timeline a1)
  else a1.

(** What the tempo tracking keeps: the estimate inside the gate, the
    timeline well formed with its tick in range. *)
Definition tempo_ok (a : t) : Prop :=
  10000 <= s_avgTickPeriodUs a <= 50000 /\
  TimeKeeper.wf (timeline a) /\ TimeKeeper.s_tickInBeat (timeline a) < 24.

End AppLogic.

(** Whether a computed wait is the given number of samples. *)
Definition returns (r : option Z) (v : Z) : bool :=
  match r with
  | Some x => x =? v
  | None => false
  end.

(** ** The quantized-onset scenario

    A CHOKE press at sample 1000 of a timeline running at 22050 samples per
    beat, with the default grid and lookahead and the onset mode set to
    quantized. *)

Definition scenario_timeline (tick : Z) : TimeKeeper.t :=
  TimeKeeper.mk 1000 0 tick 22050 TimeKeeper.PLAYING false.

Definition scenario_press : Command := mkCommand EFFECT_ENABLE ID_CHOKE 0 0 0.

Definition scenario_choke {F : Float32} : Choke.t :=
  Choke.setOnsetMode QUANTIZED Choke.initial.

(** ** A test signal: the samples 1, 2, ..., 128 on both channels. *)

Definition rampBlock : block := map Z.of_nat (seq 1 (Z.to_nat AUDIO_BLOCK_SAMPLES)).

Definition rampIO : BlockIO := mkIO (Some rampBlock) (Some rampBlock) true true.

(** * Theorems *)

(** ** Word arithmetic *)

Lemma u32_range x : is_u32 (u32 x).
Proof. unfold is_u32, u32. apply Z.mod_pos_bound. lia. Qed.

Lemma u64_range x : is_u64 (u64 x).
Proof. unfold is_u64, u64. apply Z.mod_pos_bound. lia. Qed.

Lemma u32_small x : is_u32 x -> u32 x = x.
Proof. unfold is_u32, u32. intros H. apply Z.mod_small. lia. Qed.

Lemma u64_small x : is_u64 x -> u64 x = x.
Proof. unfold is_u64, u64. intros H. apply Z.mod_small. lia. Qed.

(** ** TimeKeeper *)

Section TimeKeeperFacts.
Import TimeKeeper.

Lemma sync_spb_cases p tk :
  let spb := u32 (u64 (u64 (p * MIDI_PPQN) * SAMPLE_RATE) / 1000000) in
  (8000 <= spb <= 100000 /\ syncToMIDIClock p tk = setSamplesPerBeat spb tk) \/
  (~ 8000 <= spb <= 100000 /\ syncToMIDIClock p tk = tk).
Proof.
  intros spb. unfold syncToMIDIClock. fold spb.
  destruct (8000 <=? spb) eqn:Hlo; destruct (spb <=? 100000) eqn:Hhi; simpl;
    [left | right | right | right]; split; auto; lia.
Qed.

(** No narrowing happens while the exact quotient fits 32 bits. *)
Lemma sync_exact_when_small p :
  is_u32 p -> exactSamplesPerBeat p < 2 ^ 32 ->
  u32 (u64 (u64 (p * MIDI_PPQN) * SAMPLE_RATE) / 1000000) = exactSamplesPerBeat p.
Proof.
  unfold is_u32, exactSamplesPerBeat, MIDI_PPQN, SAMPLE_RATE. intros Hp Hq.
  rewrite (u64_small (p * 24)) by (unfold is_u64; lia).
  rewrite u64_small by (unfold is_u64; lia).
  apply u32_small. unfold is_u32. split; [|exact Hq].
  apply Z.div_pos; lia.
Qed.

(** For every period whose exact quotient fits 32 bits the call stores the
    quotient when it lies in [8000, 100000] and changes nothing otherwise. *)
Lemma sync_accepts_or_rejects p tk :
  is_u32 p -> exactSamplesPerBeat p < 2 ^ 32 ->
  syncToMIDIClock p tk =
    if (8000 <=? exactSamplesPerBeat p) && (exactSamplesPerBeat p <=? 100000)
    then setSamplesPerBeat (exactSamplesPerBeat p) tk else tk.
Proof.
  intros Hp Hq. unfold syncToMIDIClock.
  rewrite (sync_exact_when_small p Hp Hq). reflexivity.
Qed.

(** Whatever the period, a sync that changes [samplesPerBeat] leaves it in
    [8000, 100000]. *)
Lemma sync_range p tk :
  syncToMIDIClock p tk = tk \/
  8000 <= s_samplesPerBeat (syncToMIDIClock p tk) <= 100000.
Proof.
  destruct (sync_spb_cases p tk) as [[Hr ->] | [_ ->]]; [right | left]; auto.
Qed.

(** C1, at the failing input. A tick period of 4057988753 microseconds has
    the exact quotient 4294975296, outside [8000, 100000], so the sync has
    to be rejected; the quotient is narrowed to 32 bits first, becomes
    8000, and the call stores it. *)
Theorem C1_sync_narrowing_accepts_absurd_period :
  is_u32 4057988753 /\
  exactSamplesPerBeat 4057988753 = 4294975296 /\
  ~ (8000 <= exactSamplesPerBeat 4057988753 <= 100000) /\
  s_samplesPerBeat initial = 22050 /\
  s_samplesPerBeat (syncToMIDIClock 4057988753 initial) = 8000.
Proof.
  unfold is_u32. repeat split; try (vm_compute; congruence).
  intros [_ H]. vm_compute in H. congruence.
Qed.

(** *** The tick counter *)

Lemma incrementTick_next tk :
  wf tk -> s_tickInBeat tk < 24 ->
  incrementTick tk =
    if s_tickInBeat tk =? 23
    then mk (s_samplePosition tk) (u32 (s_beatNumber tk + 1)) 0
            (s_samplesPerBeat tk) (s_transportState tk) true
    else mk (s_samplePosition tk) (s_beatNumber tk) (s_tickInBeat tk + 1)
            (s_samplesPerBeat tk) (s_transportState tk) (s_beatFlag tk).
Proof.
  intros (_ & _ & Ht & _) Hlt. unfold incrementTick, MIDI_PPQN.
  rewrite u32_small by (unfold is_u32 in *; lia).
  destruct (Z.leb_spec 24 (s_tickInBeat tk + 1));
    destruct (Z.eqb_spec (s_tickInBeat tk) 23); try lia; reflexivity.
Qed.

Lemma incrementTick_wf tk :
  wf tk -> s_tickInBeat tk < 24 ->
  wf (incrementTick tk) /\ s_tickInBeat (incrementTick tk) < 24.
Proof.
  intros Hwf Hlt. rewrite (incrementTick_next tk Hwf Hlt).
  destruct Hwf as (Hp & Hb & Ht & Hs). unfold wf.
  pose proof (u32_range (s_beatNumber tk + 1)) as Hn.
  unfold is_u32, is_u64 in *.
  destruct (Z.eqb_spec (s_tickInBeat tk) 23); simpl; lia.
Qed.

Lemma u32_succ_u32 x : u32 (u32 x + 1) = u32 (x + 1).
Proof. unfold u32. apply Zplus_mod_idemp_l. Qed.

(** [n] calls move the pair (beat, tick) like a mixed-radix counter. *)
Lemma iter_incrementTick n tk :
  wf tk -> s_tickInBeat tk < 24 ->
  let tk' := Nat.iter n incrementTick tk in
  (wf tk' /\ s_tickInBeat tk' < 24) /\
  s_tickInBeat tk' = (s_tickInBeat tk + Z.of_nat n) mod 24 /\
  s_beatNumber tk' = u32 (s_beatNumber tk + (s_tickInBeat tk + Z.of_nat n) / 24).
Proof.
  intros Hwf Hlt. induction n as [|n IH].
  - simpl. pose proof Hwf as (_ & Hb & Ht & _). unfold is_u32 in *.
    rewrite Z.add_0_r, Z.mod_small, Z.div_small, Z.add_0_r by lia.
    rewrite u32_small by exact Hb. auto.
  - cbn zeta in *. rewrite Nat.iter_succ.
    destruct IH as ((Hwf' & Hlt') & Htick & Hbeat).
    set (cur := Nat.iter n incrementTick tk) in *.
    split; [apply incrementTick_wf; assumption|].
    rewrite (incrementTick_next cur Hwf' Hlt').
    pose proof Hwf as (_ & _ & Ht & _). unfold is_u32 in Ht.
    rewrite Nat2Z.inj_succ.
    destruct (Z.eqb_spec (s_tickInBeat cur) 23) as [E|E]; simpl.
    + rewrite Hbeat, u32_succ_u32. rewrite Htick in E.
      split; [symmetry|f_equal]; Z.div_mod_to_equations; lia.
    + rewrite Hbeat, Htick. rewrite Htick in E, Hlt'.
      split; [|f_equal]; Z.div_mod_to_equations; lia.
Qed.

(** The tick range is an invariant of the public operations. *)
Lemma reachable_wf tk : reachable tk -> wf tk /\ s_tickInBeat tk < 24.
Proof.
  induction 1 as [| tk _ IH | n tk Hn _ IH | p tk Hp _ IH | n tk Hn _ IH
                  | tk _ IH | st tk _ IH | tk _ IH].
  - unfold wf, is_u64, is_u32. vm_compute. intuition congruence.
  - destruct IH as ((Hp & Hb & Ht & Hs) & Hlt). unfold wf, is_u64, is_u32.
    vm_compute. intuition congruence.
  - destruct IH as ((Hp & Hb & Ht & Hs) & Hlt). unfold wf. simpl.
    auto using u64_range.
  - destruct (sync_spb_cases p tk) as [[Hr ->] | [_ ->]]; [|exact IH].
    destruct IH as ((Hq & Hb & Ht & Hs) & Hlt). unfold wf. simpl.
    auto using u32_range.
  - destruct IH as ((Hq & Hb & Ht & Hs) & Hlt). unfold wf. simpl. auto.
  - destruct IH. apply incrementTick_wf; assumption.
  - exact IH.
  - exact IH.
Qed.

(** C2, at the wrap of the beat counter. From beat 4294967295 and tick 23
    one call takes the beat number back to 0: it is neither one more than
    before nor at least what it was, and 24 calls from there do not leave
    it one higher either. *)
Lemma C2_beat_counter_wraps :
  let tk := mk 0 4294967295 23 22050 STOPPED false in
  wf tk /\ 0 <= s_tickInBeat tk < 24 /\
  s_beatNumber (incrementTick tk) = 0 /\
  ~ (s_beatNumber tk <= s_beatNumber (incrementTick tk)) /\
  s_beatNumber (Nat.iter 24 incrementTick tk) <> s_beatNumber tk + 1.
Proof.
  cbn zeta. unfold wf, is_u64, is_u32.
  repeat split; vm_compute; congruence.
Qed.

(** C2, amended. In every state with 0 <= tickInBeat < 24, one call of
    [incrementTick] increments the tick; when it reaches 24 the tick goes
    to 0, the beat number becomes (beatNumber + 1) mod 2^32 and the beat
    flag is set. The tick range is preserved; 24 calls bring the tick back
    to where it was and the beat number to (beatNumber + 1) mod 2^32; and
    while beatNumber < 2^32 - 1 the beat number does not decrease and the
    24 calls advance it by exactly 1. *)
Theorem C2_incrementTick_modular tk :
  wf tk -> 0 <= s_tickInBeat tk < 24 ->
  let tk1 := incrementTick tk in
  let tk24 := Nat.iter 24 incrementTick tk in
  (s_tickInBeat tk + 1 < 24 ->
     s_tickInBeat tk1 = s_tickInBeat tk + 1 /\
     s_beatNumber tk1 = s_beatNumber tk /\
     s_beatFlag tk1 = s_beatFlag tk) /\
  (s_tickInBeat tk + 1 = 24 ->
     s_tickInBeat tk1 = 0 /\
     s_beatNumber tk1 = (s_beatNumber tk + 1) mod 2 ^ 32 /\
     s_beatFlag tk1 = true) /\
  0 <= s_tickInBeat tk1 < 24 /\
  (s_beatNumber tk < 2 ^ 32 - 1 -> s_beatNumber tk <= s_beatNumber tk1) /\
  s_tickInBeat tk24 = s_tickInBeat tk /\
  s_beatNumber tk24 = (s_beatNumber tk + 1) mod 2 ^ 32 /\
  (s_beatNumber tk < 2 ^ 32 - 1 -> s_beatNumber tk24 = s_beatNumber tk + 1).
Proof.
  intros Hwf [Hlo Hlt]. cbn zeta.
  pose proof Hwf as (_ & Hb & Ht & _). unfold is_u32 in Hb, Ht.
  rewrite (incrementTick_next tk Hwf Hlt).
  destruct (iter_incrementTick 24 tk Hwf Hlt) as (_ & Htick & Hbeat).
  rewrite Htick, Hbeat. change (Z.of_nat 24) with 24.
  assert (Hq : (s_tickInBeat tk + 24) / 24 = 1)
    by (Z.div_mod_to_equations; lia).
  assert (Hm : (s_tickInBeat tk + 24) mod 24 = s_tickInBeat tk)
    by (Z.div_mod_to_equations; lia).
  rewrite Hq, Hm. unfold u32.
  destruct (Z.eqb_spec (s_tickInBeat tk) 23) as [E|E]; simpl;
    repeat split; intros; try lia; try reflexivity;
    try (rewrite Z.mod_small by lia; lia).
Qed.

Lemma C2_incrementTick_modular_witness :
  wf initial /\ 0 <= s_tickInBeat initial < 24 /\
  s_tickInBeat (Nat.iter 24 incrementTick initial) = s_tickInBeat initial /\
  s_beatNumber (Nat.iter 24 incrementTick initial) = (s_beatNumber initial + 1) mod 2 ^ 32.
Proof.
  assert (Hwf : wf initial)
    by (unfold wf, is_u64, is_u32; vm_compute; intuition congruence).
  assert (Ht : 0 <= s_tickInBeat initial < 24) by (simpl; lia).
  split; [exact Hwf|]. split; [exact Ht|].
  destruct (C2_incrementTick_modular initial Hwf Ht)
    as (_ & _ & _ & _ & H5 & H6 & _).
  split; [exact H5 | exact H6].
Defined.

(** *** Distance to the next beat *)

(** C3. For every sample position and every samplesPerBeat above 16,
    [samplesToNextBeat] returns 0 exactly when samplePosition mod spb <= 16
    and spb - (samplePosition mod spb) otherwise. *)
Theorem C3_samplesToNextBeat_tolerance tk :
  wf tk -> 16 < s_samplesPerBeat tk ->
  let r := s_samplePosition tk mod s_samplesPerBeat tk in
  samplesToNextBeat tk =
    Some (if r <=? 16 then 0 else s_samplesPerBeat tk - r) /\
  (samplesToNextBeat tk = Some 0 <-> r <= 16).
Proof.
  intros (Hp & _ & _ & Hs) Hspb r. unfold is_u64, is_u32 in *.
  assert (Hr : 0 <= r < s_samplesPerBeat tk)
    by (apply Z.mod_pos_bound; lia).
  assert (E : samplesToNextBeat tk =
              Some (if r <=? 16 then 0 else s_samplesPerBeat tk - r)).
  { unfold samplesToNextBeat, getSamplePosition, getSamplesPerBeat.
    destruct (Z.eqb_spec (s_samplesPerBeat tk) 0); [lia|]. fold r.
    rewrite (u32_small r) by (unfold is_u32; lia).
    rewrite u32_small by (unfold is_u32; lia).
    destruct (r <=? 16); reflexivity. }
  split; [exact E|]. rewrite E.
  destruct (Z.leb_spec r 16); split; intros Hc; try lia; try reflexivity.
  inversion Hc. lia.
Qed.

Lemma C3_samplesToNextBeat_tolerance_witness :
  wf (mk 22066 0 0 22050 STOPPED false) /\
  samplesToNextBeat (mk 22066 0 0 22050 STOPPED false) = Some 0 /\
  samplesToNextBeat (mk 22067 0 0 22050 STOPPED false) = Some 22033.
Proof.
  assert (Hwf : forall p, 0 <= p < 100000 -> wf (mk p 0 0 22050 STOPPED false))
    by (intros p Hp; unfold wf, is_u64, is_u32; simpl; lia).
  split; [apply Hwf; lia|]. split.
  - exact (proj1 (C3_samplesToNextBeat_tolerance
                    (mk 22066 0 0 22050 STOPPED false)
                    (Hwf 22066 ltac:(lia)) ltac:(simpl; lia))).
  - exact (proj1 (C3_samplesToNextBeat_tolerance
                    (mk 22067 0 0 22050 STOPPED false)
                    (Hwf 22067 ltac:(lia)) ltac:(simpl; lia))).
Defined.

(** *** Distance to the next subdivision *)

Lemma elapsed_bounds tk :
  wf tk -> s_tickInBeat tk < 24 -> 24 <= s_samplesPerBeat tk ->
  samplesElapsedInBeat tk = s_tickInBeat tk * (s_samplesPerBeat tk / 24) /\
  0 <= samplesElapsedInBeat tk < s_samplesPerBeat tk.
Proof.
  intros (_ & _ & Ht & Hs) Hlt Hspb. unfold is_u32 in *.
  unfold samplesElapsedInBeat, getTickInBeat, getSamplesPerBeat, MIDI_PPQN.
  assert (Hq : 0 < s_samplesPerBeat tk / 24 /\
               24 * (s_samplesPerBeat tk / 24) <= s_samplesPerBeat tk)
    by (Z.div_mod_to_equations; lia).
  assert (Hb : 0 <= s_tickInBeat tk * (s_samplesPerBeat tk / 24)
               < s_samplesPerBeat tk) by nia.
  rewrite u32_small by (unfold is_u32; lia). auto.
Qed.

Lemma u32_sub_u32 x y : u32 (u32 x - y) = u32 (x - y).
Proof. unfold u32. apply Zminus_mod_idemp_l. Qed.



End TimeKeeperFacts.

(** ** Quantized boundaries *)

Section QuantizationFacts.
Import TimeKeeper EffectQuantization.





End QuantizationFacts.

(** ** CHOKE engine and controller *)

Section ChokeFacts.
Context {F : Float32}.
Import Choke.

Lemma rampChannel_control b inc s : same_control (fst (rampChannel b inc s)) s.
Proof.
  unfold rampChannel, same_control. destruct b as [data|]; simpl; auto 10.
  destruct (applyGainRamp data inc (m_currentGain s)); simpl; auto 10.
Qed.

Lemma update_control c io s :
  same_control (fst (update c io s)) (checkRelease c (checkOnset c s)).
Proof.
  unfold update. set (s1 := checkRelease c (checkOnset c s)).
  set (inc := f_div (f_sub (m_targetGain s1) (m_currentGain s1)) FADE_SAMPLES).
  pose proof (rampChannel_control (in0 io) inc s1) as H1.
  destruct (rampChannel (in0 io) inc s1) as [s2 outL]. simpl in H1.
  pose proof (rampChannel_control (in1 io) inc s2) as H2.
  destruct (rampChannel (in1 io) inc s2) as [s3 outR]. simpl in *.
  unfold same_control in *. intuition congruence.
Qed.

Lemma inBlock_spec at_ c :
  0 <= c -> c + 128 < 2 ^ 64 ->
  inBlock at_ c = true <-> 0 < at_ /\ c <= at_ < c + 128.
Proof.
  intros Hc Hend. unfold inBlock, AUDIO_BLOCK_SAMPLES.
  rewrite u64_small by (unfold is_u64; lia).
  rewrite !andb_true_iff, Z.ltb_lt, Z.leb_le, Z.ltb_lt. lia.
Qed.

End ChokeFacts.

Section ChokeScenario.
Context {F : Float32}.
Import Choke.

(** C4, as stated. At 22050 samples per beat one tick stands for 918
    samples, so the tick-derived position is a multiple of 918 and never
    1000: at no tick does [samplesToNextSubdivision 5512] return 4512. A
    press at sample 1000 during tick 1 waits 4594 samples and is scheduled
    at sample 5466, not 5384. *)
Lemma C4_wait_is_never_4512 :
  forallb (fun t => negb (returns
             (TimeKeeper.samplesToNextSubdivision 5512
                (scenario_timeline (Z.of_nat t)))
             4512))
          (seq 0 24) = true /\
  TimeKeeper.s_samplePosition (scenario_timeline 1) = 1000 /\
  TimeKeeper.samplesToNextSubdivision 5512 (scenario_timeline 1) = Some 4594 /\
  ChokeController.quantizedOnsetSample EffectQuantization.initialize
    (scenario_timeline 1) = Some 5466.
Proof. repeat split; vm_compute; reflexivity. Qed.

Lemma tick_cases t :
  0 <= t < 24 -> In t (map Z.of_nat (seq 0 24)).
Proof.
  intros Ht. apply in_map_iff. exists (Z.to_nat t).
  split; [lia | apply in_seq; lia].
Qed.

(** C4, amended. With 22050 samples per beat, the 1/16 grid (5512 samples)
    and lookahead 128, a quantized-onset CHOKE press at sample 1000 during
    tick 1 (918 tick-derived samples into the beat) gets 4594 from
    [samplesToNextSubdivision 5512], waits 4594 - 128 = 4466 samples and
    is scheduled at sample 5466; the choke stays open in every earlier
    block and engages in the block that contains sample 5466. At tick t
    the wait is the distance from 918 t to the next multiple of 5512,
    capped at the beat length. *)
Theorem C4_choke_quantized_onset_on_tick_grid (c : Z) (io : BlockIO) :
  0 <= c -> c <= 5466 < c + 128 ->
  EffectQuantization.calculateQuantizedDuration
    (EffectQuantization.getGlobalQuantization EffectQuantization.initialize)
    (scenario_timeline 1) = 5512 /\
  TimeKeeper.samplesToNextSubdivision 5512 (scenario_timeline 1) = Some 4594 /\
  (forall t, 0 <= t < 24 ->
     TimeKeeper.samplesToNextSubdivision 5512 (scenario_timeline t) =
       Some (Z.min 22050 ((918 * t / 5512 + 1) * 5512) - 918 * t)) /\
  exists s1,
    ChokeController.handleButtonPress EffectQuantization.initialize
      (scenario_timeline 1) scenario_press scenario_choke = Some (true, s1) /\
    m_onsetAtSample s1 = 1000 + (4594 - 128) /\
    m_onsetAtSample s1 = 5466 /\
    m_isEnabled s1 = false /\
    (forall c' io', 0 <= c' -> c' + 128 <= 5466 ->
       m_isEnabled (fst (update c' io' s1)) = false /\
       m_onsetAtSample (fst (update c' io' s1)) = 5466) /\
    m_isEnabled (fst (update c io s1)) = true /\
    m_targetGain (fst (update c io s1)) = f_zero /\
    m_onsetAtSample (fst (update c io s1)) = 0.
Proof.
  intros Hc Hin. split; [reflexivity|]. split; [reflexivity|]. split.
  { intros t Ht. apply tick_cases in Ht. simpl in Ht.
    repeat (destruct Ht as [<- | Ht]; [vm_compute; reflexivity|]).
    destruct Ht. }
  exists (scheduleOnset 5466 scenario_choke).
  split; [reflexivity|]. split; [reflexivity|]. split; [reflexivity|].
  split; [reflexivity|].
  set (s1 := scheduleOnset 5466 scenario_choke).
  assert (Hrel : m_releaseAtSample s1 = 0) by reflexivity.
  assert (Hons : m_onsetAtSample s1 = 5466) by reflexivity.
  assert (Hdis : m_isEnabled s1 = false) by reflexivity.
  assert (Hnone : forall x, inBlock 0 x = false) by reflexivity.
  clearbody s1.
  assert (Hon : forall x, 0 <= x -> x + 128 < 2 ^ 64 ->
            inBlock 5466 x = true <-> x <= 5466 < x + 128)
    by (intros x H0 H1; rewrite (inBlock_spec 5466 x H0 H1); lia).
  split.
  - intros c' io' Hc' Hbefore.
    destruct (update_control c' io' s1) as (_ & He & _ & _ & _ & Ho).
    rewrite He, Ho. unfold checkOnset. rewrite Hons.
    destruct (inBlock 5466 c') eqn:E; [apply Hon in E; lia|].
    unfold checkRelease. rewrite Hrel, Hnone. auto.
  - destruct (update_control c io s1) as (Hg & He & _ & _ & _ & Ho).
    rewrite He, Hg, Ho. unfold checkOnset. rewrite Hons.
    assert (E : inBlock 5466 c = true) by (apply Hon; lia).
    rewrite E. unfold checkRelease. simpl. rewrite Hrel, Hnone.
    simpl. auto.
Qed.

End ChokeScenario.

Lemma C4_choke_quantized_onset_on_tick_grid_witness :
  let io := mkIO (Some (replicate 128 1000)) (Some (replicate 128 (-1000))) true true in
  let s1 := Choke.scheduleOnset 5466 (scenario_choke (F := ExactGain)) in
  0 <= 5376 /\ 5376 <= 5466 < 5376 + 128 /\
  Choke.m_isEnabled (fst (Choke.update 5376 io s1)) = true.
Proof.
  split; [lia|]. split; [lia|].
  destruct (C4_choke_quantized_onset_on_tick_grid (F := ExactGain) 5376
              (mkIO (Some (replicate 128 1000)) (Some (replicate 128 (-1000))) true true)
              ltac:(lia) ltac:(lia))
    as (_ & _ & _ & s1 & Hs1 & _ & _ & _ & _ & Hen & _).
  vm_compute in Hs1. injection Hs1 as <-. exact Hen.
Defined.

(** ** ENABLE and TOGGLE on CHOKE and FREEZE *)

Section ChokeIdempotence.
Context {F : Float32}.
Import Choke.

Lemma coherent_same_control a b : same_control a b -> coherent b -> coherent a.
Proof. unfold same_control, coherent. intros (-> & -> & _) H. exact H. Qed.

Lemma checkOnset_coherent c s : coherent s -> coherent (checkOnset c s).
Proof. unfold checkOnset. destruct (inBlock _ _); [reflexivity | auto]. Qed.

Lemma checkRelease_coherent c s : coherent s -> coherent (checkRelease c s).
Proof. unfold checkRelease. destruct (inBlock _ _); [reflexivity | auto]. Qed.

Lemma step_coherent o s : coherent s -> coherent (step o s).
Proof.
  intros H. destruct o; simpl; try exact H; try reflexivity.
  - unfold choke_toggle. destruct (choke_isEnabled s); reflexivity.
  - eapply coherent_same_control; [apply update_control|].
    apply checkRelease_coherent, checkOnset_coherent, H.
Qed.

Lemma run_coherent ops : forall s, coherent s -> coherent (run ops s).
Proof.
  unfold run. induction ops as [|o ops IH]; intros s H; simpl; [exact H|].
  apply IH, step_coherent, H.
Qed.

Lemma choke_enable_when_enabled s :
  coherent s -> choke_isEnabled s = true -> choke_enable s = s.
Proof.
  unfold coherent, choke_isEnabled, choke_enable, set_target.
  destruct s; simpl. intros -> ->. reflexivity.
Qed.

Lemma choke_toggle_twice s : coherent s -> choke_toggle (choke_toggle s) = s.
Proof.
  unfold coherent, choke_toggle, choke_isEnabled.
  destruct s as [g tg en lm ra om oa]; simpl. intros ->.
  destruct en; reflexivity.
Qed.

End ChokeIdempotence.

Section FreezeIdempotence.
Import Freeze.

Ltac obs := unfold obs_eq in *; simpl in *; intuition congruence.

Lemma obs_eq_refl s : obs_eq s s.
Proof. obs. Qed.

Lemma obs_eq_frozen a b : obs_eq a b -> m_isEnabled a = true -> a = b.
Proof.
  destruct a, b. unfold obs_eq. simpl. intros H E.
  destruct H as (-> & -> & -> & -> & -> & -> & -> & -> & H).
  rewrite (H E). reflexivity.
Qed.

Lemma writeSample_obs l r a b :
  obs_eq a b -> obs_eq (writeSample l r a) (writeSample l r b).
Proof.
  intros (H1 & H2 & H3 & H4 & H5 & H6 & H7 & H8 & H9).
  unfold obs_eq, writeSample. cbn [m_freezeBufferL m_freezeBufferR m_writePos
    m_readPos m_isEnabled m_lengthMode m_releaseAtSample m_onsetMode
    m_onsetAtSample].
  rewrite H1, H2, H3. auto 10.
Qed.

Lemma recordLoop_obs n : forall i dl dr a b,
  obs_eq a b -> obs_eq (recordLoop n i dl dr a) (recordLoop n i dl dr b).
Proof.
  induction n as [|n IH]; intros i dl dr a b H; simpl; [exact H|].
  apply IH, writeSample_obs, H.
Qed.

Lemma checkOnset_obs c a b : obs_eq a b -> obs_eq (checkOnset c a) (checkOnset c b).
Proof.
  intros H. unfold checkOnset.
  replace (m_onsetAtSample b) with (m_onsetAtSample a) by obs.
  destruct (inBlock _ _); [|exact H]. obs.
Qed.

Lemma checkRelease_obs c a b : obs_eq a b -> obs_eq (checkRelease c a) (checkRelease c b).
Proof.
  intros H. unfold checkRelease.
  replace (m_releaseAtSample b) with (m_releaseAtSample a) by obs.
  destruct (inBlock _ _); [|exact H]. obs.
Qed.

Lemma update_obs c io a b :
  obs_eq a b ->
  obs_eq (fst (update c io a)) (fst (update c io b)) /\
  snd (update c io a) = snd (update c io b).
Proof.
  intros H. unfold update.
  pose proof (checkRelease_obs c _ _ (checkOnset_obs c a b H)) as H1.
  set (a1 := checkRelease c (checkOnset c a)) in *.
  set (b1 := checkRelease c (checkOnset c b)) in *.
  destruct (m_isEnabled a1) eqn:E.
  - rewrite <- (obs_eq_frozen a1 b1 H1 E), E. split; [apply obs_eq_refl | reflexivity].
  - replace (m_isEnabled b1) with false by obs. cbn [negb].
    destruct (in0 io), (in1 io); cbn [fst snd]; (split; [|reflexivity]);
      try assumption. apply recordLoop_obs, H1.
Qed.

Lemma step_obs o a b :
  obs_eq a b ->
  obs_eq (fst (step o a)) (fst (step o b)) /\ snd (step o a) = snd (step o b).
Proof.
  intros H. destruct o; simpl; try (split; [obs | reflexivity]).
  - unfold freeze_toggle, freeze_isEnabled.
    replace (m_isEnabled b) with (m_isEnabled a) by obs.
    destruct (m_isEnabled a); simpl; split; try reflexivity; obs.
  - apply update_obs, H.
Qed.

(** Observably equal states transmit the same blocks whatever follows. *)
Lemma run_obs ops : forall a b,
  obs_eq a b ->
  obs_eq (fst (run ops a)) (fst (run ops b)) /\ snd (run ops a) = snd (run ops b).
Proof.
  induction ops as [|o ops IH]; intros a b H; simpl; [auto|].
  destruct (step_obs o a b H) as (H1 & H2).
  destruct (step o a) as [a1 oa], (step o b) as [b1 ob]. simpl in *.
  destruct (IH a1 b1 H1) as (H3 & H4).
  destruct (run ops a1), (run ops b1). simpl in *. subst. auto.
Qed.

Lemma freeze_enable_when_enabled s :
  freeze_isEnabled s = true -> freeze_enable s = set_readPos (m_writePos s) s.
Proof.
  unfold freeze_isEnabled, freeze_enable, set_enabled, set_readPos.
  destruct s; simpl. intros ->. reflexivity.
Qed.

Lemma freeze_toggle_twice_enabled s :
  freeze_isEnabled s = true ->
  freeze_toggle (freeze_toggle s) = set_readPos (m_writePos s) s.
Proof.
  unfold freeze_toggle, freeze_isEnabled. destruct s; simpl. intros ->.
  reflexivity.
Qed.

Lemma freeze_toggle_twice_disabled s :
  freeze_isEnabled s = false -> obs_eq (freeze_toggle (freeze_toggle s)) s.
Proof.
  unfold freeze_toggle, freeze_isEnabled. destruct s; simpl. intros ->.
  simpl. obs.
Qed.

End FreezeIdempotence.

Section EnableToggle.
Context {F : Float32}.

(** C8, as stated, on the FREEZE engine. Record one block, engage, play one
    block: the engine is enabled with its read position at 124 and its
    write position at 128. A second ENABLE, or two TOGGLEs, move the read
    position back to 128, and the next block transmitted is a different
    one. *)
Lemma C8_freeze_enable_restarts_loop :
  let s := fst (Freeze.run [Freeze.OpUpdate 0 rampIO; Freeze.OpEnable;
                            Freeze.OpUpdate 128 rampIO] Freeze.initial) in
  Freeze.freeze_isEnabled s = true /\
  Freeze.m_readPos s = 124 /\ Freeze.m_readPos (Freeze.freeze_enable s) = 128 /\
  snd (Freeze.update 256 rampIO (Freeze.freeze_enable s))
    <> snd (Freeze.update 256 rampIO s) /\
  snd (Freeze.update 256 rampIO (Freeze.freeze_toggle (Freeze.freeze_toggle s)))
    <> snd (Freeze.update 256 rampIO s).
Proof.
  cbn zeta. repeat split; try (vm_compute; reflexivity);
    intros H; vm_compute in H; congruence.
Qed.

(** C8, amended. CHOKE, in every state its operations reach: ENABLE when
    enabled leaves the state unchanged, and two TOGGLEs restore the state.
    FREEZE, in any state: ENABLE when enabled changes the read position
    only, setting it to the write position; two TOGGLEs from a disabled
    engine give a state with the same audio output under every later
    sequence of operations; two TOGGLEs from an enabled engine restore
    everything but the read position, which is set to the write
    position. *)
Theorem C8_enable_and_toggle :
  (forall ops,
     let s := Choke.run ops Choke.initial in
     (Choke.choke_isEnabled s = true -> Choke.choke_enable s = s) /\
     Choke.choke_toggle (Choke.choke_toggle s) = s) /\
  (forall s : Freeze.t,
     (Freeze.freeze_isEnabled s = true ->
        Freeze.freeze_enable s = Freeze.set_readPos (Freeze.m_writePos s) s /\
        Freeze.freeze_toggle (Freeze.freeze_toggle s) =
          Freeze.set_readPos (Freeze.m_writePos s) s) /\
     (Freeze.freeze_isEnabled s = false ->
        Freeze.obs_eq (Freeze.freeze_toggle (Freeze.freeze_toggle s)) s /\
        forall ops,
          snd (Freeze.run ops (Freeze.freeze_toggle (Freeze.freeze_toggle s))) =
          snd (Freeze.run ops s))).
Proof.
  split.
  - intros ops s.
    assert (Hc : Choke.coherent s) by (apply run_coherent; reflexivity).
    split.
    + apply choke_enable_when_enabled, Hc.
    + apply choke_toggle_twice, Hc.
  - intros s. split; intros E.
    + split; [apply freeze_enable_when_enabled | apply freeze_toggle_twice_enabled];
        exact E.
    + pose proof (freeze_toggle_twice_disabled s E) as H.
      split; [exact H|]. intros ops. apply run_obs, H.
Qed.

End EnableToggle.

(** ** STUTTER engine *)

Section StutterFacts.
Import Stutter.

Lemma buffer_size : 0 < STUTTER_BUFFER_SAMPLES < 2 ^ 32.
Proof. vm_compute. split; reflexivity. Qed.

(** *** The loops of [update] *)

Lemma captureLoop_spec n : forall i dl dr s,
  0 <= m_writePos s <= STUTTER_BUFFER_SAMPLES ->
  let s' := captureLoop n i dl dr s in
  m_writePos s' = Z.min (m_writePos s + Z.of_nat n) STUTTER_BUFFER_SAMPLES /\
  m_readPos s' = m_readPos s /\ m_captureLength s' = m_captureLength s /\
  m_state s' = m_state s /\ m_stutterHeld s' = m_stutterHeld s /\
  m_captureStartAtSample s' = m_captureStartAtSample s /\
  m_captureEndAtSample s' = m_captureEndAtSample s /\
  m_playbackOnsetAtSample s' = m_playbackOnsetAtSample s /\
  m_playbackLengthAtSample s' = m_playbackLengthAtSample s.
Proof.
  pose proof buffer_size as HN.
  induction n as [|n IH]; intros i dl dr s Hw; cbn zeta.
  - simpl. rewrite Z.add_0_r. repeat split; lia.
  - cbn [captureLoop].
    destruct (Z.ltb_spec (m_writePos s) STUTTER_BUFFER_SAMPLES) as [Hlt|Hge].
    + set (s1 := writeSample (dl !!! i) (dr !!! i) s).
      assert (Hw1 : m_writePos s1 = m_writePos s + 1)
        by (unfold s1, writeSample; cbn [m_writePos];
            apply u32_small; unfold is_u32; lia).
      destruct (IH (S i) dl dr s1 ltac:(lia)) as (H1 & H2).
      cbn zeta in *. rewrite H1, Hw1. split; [lia|]. exact H2.
    + repeat split; lia.
Qed.

Lemma playLoop_spec n : forall s,
  0 <= m_readPos s ->
  (m_readPos s = 0 \/ m_readPos s < m_captureLength s) ->
  m_captureLength s < 2 ^ 32 ->
  let s' := fst (playLoop n s) in
  0 <= m_readPos s' /\
  (m_readPos s' = 0 \/ m_readPos s' < m_captureLength s') /\
  m_writePos s' = m_writePos s /\ m_captureLength s' = m_captureLength s /\
  m_state s' = m_state s.
Proof.
  induction n as [|n IH]; intros s H0 Hr Hc; cbn zeta.
  - simpl. auto.
  - cbn [playLoop].
    set (p := u32 (m_readPos s + 1)).
    set (s1 := set_readPos (if m_captureLength s <=? p then 0 else p) s).
    pose proof (u32_range (m_readPos s + 1)) as Hp. fold p in Hp.
    unfold is_u32 in Hp.
    assert (H1 : 0 <= m_readPos s1 /\
                 (m_readPos s1 = 0 \/ m_readPos s1 < m_captureLength s1))
      by (unfold s1; cbn [set_readPos m_readPos m_captureLength];
          destruct (Z.leb_spec (m_captureLength s) p); lia).
    destruct H1 as (H1 & H1').
    destruct (IH s1 H1 H1' Hc) as (A & B & C & D & E).
    destruct (playLoop n s1) as [s2 [ls rs]]. simpl in *. auto.
Qed.

(** *** The invariant *)

Ltac crush :=
  unfold inv in *; simpl in *; intuition (try lia; try congruence).

Lemma initial_inv : inv true initial.
Proof. unfold inv. vm_compute. intuition congruence. Qed.

Lemma inv_weaken b s : inv true s -> inv b s.
Proof. crush. Qed.

Lemma finishCapture_inv b held s : inv b s -> inv b (finishCapture held s).
Proof.
  intros H. unfold finishCapture.
  destruct (Z.ltb_spec 0 (m_writePos s)); [destruct held|]; crush.
Qed.

Lemma checkCaptureStart_inv b c s : inv b s -> inv b (checkCaptureStart c s).
Proof.
  intros H. pose proof buffer_size. unfold checkCaptureStart.
  destruct (due _ _); [|exact H]. crush.
Qed.

Lemma checkCaptureEnd_inv b c s : inv b s -> inv b (checkCaptureEnd c s).
Proof.
  intros H. unfold checkCaptureEnd. destruct (due _ _); [|exact H].
  apply (finishCapture_inv b (m_stutterHeld s)) in H. crush.
Qed.

Lemma checkPlaybackOnset_inv b c s : inv b s -> inv b (checkPlaybackOnset c s).
Proof.
  intros H. unfold checkPlaybackOnset. destruct (due _ _); [|exact H]. crush.
Qed.

Lemma checkPlaybackLength_inv b c s : inv b s -> inv b (checkPlaybackLength c s).
Proof.
  intros H. unfold checkPlaybackLength. destruct (due _ _); [|exact H]. crush.
Qed.

Lemma bufferFull_inv b s :
  inv b s -> m_state s <> IDLE_NO_LOOP -> inv b (bufferFull s).
Proof.
  intros H Hst. unfold bufferFull.
  destruct (Z.leb_spec STUTTER_BUFFER_SAMPLES (m_writePos s)); [|exact H].
  cbv zeta. cbn [set_captureLength m_stutterHeld].
  destruct (m_stutterHeld s); crush.
Qed.

Lemma captureLoop_inv b n i dl dr s :
  inv b s -> inv b (captureLoop n i dl dr s).
Proof.
  intros (H1 & H2 & H3 & H4 & H5).
  destruct (captureLoop_spec n i dl dr s ltac:(lia))
    as (Hw & Hr & Hc & Hs & _).
  unfold inv. rewrite Hw, Hr, Hc, Hs.
  repeat split; auto; lia.
Qed.

Lemma process_inv b io s : inv b s -> inv b (fst (process io s)).
Proof.
  intros H. pose proof buffer_size as HN. unfold process.
  destruct (m_state s) eqn:Hst.
  1, 2, 3, 6: destruct (in0 io), (in1 io); exact H.
  1, 2: destruct (in0 io) as [bl|], (in1 io) as [br|]; cbn [fst]; try exact H;
    (apply bufferFull_inv; [apply captureLoop_inv, H|]);
    destruct (captureLoop_spec (Z.to_nat AUDIO_BLOCK_SAMPLES) 0 bl br s)
      as (_ & _ & _ & Hs & _); try (unfold inv in H; lia);
    cbn zeta in Hs; congruence.
  - (* PLAYING *)
    destruct (alloc0 io && alloc1 io); [|exact H].
    destruct H as (H1 & H2 & H3 & H4 & H5).
    destruct (playLoop_spec (Z.to_nat AUDIO_BLOCK_SAMPLES) s H3 (H4 Hst) ltac:(lia))
      as (A & B & C & D & E).
    destruct (playLoop _ s) as [s1 [outL outR]]. cbn [fst] in *.
    unfold inv. rewrite C, D, E, Hst.
    repeat split; auto; try lia; congruence.
  - (* WAIT_PLAYBACK_LENGTH: the read position is only known to be in
       range of the size type *)
    destruct (alloc0 io && alloc1 io); [|exact H].
    destruct H as (H1 & H2 & H3 & H4 & H5).
    assert (Hgen : forall n t, 0 <= m_readPos t ->
              let t' := fst (playLoop n t) in
              0 <= m_readPos t' /\ m_writePos t' = m_writePos t /\
              m_captureLength t' = m_captureLength t /\ m_state t' = m_state t).
    { induction n as [|n IH]; intros t Ht; cbn zeta; [simpl; auto|].
      cbn [playLoop].
      set (t1 := set_readPos _ t).
      assert (Ht1 : 0 <= m_readPos t1).
      { unfold t1. cbn [set_readPos m_readPos].
        pose proof (u32_range (m_readPos t + 1)) as Hp. unfold is_u32 in Hp.
        destruct (_ <=? _); lia. }
      specialize (IH t1 Ht1). cbn zeta in IH.
      destruct (playLoop n t1) as [t2 [ls rs]]. simpl in *. exact IH. }
    destruct (Hgen (Z.to_nat AUDIO_BLOCK_SAMPLES) s H3) as (A & C & D & E).
    destruct (playLoop _ s) as [s1 [outL outR]]. cbn [fst] in *.
    unfold inv. rewrite C, D, E, Hst.
    repeat split; auto; try lia; intros; discriminate.
Qed.

Lemma update_inv b c io s : inv b s -> inv b (fst (update c io s)).
Proof.
  intros H. unfold update, checkSchedules.
  apply process_inv, checkPlaybackLength_inv, checkPlaybackOnset_inv,
    checkCaptureEnd_inv, checkCaptureStart_inv, H.
Qed.

Lemma step_inv b o s : inv b s -> inv (b && negb (is_cancel o)) (step o s).
Proof.
  intros H. pose proof buffer_size as HN.
  destruct o; cbn [step is_cancel negb];
    try rewrite andb_true_r; try rewrite andb_false_r.
  - crush.
  - crush.
  - unfold stutter_toggle. destruct (stutter_isEnabled s); crush.
  - crush.
  - crush.
  - crush.
  - apply finishCapture_inv, H.
  - crush.
  - crush.
  - crush.
  - crush.
  - crush.
  - crush.
  - crush.
  - crush.
  - crush.
  - apply update_inv, H.
Qed.

Lemma run_inv ops : forall b s,
  inv b s -> inv (b && forallb (fun o => negb (is_cancel o)) ops) (run ops s).
Proof.
  unfold run. induction ops as [|o ops IH]; intros b s H; cbn [foldl forallb].
  - rewrite andb_true_r. exact H.
  - rewrite andb_assoc. apply IH, step_inv, H.
Qed.

(** *** Where a capture ends *)






Lemma checkSchedules_none c s :
  due (m_captureStartAtSample s) c = false ->
  due (m_captureEndAtSample s) c = false ->
  due (m_playbackOnsetAtSample s) c = false ->
  due (m_playbackLengthAtSample s) c = false ->
  checkSchedules c s = s.
Proof.
  intros H1 H2 H3 H4.
  unfold checkSchedules, checkCaptureStart. rewrite H1.
  unfold checkCaptureEnd. rewrite H2.
  unfold checkPlaybackOnset. rewrite H3.
  unfold checkPlaybackLength. rewrite H4. reflexivity.
Qed.




(** C7, as stated. ENABLE on the fresh engine gives PLAYING with read
    position 0 and capture length 0; and capturing one block, ending the
    capture, arming a new capture and cancelling it gives IDLE_NO_LOOP with
    capture length 128. *)
Lemma C7_enable_and_cancel_break_the_invariants :
  let s1 := run [OpEnable] initial in
  let s2 := run [OpStartCapture; OpUpdate 0 rampIO; OpEndCapture false;
                 OpScheduleCaptureStart 5512; OpCancelCaptureStart] initial in
  (reachable s1 /\ ~ read_in_loop s1) /\
  (reachable s2 /\ ~ no_loop_is_empty s2) /\
  m_state s1 = PLAYING /\ m_readPos s1 = 0 /\ m_captureLength s1 = 0 /\
  m_state s2 = IDLE_NO_LOOP /\ m_captureLength s2 = 128.
Proof.
  cbn zeta. split; [|split].
  - split; [eexists; reflexivity|].
    unfold read_in_loop. intros H. specialize (H eq_refl).
    vm_compute in H. discriminate.
  - split; [eexists; reflexivity|].
    unfold no_loop_is_empty. intros H. specialize (H eq_refl).
    vm_compute in H. discriminate.
  - repeat split; reflexivity.
Qed.

(** C7, amended. In every state the public operations reach, the capture
    length is at most the buffer size; in PLAYING the read position is
    inside the loop whenever the loop is not empty, and is 0 when it is
    empty; and IDLE_NO_LOOP implies an empty loop on every path on which
    [cancelCaptureStart] was not called. *)
Theorem C7_stutter_invariants (ops : list op) :
  let s := run ops initial in
  length_bounded s /\
  (m_state s = PLAYING -> 0 < m_captureLength s ->
     m_readPos s < m_captureLength s) /\
  (m_state s = PLAYING -> m_captureLength s = 0 -> m_readPos s = 0) /\
  (forallb (fun o => negb (is_cancel o)) ops = true -> no_loop_is_empty s).
Proof.
  cbn zeta. pose proof (run_inv ops true initial initial_inv) as H.
  cbn [andb] in H. destruct H as (H1 & H2 & H3 & H4 & H5).
  unfold length_bounded, no_loop_is_empty.
  repeat split; intros; try lia.
  - destruct (H4 ltac:(assumption)); lia.
  - destruct (H4 ltac:(assumption)); lia.
  - apply H5; assumption.
Qed.

Lemma C7_stutter_invariants_witness :
  let s := run [OpStartCapture; OpUpdate 0 rampIO; OpEndCapture true;
                OpUpdate 128 rampIO] initial in
  m_state s = PLAYING /\ m_captureLength s = 128 /\
  m_readPos s < m_captureLength s /\
  m_captureLength s <= STUTTER_BUFFER_SAMPLES.
Proof.
  cbn zeta.
  destruct (C7_stutter_invariants
              [OpStartCapture; OpUpdate 0 rampIO; OpEndCapture true;
               OpUpdate 128 rampIO]) as (Hlen & Hread & _).
  cbn zeta in *.
  assert (Hst : m_state (run [OpStartCapture; OpUpdate 0 rampIO; OpEndCapture true;
                              OpUpdate 128 rampIO] initial) = PLAYING)
    by (vm_compute; reflexivity).
  assert (Hc : m_captureLength (run [OpStartCapture; OpUpdate 0 rampIO;
                                OpEndCapture true; OpUpdate 128 rampIO] initial) = 128)
    by (vm_compute; reflexivity).
  split; [exact Hst|]. split; [exact Hc|].
  split; [apply Hread; [exact Hst | rewrite Hc; lia] | exact Hlen].
Defined.

(** [disable] gives the same state whatever the loop bounds were. *)
Lemma disable_forgets s st w r c :
  stutter_disable (set_state st (set_writePos w (set_readPos r (set_captureLength c s)))) =
  stutter_disable s.
Proof. reflexivity. Qed.

End StutterFacts.

Section Dispatch.
Context {F : Float32}.
Import Stutter.

(** C10. [disable] on the STUTTER engine, which is what the dispatcher
    calls for an EFFECT_DISABLE command whose target is STUTTER, sets the
    state to IDLE_NO_LOOP and the capture length, write position and read
    position to 0, whatever they were: the loop bounds are lost.
    [stopPlayback] moves to IDLE_WITH_LOOP and changes nothing else. *)
Theorem C10_disable_discards_the_loop (s : Stutter.t) :
  (m_state (stutter_disable s) = IDLE_NO_LOOP /\
   m_captureLength (stutter_disable s) = 0 /\
   m_writePos (stutter_disable s) = 0 /\
   m_readPos (stutter_disable s) = 0) /\
  (forall st w r c,
     stutter_disable
       (set_state st (set_writePos w (set_readPos r (set_captureLength c s)))) =
     stutter_disable s) /\
  (forall fz ch p1 p2 v,
     EffectManager.executeCommand (mkCommand EFFECT_DISABLE ID_STUTTER p1 p2 v)
       EffectManager.mainRegistry (EffectManager.mkEngines s fz ch) =
     (true, EffectManager.mkEngines (stutter_disable s) fz ch)) /\
  (stopPlayback s = set_state IDLE_WITH_LOOP s /\
   m_state (stopPlayback s) = IDLE_WITH_LOOP /\
   m_captureLength (stopPlayback s) = m_captureLength s /\
   m_writePos (stopPlayback s) = m_writePos s /\
   m_readPos (stopPlayback s) = m_readPos s /\
   m_stutterBufferL (stopPlayback s) = m_stutterBufferL s /\
   m_stutterBufferR (stopPlayback s) = m_stutterBufferR s).
Proof.
  split; [repeat split|]. split; [intros; apply disable_forgets|].
  split; [intros; reflexivity|]. repeat split.
Qed.

End Dispatch.

(** ** SPSC queue *)

Section SPSCFacts.
Context {T : Type}.
Variable SIZE : Z.
Hypothesis Hok : SPSC.size_ok SIZE.
Hypothesis Hle : SIZE <= 2 ^ 32.

Local Abbreviation t := (SPSC.t (T := T)).
Local Abbreviation mask := (SPSC.mask SIZE).
Local Abbreviation push := (SPSC.push SIZE).
Local Abbreviation pop := (SPSC.pop SIZE).
Local Abbreviation stored := SPSC.stored.
Local Abbreviation capacity := (SPSC.capacity SIZE).
Local Abbreviation contents := (SPSC.contents SIZE).
Local Abbreviation slots := (SPSC.slots SIZE).
Local Abbreviation inv := (SPSC.inv SIZE).

(** *** The size is a power of two that divides 2^32 *)

Lemma size_is_power : exists k, 0 <= k <= 32 /\ SIZE = 2 ^ k.
Proof.
  destruct Hok as (Hland & Hpos).
  set (k := Z.log2 SIZE).
  destruct (Z.log2_spec SIZE Hpos) as (Hlo & Hhi). fold k in Hlo, Hhi.
  assert (Hk : 0 <= k) by apply Z.log2_nonneg.
  assert (E : SIZE = 2 ^ k).
  { destruct (Z.eq_dec SIZE (2 ^ k)) as [|Hne]; [assumption|exfalso].
    assert (Hk' : Z.log2 (SIZE - 1) = k)
      by (apply Z.log2_unique; [exact Hk | lia]).
    assert (B1 : Z.testbit SIZE k = true) by (apply Z.bit_log2; lia).
    assert (B2 : Z.testbit (SIZE - 1) k = true).
    { rewrite <- Hk'. apply Z.bit_log2.
      assert (0 < 2 ^ k) by (apply Z.pow_pos_nonneg; lia). lia. }
    assert (B : Z.testbit (Z.land SIZE (SIZE - 1)) k = true)
      by (rewrite Z.land_spec, B1, B2; reflexivity).
    rewrite Hland, Z.bits_0 in B. discriminate. }
  exists k. split; [|exact E]. split; [exact Hk|].
  apply (Z.pow_le_mono_r_iff 2); lia.
Qed.

Lemma size_divides : 0 < SIZE /\ exists c, 0 < c /\ 2 ^ 32 = c * SIZE.
Proof.
  destruct size_is_power as (k & Hk & ->).
  split; [apply Z.pow_pos_nonneg; lia|].
  exists (2 ^ (32 - k)). split; [apply Z.pow_pos_nonneg; lia|].
  rewrite <- Z.pow_add_r by lia. f_equal. lia.
Qed.

Lemma mask_mod x : mask x = x mod SIZE.
Proof.
  destruct size_is_power as (k & Hk & E). unfold SPSC.mask.
  rewrite E, Z.sub_1_r, <- Z.ones_equiv. apply Z.land_ones. lia.
Qed.

Lemma mod_u32 x : u32 x mod SIZE = x mod SIZE.
Proof.
  destruct size_divides as (Hpos & c & Hc & E).
  unfold u32. apply Z.mod_mod_divide. exists c. exact E.
Qed.

Lemma mask_u32 x : mask (u32 x) = mask x.
Proof. rewrite !mask_mod. apply mod_u32. Qed.

Lemma mask_range x : 0 <= mask x < SIZE.
Proof. rewrite mask_mod. apply Z.mod_pos_bound. apply size_divides. Qed.

(** Two ring positions coincide exactly when they differ by a multiple of
    the size. *)
Lemma mask_eq_iff x y : mask x = mask y <-> exists n, x - y = n * SIZE.
Proof. rewrite !mask_mod. apply Z.cong_iff_ex. Qed.

Lemma stored_decomposition (q : t) :
  exists n, SPSC.writeIdx q - SPSC.readIdx q = n * SIZE + stored q.
Proof.
  destruct size_divides as (_ & c & _ & E). unfold SPSC.stored, u32.
  exists (c * ((SPSC.writeIdx q - SPSC.readIdx q) / 2 ^ 32)).
  pose proof (Z.div_mod (SPSC.writeIdx q - SPSC.readIdx q) (2 ^ 32)) as D.
  rewrite E in *. lia.
Qed.

(** *** Indices *)

Lemma push_full_iff (q : t) :
  inv q ->
  mask (u32 (SPSC.writeIdx q + 1)) = mask (SPSC.readIdx q) <-> stored q = capacity.
Proof.
  intros (Hw & Hr & Hs & Hlen). destruct size_divides as (Hpos & _).
  rewrite mask_u32, mask_eq_iff.
  destruct (stored_decomposition q) as (n & Hn).
  pose proof (u32_range (SPSC.writeIdx q - SPSC.readIdx q)) as Hd.
  fold (stored q) in Hd. unfold is_u32 in Hd. unfold SPSC.capacity in *.
  split.
  - intros (m & Hm).
    assert (E : stored q + 1 = (m - n) * SIZE) by lia.
    assert (Hz : m - n = 1) by nia.
    rewrite Hz in E. lia.
  - intros E. exists (n + 1). lia.
Qed.

Lemma stored_after_push (q : t) :
  inv q -> stored q < capacity ->
  u32 (u32 (SPSC.writeIdx q + 1) - SPSC.readIdx q) = stored q + 1.
Proof.
  intros (Hw & Hr & Hs & Hlen) Hlt.
  pose proof (u32_range (SPSC.writeIdx q - SPSC.readIdx q)) as Hd.
  fold (stored q) in Hd. unfold is_u32 in Hd. unfold SPSC.capacity in *.
  rewrite u32_sub_u32.
  replace (SPSC.writeIdx q + 1 - SPSC.readIdx q)
    with (SPSC.writeIdx q - SPSC.readIdx q + 1) by lia.
  rewrite <- u32_succ_u32. fold (stored q).
  apply u32_small. unfold is_u32. lia.
Qed.

Lemma empty_iff (q : t) :
  inv q -> SPSC.readIdx q = SPSC.writeIdx q <-> stored q = 0.
Proof.
  intros (Hw & Hr & _). unfold SPSC.stored, u32, is_u32 in *. split.
  - intros ->. rewrite Z.sub_diag. reflexivity.
  - intros E. Z.div_mod_to_equations. lia.
Qed.

Lemma stored_after_pop (q : t) :
  inv q -> SPSC.readIdx q <> SPSC.writeIdx q ->
  u32 (SPSC.writeIdx q - u32 (SPSC.readIdx q + 1)) = stored q - 1 /\
  1 <= stored q.
Proof.
  intros Hinv Hne. pose proof (proj2 (empty_iff q Hinv)) as He.
  destruct Hinv as (Hw & Hr & Hs & Hlen).
  pose proof (u32_range (SPSC.writeIdx q - SPSC.readIdx q)) as Hd.
  fold (stored q) in Hd. unfold is_u32 in Hd. unfold SPSC.capacity in *.
  assert (H1 : 1 <= stored q) by (destruct (Z.eq_dec (stored q) 0); [tauto | lia]).
  split; [|exact H1].
  unfold u32 at 1 2. rewrite Zminus_mod_idemp_r.
  replace (SPSC.writeIdx q - (SPSC.readIdx q + 1))
    with (SPSC.writeIdx q - SPSC.readIdx q - 1) by lia.
  fold (u32 (SPSC.writeIdx q - SPSC.readIdx q - 1)).
  rewrite <- u32_sub_u32. fold (stored q).
  apply u32_small. unfold is_u32. lia.
Qed.

(** *** The invariant *)

Lemma create_inv (buf : list T) :
  Z.of_nat (length buf) = SIZE -> inv (SPSC.create buf).
Proof.
  intros Hlen. destruct size_divides as (Hpos & _).
  unfold SPSC.inv, SPSC.create, SPSC.stored, SPSC.capacity, is_u32.
  cbn [SPSC.writeIdx SPSC.readIdx SPSC.buffer].
  change (u32 (0 - 0)) with 0. repeat split; try lia.
Qed.

Lemma push_inv (item : T) (q : t) : inv q -> inv (snd (push item q)).
Proof.
  intros Hinv. unfold SPSC.push.
  destruct (Z.eqb_spec (mask (u32 (SPSC.writeIdx q + 1))) (mask (SPSC.readIdx q)))
    as [E|E]; [exact Hinv|].
  assert (Hlt : stored q < capacity).
  { pose proof (proj2 (push_full_iff q Hinv)).
    destruct Hinv as (_ & _ & Hs & _). destruct (Z.eq_dec (stored q) capacity);
      [tauto | lia]. }
  pose proof (stored_after_push q Hinv Hlt) as Hst.
  destruct Hinv as (Hw & Hr & Hs & Hlen).
  unfold SPSC.inv, SPSC.stored. cbn [snd SPSC.writeIdx SPSC.readIdx SPSC.buffer].
  rewrite Hst, length_insert.
  pose proof (u32_range (SPSC.writeIdx q + 1)). unfold is_u32 in *.
  repeat split; auto; lia.
Qed.

Lemma pop_inv (item : T) (q : t) : inv q -> inv (snd (pop item q)).
Proof.
  intros Hinv. unfold SPSC.pop.
  destruct (Z.eqb_spec (SPSC.readIdx q) (SPSC.writeIdx q)) as [E|E]; [exact Hinv|].
  destruct (stored_after_pop q Hinv E) as (Hst & H1).
  destruct Hinv as (Hw & Hr & Hs & Hlen).
  unfold SPSC.inv, SPSC.stored. cbn [snd SPSC.writeIdx SPSC.readIdx SPSC.buffer].
  rewrite Hst.
  pose proof (u32_range (SPSC.readIdx q + 1)). unfold is_u32 in *.
  repeat split; auto; lia.
Qed.

Lemma reachable_inv (q : t) : SPSC.reachable SIZE q -> inv q.
Proof.
  induction 1 as [buf Hlen | item q _ IH | item q _ IH].
  - apply create_inv, Hlen.
  - apply push_inv, IH.
  - apply pop_inv, IH.
Qed.

(** *** Contents *)

Lemma slots_ext (buf : list T) n : forall a b,
  mask a = mask b -> slots buf a n = slots buf b n.
Proof.
  induction n as [|n IH]; intros a b E; cbn [SPSC.slots]; [reflexivity|].
  rewrite E. rewrite (IH (a + 1) (b + 1)); [reflexivity|].
  apply mask_eq_iff. apply mask_eq_iff in E. destruct E as (m & E).
  exists m. lia.
Qed.

Lemma slots_snoc (buf : list T) n : forall a x,
  buf !! Z.to_nat (mask (a + Z.of_nat n)) = Some x ->
  slots buf a (S n) = slots buf a n ++ [x].
Proof.
  induction n as [|n IH]; intros a x E.
  - cbn [SPSC.slots]. rewrite Z.add_0_r in E. rewrite E. reflexivity.
  - assert (E' : buf !! Z.to_nat (mask (a + 1 + Z.of_nat n)) = Some x)
      by (rewrite <- E; do 3 f_equal; lia).
    specialize (IH (a + 1) x E').
    change (slots buf a (S (S n))) with
      (match buf !! Z.to_nat (mask a) with
       | Some y => y :: slots buf (a + 1) (S n)
       | None => slots buf (a + 1) (S n)
       end).
    rewrite IH. cbn [SPSC.slots].
    destruct (buf !! Z.to_nat (mask a)); reflexivity.
Qed.

Lemma slots_insert_other (buf : list T) j y n : forall a,
  (forall i, 0 <= i < Z.of_nat n -> mask (a + i) <> mask j) ->
  slots (<[Z.to_nat (mask j) := y]> buf) a n = slots buf a n.
Proof.
  induction n as [|n IH]; intros a Hne; cbn [SPSC.slots]; [reflexivity|].
  rewrite list_lookup_insert_ne.
  - rewrite IH; [reflexivity|]. intros i Hi.
    replace (a + 1 + i) with (a + (i + 1)) by lia. apply Hne. lia.
  - intros E. apply Z2Nat.inj in E; try apply mask_range.
    apply (Hne 0); [lia|]. rewrite Z.add_0_r. congruence.
Qed.

Lemma slots_length (buf : list T) n : forall a,
  Z.of_nat (length buf) = SIZE -> length (slots buf a n) = n.
Proof.
  induction n as [|n IH]; intros a Hlen; cbn [SPSC.slots]; [reflexivity|].
  destruct (lookup_lt_is_Some_2 buf (Z.to_nat (mask a))) as (x & ->).
  - pose proof (mask_range a). lia.
  - cbn [length]. rewrite IH; auto.
Qed.

Lemma contents_push (item : T) (q : t) :
  inv q -> stored q < capacity ->
  contents (snd (push item q)) = contents q ++ [item].
Proof.
  intros Hinv Hlt. pose proof (stored_after_push q Hinv Hlt) as Hst.
  pose proof (proj1 (push_full_iff q Hinv)) as Hfull.
  destruct (stored_decomposition q) as (n & Hn).
  pose proof Hinv as (Hw & Hr & Hs & Hlen).
  pose proof (u32_range (SPSC.writeIdx q - SPSC.readIdx q)) as Hd.
  change (0 <= stored q < 2 ^ 32) in Hd.
  destruct size_divides as (Hpos & _).
  unfold SPSC.push.
  destruct (Z.eqb_spec (mask (u32 (SPSC.writeIdx q + 1))) (mask (SPSC.readIdx q)))
    as [E|E]; [specialize (Hfull E); lia|].
  unfold SPSC.contents, SPSC.stored.
  cbn [snd SPSC.writeIdx SPSC.readIdx SPSC.buffer]. rewrite Hst.
  replace (Z.to_nat (stored q + 1)) with (S (Z.to_nat (stored q))) by lia.
  fold (stored q).
  rewrite (slots_snoc _ _ _ item).
  - f_equal. apply slots_insert_other. intros i Hi E'.
    apply mask_eq_iff in E'. destruct E' as (m & Hm).
    assert (Hz : stored q - i = (- m - n) * SIZE) by lia.
    assert (Hi' : 0 < stored q - i <= SIZE - 1)
      by (unfold SPSC.capacity in *; lia).
    assert (Hcase : - m - n <= 0 \/ 1 <= - m - n) by lia.
    destruct Hcase; nia.
  - rewrite Z2Nat.id by lia.
    assert (Em : mask (SPSC.readIdx q + stored q) = mask (SPSC.writeIdx q))
      by (apply mask_eq_iff; exists (- n); lia).
    rewrite Em. apply list_lookup_insert_eq.
    pose proof (mask_range (SPSC.writeIdx q)). lia.
Qed.

Lemma contents_pop (item : T) (q : t) :
  inv q -> SPSC.readIdx q <> SPSC.writeIdx q ->
  exists x, pop item q =
              (true, x, SPSC.mk (SPSC.buffer q) (SPSC.writeIdx q)
                          (u32 (SPSC.readIdx q + 1))) /\
            contents q = x :: contents (snd (pop item q)).
Proof.
  intros Hinv Hne. destruct (stored_after_pop q Hinv Hne) as (Hst & H1).
  pose proof Hinv as (Hw & Hr & Hs & Hlen).
  destruct (lookup_lt_is_Some_2 (SPSC.buffer q)
              (Z.to_nat (mask (SPSC.readIdx q)))) as (x & Hx);
    [pose proof (mask_range (SPSC.readIdx q)); lia|].
  exists x. unfold SPSC.pop.
  destruct (Z.eqb_spec (SPSC.readIdx q) (SPSC.writeIdx q)) as [E|_]; [tauto|].
  rewrite Hx. split; [reflexivity|].
  unfold SPSC.contents, SPSC.stored.
  cbn [snd SPSC.writeIdx SPSC.readIdx SPSC.buffer default]. rewrite Hst.
  fold (stored q).
  replace (Z.to_nat (stored q)) with (S (Z.to_nat (stored q - 1))) by lia.
  cbn [SPSC.slots]. rewrite Hx. f_equal.
  apply slots_ext. symmetry. apply mask_u32.
Qed.

(** C5. In every reachable state of a queue whose SIZE is a power of two
    (at most 2^32, the range of the indices): [push] returns true and
    appends the item exactly when fewer than SIZE - 1 elements are stored,
    and returns false and leaves the queue unchanged otherwise; [pop]
    returns false exactly when readIdx = writeIdx, that is when nothing is
    stored, and otherwise hands out the oldest element; the number of
    stored elements, which [size] reports, never exceeds the capacity
    SIZE - 1. *)
Theorem C5_spsc_push_pop (q : t) (item : T) :
  SPSC.reachable SIZE q ->
  (fst (push item q) = true <-> stored q < capacity) /\
  (stored q < capacity ->
     fst (push item q) = true /\
     contents (snd (push item q)) = contents q ++ [item] /\
     stored (snd (push item q)) = stored q + 1) /\
  (~ stored q < capacity -> push item q = (false, q)) /\
  (fst (fst (pop item q)) = false <-> SPSC.readIdx q = SPSC.writeIdx q) /\
  (SPSC.readIdx q = SPSC.writeIdx q <-> stored q = 0) /\
  (SPSC.readIdx q = SPSC.writeIdx q -> pop item q = (false, item, q)) /\
  (SPSC.readIdx q <> SPSC.writeIdx q ->
     exists x, fst (pop item q) = (true, x) /\
               contents q = x :: contents (snd (pop item q)) /\
               stored (snd (pop item q)) = stored q - 1) /\
  stored q <= capacity /\
  SPSC.size SIZE q = stored q /\
  SPSC.size SIZE q <= capacity /\
  Z.of_nat (length (contents q)) = stored q.
Proof.
  intros Hreach. pose proof (reachable_inv q Hreach) as Hinv.
  pose proof Hinv as (Hw & Hr & Hs & Hlen).
  pose proof (u32_range (SPSC.writeIdx q - SPSC.readIdx q)) as Hd.
  change (0 <= stored q < 2 ^ 32) in Hd.
  destruct size_divides as (Hpos & _).
  pose proof (push_full_iff q Hinv) as Hfull.
  assert (Hpush : fst (push item q) = true <-> stored q < capacity).
  { unfold SPSC.push.
    destruct (Z.eqb_spec (mask (u32 (SPSC.writeIdx q + 1))) (mask (SPSC.readIdx q)))
      as [E|E]; cbn [fst]; split; intros H; try reflexivity; try discriminate.
    - apply Hfull in E. lia.
    - destruct (Z.eq_dec (stored q) capacity) as [Ec|Ec]; [tauto | lia]. }
  assert (Hsize : SPSC.size SIZE q = stored q).
  { unfold SPSC.size. fold (stored q). rewrite mask_mod.
    apply Z.mod_small. unfold SPSC.capacity in *. lia. }
  split; [exact Hpush|]. split; [|split; [|split; [|split; [|split; [|split]]]]].
  - intros Hlt. split; [apply Hpush, Hlt|].
    split; [apply contents_push; assumption|].
    assert (Hne : mask (u32 (SPSC.writeIdx q + 1)) <> mask (SPSC.readIdx q))
      by (intros E; apply Hfull in E; lia).
    unfold SPSC.push.
    destruct (Z.eqb_spec (mask (u32 (SPSC.writeIdx q + 1))) (mask (SPSC.readIdx q)));
      [contradiction|].
    unfold SPSC.stored at 1. cbn [snd SPSC.writeIdx SPSC.readIdx].
    apply stored_after_push; assumption.
  - intros Hge. unfold SPSC.push.
    destruct (Z.eqb_spec (mask (u32 (SPSC.writeIdx q + 1))) (mask (SPSC.readIdx q)))
      as [E|E]; [reflexivity|].
    exfalso. apply Hge.
    destruct (Z.eq_dec (stored q) capacity) as [Ec|Ec]; [|lia].
    apply Hfull in Ec. contradiction.
  - unfold SPSC.pop.
    destruct (Z.eqb_spec (SPSC.readIdx q) (SPSC.writeIdx q)); cbn [fst];
      split; intros H; try reflexivity; try discriminate; tauto.
  - apply empty_iff, Hinv.
  - intros E. unfold SPSC.pop. rewrite E, Z.eqb_refl. reflexivity.
  - intros Hne. destruct (contents_pop item q Hinv Hne) as (x & Hp & Hc).
    exists x. rewrite Hp in *. cbn [fst snd] in *. split; [reflexivity|].
    split; [exact Hc|].
    unfold SPSC.stored at 1. cbn [SPSC.writeIdx SPSC.readIdx].
    apply stored_after_pop; assumption.
  - split; [exact Hs|]. split; [exact Hsize|]. split; [lia|].
    unfold SPSC.contents. rewrite slots_length by exact Hlen. lia.
Qed.

End SPSCFacts.

Lemma C5_spsc_push_pop_witness :
  let q := snd (SPSC.push 16 7 (SPSC.create (replicate 16 0))) in
  SPSC.size_ok 16 /\ 16 <= 2 ^ 32 /\ SPSC.reachable 16 q /\
  SPSC.contents 16 (snd (SPSC.push 16 9 q)) = SPSC.contents 16 q ++ [9] /\
  SPSC.stored q <= SPSC.capacity 16.
Proof.
  cbn zeta.
  assert (Hok : SPSC.size_ok 16) by (split; reflexivity).
  assert (Hle : 16 <= 2 ^ 32) by lia.
  assert (Hr : SPSC.reachable 16 (snd (SPSC.push 16 7 (SPSC.create (replicate 16 0)))))
    by (apply SPSC.reach_push, SPSC.reach_create; reflexivity).
  split; [exact Hok|]. split; [exact Hle|]. split; [exact Hr|].
  destruct (C5_spsc_push_pop 16 Hok Hle _ 9 Hr)
    as (_ & Hpush & _ & _ & _ & _ & _ & Hcap & _).
  split; [|exact Hcap].
  apply Hpush. vm_compute. reflexivity.
Defined.

(** * Further properties *)

(** ** TimeKeeper: conversions, bars, the grid and the beat flag *)

Section TimeKeeperQueries.
Import TimeKeeper.



(** X2. For 0 < samplesPerBeat < 2^30 (so that the bar length 4 spb fits 32
    bits), [samplesToNextBar] returns 0 when the position is at most 16
    samples past a bar boundary and otherwise the distance to the next one:
    a non-zero wait is shorter than a bar and ends exactly on a bar
    boundary, which is also a beat boundary. *)
Theorem X2_samplesToNextBar_lands_on_bar tk :
  wf tk -> 0 < s_samplesPerBeat tk < 2 ^ 30 ->
  let bar := 4 * s_samplesPerBeat tk in
  let r := s_samplePosition tk mod bar in
  samplesToNextBar tk = Some (if r <=? 16 then 0 else bar - r) /\
  (forall w, samplesToNextBar tk = Some w -> w <> 0 ->
     16 < r /\ 0 < w < bar /\
     (s_samplePosition tk + w) mod bar = 0 /\
     (s_samplePosition tk + w) mod s_samplesPerBeat tk = 0).
Proof.
  intros (Hp & _ & _ & Hs) Hspb bar r. unfold is_u64, is_u32 in *.
  assert (Hbar : 0 < bar < 2 ^ 32) by (unfold bar; lia).
  assert (Hr : 0 <= r < bar) by (apply Z.mod_pos_bound; lia).
  assert (E : samplesToNextBar tk = Some (if r <=? 16 then 0 else bar - r)).
  { unfold samplesToNextBar, getSamplePosition, getSamplesPerBeat, BEATS_PER_BAR.
    replace (s_samplesPerBeat tk * 4) with bar by (unfold bar; lia).
    rewrite (u32_small bar) by (unfold is_u32; lia).
    destruct (Z.eqb_spec bar 0); [lia|]. fold r.
    rewrite (u32_small r) by (unfold is_u32; lia).
    rewrite u32_small by (unfold is_u32; lia).
    destruct (r <=? 16); reflexivity. }
  split; [exact E|]. intros w Hw Hne. rewrite E in Hw.
  destruct (Z.leb_spec r 16); inversion Hw; subst w; [lia|].
  split; [lia|]. split; [lia|].
  assert (Hsum : s_samplePosition tk + (bar - r) =
                 (s_samplePosition tk / bar + 1) * bar)
    by (unfold r; Z.div_mod_to_equations; lia).
  rewrite Hsum. split; [apply Z.mod_mul; lia|].
  unfold bar. rewrite Z.mul_assoc. apply Z.mod_mul. lia.
Qed.

Lemma X2_samplesToNextBar_lands_on_bar_witness :
  samplesToNextBar (mk 100000 0 0 22050 STOPPED false) = Some 76400.
Proof.
  exact (proj1 (X2_samplesToNextBar_lands_on_bar
                  (mk 100000 0 0 22050 STOPPED false)
                  ltac:(unfold wf, is_u64, is_u32; simpl; lia)
                  ltac:(simpl; lia))).
Defined.

(** X3. For 24 <= samplesPerBeat < 2^31, a tick in range and a subdivision
    of at least 1, [samplesToNextSubdivision] returns the distance from the
    tick-derived position e to the next grid point, which is the least
    multiple of the subdivision above e or the end of the beat, whichever
    comes first: the wait is positive, at most one subdivision and at most
    what is left of the beat, and no multiple of the subdivision lies
    strictly between e and the point it ends on. *)
Theorem X3_subdivision_next_grid_point tk sub :
  wf tk -> 0 <= s_tickInBeat tk < 24 -> is_u32 sub -> 1 <= sub ->
  24 <= s_samplesPerBeat tk < 2 ^ 31 ->
  let e := samplesElapsedInBeat tk in
  let next := Z.min ((e / sub + 1) * sub) (s_samplesPerBeat tk) in
  samplesToNextSubdivision sub tk = Some (next - e) /\
  0 < next - e <= Z.min sub (s_samplesPerBeat tk - e) /\
  (next = s_samplesPerBeat tk \/ next mod sub = 0) /\
  (forall g, e < g < next -> g mod sub <> 0).
Proof.
  intros Hwf [_ Hlt] Hsub Hpos [Hspb Hhi] e next.
  destruct (elapsed_bounds tk Hwf Hlt Hspb) as (_ & He). fold e in He.
  destruct Hwf as (_ & _ & _ & Hs). unfold is_u32 in *.
  set (spb := s_samplesPerBeat tk) in *.
  set (X := (e / sub + 1) * sub) in *.
  assert (HX : e < X <= e + sub /\ X mod sub = 0).
  { split; [unfold X; Z.div_mod_to_equations; nia|].
    unfold X. apply Z.mod_mul. lia. }
  destruct HX as (HX & HXm).
  assert (E : samplesToNextSubdivision sub tk = Some (next - e)).
  { unfold samplesToNextSubdivision, getSamplesPerBeat. fold e spb.
    destruct (Z.leb_spec spb sub).
    - assert (e / sub = 0) by (apply Z.div_small; lia).
      assert (next = spb) by (unfold next, X; nia).
      rewrite u32_small by (unfold is_u32; lia). congruence.
    - destruct (Z.eqb_spec sub 0); [lia|]. fold X.
      rewrite (u32_small X) by (unfold is_u32; lia).
      destruct (Z.ltb_spec spb X).
      + rewrite u32_small by (unfold is_u32; lia).
        unfold next. rewrite Z.min_r by lia. reflexivity.
      + rewrite u32_small by (unfold is_u32; lia).
        unfold next. rewrite Z.min_l by lia. reflexivity. }
  split; [exact E|]. split; [unfold next; lia|]. split.
  - unfold next. destruct (Z.le_gt_cases X spb);
      [right; rewrite Z.min_l by lia; exact HXm | left; apply Z.min_r; lia].
  - intros g Hg Hm.
    assert (Hgx : g < X) by (unfold next in Hg; lia).
    assert (Hk : g = sub * (g / sub)) by (apply Z.div_exact; lia).
    assert (Hq : sub * (e / sub) <= e) by (apply Z.mul_div_le; lia).
    unfold X in Hgx. set (k := g / sub) in *. set (q := e / sub) in *.
    assert (Hkq : k < q + 1) by nia. nia.
Qed.

Lemma X3_subdivision_next_grid_point_witness :
  samplesToNextSubdivision 5512 (mk 0 0 7 22050 STOPPED false) = Some 4598.
Proof.
  exact (proj1 (X3_subdivision_next_grid_point
                  (mk 0 0 7 22050 STOPPED false) 5512
                  ltac:(unfold wf, is_u64, is_u32; simpl; lia)
                  ltac:(simpl; lia) ltac:(unfold is_u32; lia) ltac:(lia)
                  ltac:(simpl; lia))).
Defined.

Lemma iter_beatFlag n tk :
  wf tk -> s_tickInBeat tk < 24 ->
  s_beatFlag (Nat.iter n incrementTick tk) =
    s_beatFlag tk || (24 <=? s_tickInBeat tk + Z.of_nat n).
Proof.
  intros Hwf Hlt. pose proof Hwf as (_ & _ & Ht & _). unfold is_u32 in Ht.
  induction n as [|n IH].
  - simpl. rewrite Z.add_0_r.
    destruct (Z.leb_spec 24 (s_tickInBeat tk)); [lia|]. symmetry. apply orb_false_r.
  - rewrite Nat.iter_succ.
    destruct (iter_incrementTick n tk Hwf Hlt) as ((Hwf' & Hlt') & Htick & _).
    cbn zeta in *. set (cur := Nat.iter n incrementTick tk) in *.
    rewrite (incrementTick_next cur Hwf' Hlt'), Nat2Z.inj_succ.
    destruct (Z.eqb_spec (s_tickInBeat cur) 23) as [E|E]; simpl.
    + rewrite Htick in E.
      destruct (Z.leb_spec 24 (s_tickInBeat tk + Z.succ (Z.of_nat n)));
        [symmetry; apply orb_true_r | Z.div_mod_to_equations; lia].
    + rewrite IH. f_equal. rewrite Htick in E.
      destruct (Z.leb_spec 24 (s_tickInBeat tk + Z.of_nat n));
        destruct (Z.leb_spec 24 (s_tickInBeat tk + Z.succ (Z.of_nat n)));
        try reflexivity; Z.div_mod_to_equations; lia.
Qed.

(** X4. The beat flag latches. After a poll, any number n of
    [incrementTick] calls later the next poll returns true exactly when
    those calls crossed a beat boundary (tickInBeat + n >= 24), however many
    beats went by, and the poll after that returns false; polling does not
    touch the beat or tick counters. *)
Theorem X4_beat_flag_latches tk n :
  wf tk -> 0 <= s_tickInBeat tk < 24 ->
  let later := Nat.iter n incrementTick (snd (pollBeatFlag tk)) in
  fst (pollBeatFlag later) = (24 <=? s_tickInBeat tk + Z.of_nat n) /\
  fst (pollBeatFlag (snd (pollBeatFlag later))) = false /\
  s_beatNumber (snd (pollBeatFlag later)) = s_beatNumber later /\
  s_tickInBeat (snd (pollBeatFlag later)) = s_tickInBeat later.
Proof.
  intros Hwf [_ Hlt]. cbn zeta.
  assert (Hwf' : wf (snd (pollBeatFlag tk))) by exact Hwf.
  pose proof (iter_beatFlag n (snd (pollBeatFlag tk)) Hwf' Hlt) as H.
  change (s_beatFlag (snd (pollBeatFlag tk))) with false in H.
  change (s_tickInBeat (snd (pollBeatFlag tk))) with (s_tickInBeat tk) in H.
  set (later := Nat.iter n incrementTick (snd (pollBeatFlag tk))) in *.
  change (fst (pollBeatFlag later)) with (s_beatFlag later).
  rewrite H. repeat split.
Qed.

Lemma X4_beat_flag_latches_witness :
  fst (pollBeatFlag (Nat.iter 50 incrementTick (snd (pollBeatFlag initial)))) = true.
Proof.
  exact (proj1 (X4_beat_flag_latches initial 50
                  ltac:(unfold wf, is_u64, is_u32; vm_compute; intuition congruence)
                  ltac:(simpl; lia))).
Defined.

End TimeKeeperQueries.

(** ** SPSC queue: batches *)

Section SPSCBatches.
Context {T : Type}.
Variable SIZE : Z.
Hypothesis Hok : SPSC.size_ok SIZE.
Hypothesis Hle : SIZE <= 2 ^ 32.

Local Abbreviation t := (SPSC.t (T := T)).
Local Abbreviation push := (SPSC.push SIZE).
Local Abbreviation pop := (SPSC.pop SIZE).
Local Abbreviation stored := SPSC.stored.
Local Abbreviation capacity := (SPSC.capacity SIZE).
Local Abbreviation contents := (SPSC.contents SIZE).
Local Abbreviation inv := (SPSC.inv SIZE).
Local Abbreviation pushAll := (SPSC.pushAll SIZE).
Local Abbreviation drain := (SPSC.drain SIZE).

Lemma push_accepted (item : T) (q : t) :
  inv q -> stored q < capacity ->
  stored (snd (push item q)) = stored q + 1 /\
  contents (snd (push item q)) = contents q ++ [item].
Proof.
  intros Hinv Hlt. split; [|apply contents_push; assumption].
  pose proof (proj1 (push_full_iff SIZE Hok Hle q Hinv)) as Hfull.
  unfold SPSC.push.
  destruct (Z.eqb_spec (SPSC.mask SIZE (u32 (SPSC.writeIdx q + 1)))
                       (SPSC.mask SIZE (SPSC.readIdx q))) as [E|E];
    [specialize (Hfull E); lia|].
  unfold SPSC.stored at 1. cbn [snd SPSC.writeIdx SPSC.readIdx].
  apply (stored_after_push SIZE); assumption.
Qed.

Lemma push_rejected (item : T) (q : t) :
  inv q -> ~ stored q < capacity -> push item q = (false, q).
Proof.
  intros Hinv Hge. pose proof (proj2 (push_full_iff SIZE Hok Hle q Hinv)) as Hfull.
  destruct Hinv as (_ & _ & Hs & _). unfold SPSC.push.
  destruct (Z.eqb_spec (SPSC.mask SIZE (u32 (SPSC.writeIdx q + 1)))
                       (SPSC.mask SIZE (SPSC.readIdx q))) as [E|E];
    [reflexivity|].
  exfalso. apply E, Hfull. lia.
Qed.

Lemma pushAll_spec (items : list T) : forall q : t,
  inv q ->
  inv (pushAll items q) /\
  contents (pushAll items q) =
    contents q ++ take (Z.to_nat (capacity - stored q)) items /\
  stored (pushAll items q) = Z.min (stored q + Z.of_nat (length items)) capacity.
Proof.
  induction items as [|x items IH]; intros q Hinv.
  - pose proof Hinv as (_ & _ & Hs & _).
    change (pushAll [] q) with q. rewrite take_nil, app_nil_r.
    split; [exact Hinv|]. split; [reflexivity|]. cbn [length]. lia.
  - change (pushAll (x :: items) q) with (pushAll items (snd (push x q))).
    pose proof Hinv as (_ & _ & Hs & _).
    pose proof (u32_range (SPSC.writeIdx q - SPSC.readIdx q)) as Hd.
    change (0 <= stored q < 2 ^ 32) in Hd.
    destruct (Z_lt_dec (stored q) capacity) as [Hlt|Hge].
    + destruct (push_accepted x q Hinv Hlt) as (Hst & Hc).
      destruct (IH _ (push_inv SIZE Hok Hle x q Hinv)) as (I1 & I2 & I3).
      split; [exact I1|]. rewrite I2, I3, Hc, Hst. split.
      * rewrite <- app_assoc. f_equal.
        replace (Z.to_nat (capacity - stored q))
          with (S (Z.to_nat (capacity - (stored q + 1)))) by lia.
        reflexivity.
      * cbn [length]. lia.
    + rewrite (push_rejected x q Hinv Hge). cbn [snd].
      destruct (IH q Hinv) as (I1 & I2 & I3).
      split; [exact I1|]. rewrite I2, I3.
      replace (Z.to_nat (capacity - stored q)) with O by lia.
      rewrite !take_0. split; [reflexivity|]. cbn [length]. lia.
Qed.

Lemma drain_spec (fuel : nat) : forall (item : T) (q : t),
  inv q -> stored q < Z.of_nat fuel ->
  drain fuel item q =
    (contents q, SPSC.mk (SPSC.buffer q) (SPSC.writeIdx q) (SPSC.writeIdx q)).
Proof.
  induction fuel as [|fuel IH]; intros item q Hinv Hfuel.
  - pose proof (u32_range (SPSC.writeIdx q - SPSC.readIdx q)) as Hd.
    change (0 <= stored q < 2 ^ 32) in Hd. lia.
  - cbn [SPSC.drain].
    destruct (Z.eq_dec (SPSC.readIdx q) (SPSC.writeIdx q)) as [E|E].
    + unfold SPSC.pop. rewrite E, Z.eqb_refl.
      assert (H0 : stored q = 0) by (apply (empty_iff _ q Hinv); exact E).
      unfold SPSC.contents. rewrite H0. destruct q; simpl in *. subst.
      reflexivity.
    + destruct (contents_pop SIZE Hok Hle item q Hinv E) as (x & Hp & Hc).
      destruct (stored_after_pop SIZE q Hinv E) as (Hst & H1).
      rewrite Hp in *. cbn [snd] in Hc.
      set (q1 := SPSC.mk (SPSC.buffer q) (SPSC.writeIdx q)
                   (u32 (SPSC.readIdx q + 1))) in *.
      assert (Hinv1 : inv q1).
      { pose proof (pop_inv SIZE item q Hinv) as P. rewrite Hp in P. exact P. }
      assert (Hst1 : stored q1 = stored q - 1) by exact Hst.
      rewrite (IH x q1 Hinv1) by lia. rewrite Hc. reflexivity.
Qed.

(** Batches through the queue. In every reachable state, pushing a list of
    items keeps as many of them, in order, as there is room for and drops
    the rest; and the consumer's pop-until-empty loop, given more iterations
    than there are stored elements, hands out exactly the stored elements,
    oldest first, and leaves the queue empty. So what is pushed into a
    fresh queue, up to its capacity, comes out unchanged. *)
Theorem X5_spsc_batches_are_fifo (q : t) (items : list T) (item : T) (fuel : nat) :
  SPSC.reachable SIZE q -> stored q < Z.of_nat fuel ->
  contents (pushAll items q) =
    contents q ++ take (Z.to_nat (capacity - stored q)) items /\
  stored (pushAll items q) = Z.min (stored q + Z.of_nat (length items)) capacity /\
  fst (drain fuel item q) = contents q /\
  SPSC.isEmpty (snd (drain fuel item q)) = true /\
  SPSC.writeIdx (snd (drain fuel item q)) = SPSC.writeIdx q /\
  (forall buf : list T,
     Z.of_nat (length buf) = SIZE -> Z.of_nat (length items) <= capacity ->
     fst (drain (S (length items)) item (pushAll items (SPSC.create buf))) = items).
Proof.
  intros Hreach Hfuel. pose proof (reachable_inv SIZE Hok Hle q Hreach) as Hinv.
  destruct (pushAll_spec items q Hinv) as (_ & Hc & Hs).
  split; [exact Hc|]. split; [exact Hs|].
  rewrite (drain_spec fuel item q Hinv Hfuel). cbn [fst snd].
  split; [reflexivity|]. split; [apply Z.eqb_refl|]. split; [reflexivity|].
  intros buf Hlen Hfit.
  assert (Hinv0 : inv (SPSC.create buf)) by (apply create_inv; assumption).
  destruct (pushAll_spec items (SPSC.create buf) Hinv0) as (Hinv1 & Hc1 & Hs1).
  assert (H0 : stored (SPSC.create buf) = 0) by reflexivity.
  rewrite H0 in *. rewrite drain_spec; [|exact Hinv1|lia].
  cbn [fst]. rewrite Hc1.
  change (contents (SPSC.create buf)) with (@nil T).
  rewrite take_ge by lia. reflexivity.
Qed.

End SPSCBatches.

Lemma X5_spsc_batches_are_fifo_witness :
  let q := SPSC.create (replicate 4 0) in
  SPSC.contents 4 (SPSC.pushAll 4 [1; 2; 3; 4; 5] q) = [1; 2; 3] /\
  fst (SPSC.drain 4 4 0 (SPSC.pushAll 4 [1; 2; 3] q)) = [1; 2; 3].
Proof.
  cbn zeta.
  assert (Hok : SPSC.size_ok 4) by (split; reflexivity).
  assert (Hle : 4 <= 2 ^ 32) by lia.
  assert (Hr : SPSC.reachable 4 (SPSC.create (replicate 4 0)))
    by (apply SPSC.reach_create; reflexivity).
  destruct (X5_spsc_batches_are_fifo 4 Hok Hle (SPSC.create (replicate 4 0))
              [1; 2; 3; 4; 5] 0 1%nat Hr ltac:(vm_compute; reflexivity))
    as (H1 & _).
  destruct (X5_spsc_batches_are_fifo 4 Hok Hle (SPSC.create (replicate 4 0))
              [1; 2; 3] 0 1%nat Hr ltac:(vm_compute; reflexivity))
    as (_ & _ & _ & _ & _ & H6).
  split; [exact H1|].
  exact (H6 (replicate 4 0) eq_refl ltac:(vm_compute; discriminate)).
Defined.

(** ** The control loop: tempo tracking *)

Section ControlLoop.
Import TimeKeeper AppLogic.

Lemma gated_sync avg tk :
  10000 <= avg <= 50000 ->
  syncToMIDIClock avg tk = setSamplesPerBeat (exactSamplesPerBeat avg) tk /\
  10584 <= exactSamplesPerBeat avg <= 52920.
Proof.
  intros Havg.
  assert (Hr : 10584 <= exactSamplesPerBeat avg <= 52920)
    by (unfold exactSamplesPerBeat; Z.div_mod_to_equations; lia).
  split; [|exact Hr].
  rewrite sync_accepts_or_rejects by (unfold is_u32; lia).
  destruct (Z.leb_spec 8000 (exactSamplesPerBeat avg));
    destruct (Z.leb_spec (exactSamplesPerBeat avg) 100000); try lia.
  reflexivity.
Qed.

Lemma incrementTick_counts tk :
  wf tk -> s_tickInBeat tk < 24 ->
  s_tickInBeat (incrementTick tk) = (s_tickInBeat tk + 1) mod 24 /\
  s_beatNumber (incrementTick tk) = u32 (s_beatNumber tk + (s_tickInBeat tk + 1) / 24) /\
  s_samplesPerBeat (incrementTick tk) = s_samplesPerBeat tk /\
  s_samplePosition (incrementTick tk) = s_samplePosition tk.
Proof.
  intros Hwf Hlt. destruct (iter_incrementTick 1 tk Hwf Hlt) as (_ & H1 & H2).
  simpl in H1, H2. rewrite H1, H2. repeat split.
  - rewrite (incrementTick_next tk Hwf Hlt). destruct (_ =? _); reflexivity.
  - rewrite (incrementTick_next tk Hwf Hlt). destruct (_ =? _); reflexivity.
Qed.

Lemma setSamplesPerBeat_wf n tk :
  is_u32 n -> wf tk -> wf (setSamplesPerBeat n tk).
Proof. intros Hn (Hp & Hb & Ht & _). unfold wf. simpl. auto. Qed.

(** X6. One clock tick while the transport is active. The timestamp is
    recorded and the tick counter advances by one. When there is an earlier
    timestamp and the period since then, taken modulo 2^32, lies in
    [10000, 50000], the estimate becomes floor((9 avg + period) / 10), which
    lies between the old estimate and the period, and the sync it triggers is
    always accepted: samplesPerBeat becomes floor(avg' * 1.0584), between 10584 and
    52920. Otherwise estimate and samplesPerBeat stay as they were. The
    estimate never leaves [10000, 50000]. *)
Theorem X6_clock_tick_tracks_tempo (a : AppLogic.t) (clockMicros : Z) :
  tempo_ok a -> s_transportActive a = true ->
  let period := u32 (clockMicros - s_lastTickMicros a) in
  let gated := (0 <? s_lastTickMicros a) && ((10000 <=? period) && (period <=? 50000)) in
  let a' := processClockTick clockMicros a in
  tempo_ok a' /\ s_lastTickMicros a' = clockMicros /\
  s_transportActive a' = true /\
  s_tickInBeat (timeline a') = (s_tickInBeat (timeline a) + 1) mod 24 /\
  (gated = true ->
     s_avgTickPeriodUs a' = (9 * s_avgTickPeriodUs a + period) / 10 /\
     Z.min (s_avgTickPeriodUs a) period <= s_avgTickPeriodUs a'
       <= Z.max (s_avgTickPeriodUs a) period /\
     s_samplesPerBeat (timeline a') = exactSamplesPerBeat (s_avgTickPeriodUs a') /\
     10584 <= s_samplesPerBeat (timeline a') <= 52920) /\
  (gated = false ->
     s_avgTickPeriodUs a' = s_avgTickPeriodUs a /\
     s_samplesPerBeat (timeline a') = s_samplesPerBeat (timeline a)).
Proof.
  intros (Havg & Hwf & Hlt) Hact period gated a'.
  unfold a', processClockTick. rewrite Hact. cbn [negb]. fold period.
  destruct (0 <? s_lastTickMicros a) eqn:Hlast;
    [destruct ((10000 <=? period) && (period <=? 50000)) eqn:Hgate|];
    unfold gated; rewrite ?Hlast, ?Hgate; cbn [andb];
    cbn [ledPin s_ledOffSample s_transportActive s_lastTickMicros
         s_avgTickPeriodUs timeline].
  - apply andb_true_iff in Hgate. destruct Hgate as (G1 & G2).
    apply Z.leb_le in G1, G2.
    assert (E9 : u32 (s_avgTickPeriodUs a * 9) = 9 * s_avgTickPeriodUs a)
      by (rewrite u32_small; [lia | unfold is_u32; lia]).
    rewrite E9. rewrite (u32_small (9 * s_avgTickPeriodUs a + period))
      by (unfold is_u32; lia).
    set (avg := (9 * s_avgTickPeriodUs a + period) / 10).
    assert (Hb : Z.min (s_avgTickPeriodUs a) period <= avg
                 <= Z.max (s_avgTickPeriodUs a) period)
      by (unfold avg; Z.div_mod_to_equations; lia).
    assert (Havg' : 10000 <= avg <= 50000) by lia.
    destruct (gated_sync avg (timeline a) Havg') as (Hsync & Hr).
    rewrite Hsync.
    assert (Hwf1 : wf (setSamplesPerBeat (exactSamplesPerBeat avg) (timeline a)))
      by (apply setSamplesPerBeat_wf; [unfold is_u32; lia | exact Hwf]).
    destruct (incrementTick_counts _ Hwf1 Hlt) as (T1 & _ & T3 & _).
    destruct (incrementTick_wf _ Hwf1 Hlt) as (W1 & W2).
    pose proof W1 as W1'. unfold wf, is_u32, is_u64 in W1'.
    rewrite T1, T3. cbn [setSamplesPerBeat s_tickInBeat s_samplesPerBeat].
    unfold tempo_ok. cbn [s_avgTickPeriodUs timeline].
    repeat split; auto; try lia; try discriminate.
  - destruct (incrementTick_counts _ Hwf Hlt) as (T1 & _ & T3 & _).
    destruct (incrementTick_wf _ Hwf Hlt) as (W1 & W2).
    pose proof W1 as W1'. unfold wf, is_u32, is_u64 in W1'.
    rewrite T1, T3. unfold tempo_ok. cbn [s_avgTickPeriodUs timeline].
    repeat split; auto; try lia; try discriminate.
  - destruct (incrementTick_counts _ Hwf Hlt) as (T1 & _ & T3 & _).
    destruct (incrementTick_wf _ Hwf Hlt) as (W1 & W2).
    pose proof W1 as W1'. unfold wf, is_u32, is_u64 in W1'.
    rewrite T1, T3. unfold tempo_ok. cbn [s_avgTickPeriodUs timeline].
    repeat split; auto; try lia; try discriminate.
Qed.

Lemma processClockTicks_fold (fuel : nat) : forall (c0 : Z) (q : SPSC.t) (a : AppLogic.t),
  SPSC.inv 256 q -> SPSC.stored q < Z.of_nat fuel ->
  processClockTicks fuel c0 q a =
    (SPSC.mk (SPSC.buffer q) (SPSC.writeIdx q) (SPSC.writeIdx q),
     foldl (fun a c => processClockTick c a) a (SPSC.contents 256 q)).
Proof.
  assert (Hok : SPSC.size_ok 256) by (unfold SPSC.size_ok; vm_compute; auto).
  assert (Hle : 256 <= 2 ^ 32) by lia.
  induction fuel as [|fuel IH]; intros c0 q a Hinv Hfuel.
  - pose proof (u32_range (SPSC.writeIdx q - SPSC.readIdx q)) as Hd.
    change (0 <= SPSC.stored q < 2 ^ 32) in Hd. lia.
  - cbn [processClockTicks].
    destruct (Z.eq_dec (SPSC.readIdx q) (SPSC.writeIdx q)) as [E|E].
    + unfold SPSC.pop. rewrite E, Z.eqb_refl.
      assert (H0 : SPSC.stored q = 0) by (apply (empty_iff 256 q Hinv); exact E).
      unfold SPSC.contents. rewrite H0. destruct q; simpl in *. subst.
      reflexivity.
    + destruct (contents_pop 256 Hok Hle c0 q Hinv E) as (x & Hp & Hc).
      destruct (stored_after_pop 256 q Hinv E) as (Hst & H1).
      rewrite Hp in *. cbn [snd] in Hc.
      set (q1 := SPSC.mk (SPSC.buffer q) (SPSC.writeIdx q)
                   (u32 (SPSC.readIdx q + 1))) in *.
      assert (Hinv1 : SPSC.inv 256 q1).
      { pose proof (pop_inv 256 c0 q Hinv) as P. rewrite Hp in P. exact P. }
      assert (Hst1 : SPSC.stored q1 = SPSC.stored q - 1) by exact Hst.
      rewrite (IH x q1 (processClockTick x a) Hinv1) by lia.
      rewrite Hc. reflexivity.
Qed.

Lemma processClockTick_counts (c : Z) (a : AppLogic.t) :
  tempo_ok a -> s_transportActive a = true ->
  let a' := processClockTick c a in
  tempo_ok a' /\ s_transportActive a' = true /\ s_lastTickMicros a' = c /\
  s_tickInBeat (timeline a') = (s_tickInBeat (timeline a) + 1) mod 24 /\
  s_beatNumber (timeline a') =
    u32 (s_beatNumber (timeline a) + (s_tickInBeat (timeline a) + 1) / 24) /\
  s_samplePosition (timeline a') = s_samplePosition (timeline a).
Proof.
  intros (Havg & Hwf & Hlt) Hact a'.
  unfold a', processClockTick. rewrite Hact. cbn [negb].
  set (period := u32 (c - s_lastTickMicros a)).
  assert (Hgen : forall a1 : AppLogic.t,
    tempo_ok a1 -> s_transportActive a1 = true ->
    s_tickInBeat (timeline a1) = s_tickInBeat (timeline a) ->
    s_beatNumber (timeline a1) = s_beatNumber (timeline a) ->
    s_samplePosition (timeline a1) = s_samplePosition (timeline a) ->
    let a2 := AppLogic.mk (ledPin a1) (s_ledOffSample a1) (s_transportActive a1) c
                (s_avgTickPeriodUs a1) (incrementTick (timeline a1)) in
    tempo_ok a2 /\ s_transportActive a2 = true /\ s_lastTickMicros a2 = c /\
    s_tickInBeat (timeline a2) = (s_tickInBeat (timeline a) + 1) mod 24 /\
    s_beatNumber (timeline a2) =
      u32 (s_beatNumber (timeline a) + (s_tickInBeat (timeline a) + 1) / 24) /\
    s_samplePosition (timeline a2) = s_samplePosition (timeline a)).
  { intros a1 (Ha1 & Hwf1 & Hlt1) Hact1 Et Eb Ep a2. unfold a2.
    destruct (incrementTick_counts _ Hwf1 Hlt1) as (T1 & T2 & _ & T4).
    destruct (incrementTick_wf _ Hwf1 Hlt1) as (W1 & W2).
    unfold tempo_ok.
    cbn [s_avgTickPeriodUs timeline s_transportActive s_lastTickMicros].
    rewrite T1, T2, T4, Et, Eb, Ep.
    split; [split; [exact Ha1 | split; [exact W1 | rewrite <- Et, <- T1; exact W2]]|].
    auto. }
  destruct (0 <? s_lastTickMicros a);
    [destruct ((10000 <=? period) && (period <=? 50000)) eqn:Hgate|];
    try (apply Hgen; [split; [exact Havg | split; assumption] | auto ..]).
  apply andb_true_iff in Hgate. destruct Hgate as (G1 & G2).
  apply Z.leb_le in G1, G2.
  rewrite (u32_small (s_avgTickPeriodUs a * 9)) by (unfold is_u32; lia).
  rewrite (u32_small (s_avgTickPeriodUs a * 9 + period)) by (unfold is_u32; lia).
  set (avg := (s_avgTickPeriodUs a * 9 + period) / 10).
  assert (Havg' : 10000 <= avg <= 50000)
    by (unfold avg; Z.div_mod_to_equations; lia).
  destruct (gated_sync avg (timeline a) Havg') as (Hsync & Hr).
  rewrite Hsync.
  apply Hgen; cbn [s_avgTickPeriodUs timeline s_transportActive]; auto.
  split; [exact Havg'|]. split; [|exact Hlt].
  apply setSamplesPerBeat_wf; [unfold is_u32; lia | exact Hwf].
Qed.

Lemma last_shift (cs : list Z) : forall c d : Z,
  List.last (c :: cs) d = List.last cs c.
Proof.
  induction cs as [|x cs IH]; intros c d; [reflexivity|].
  change (List.last (c :: x :: cs) d) with (List.last (x :: cs) d).
  rewrite !IH. reflexivity.
Qed.

Lemma clock_ticks_counted (cs : list Z) : forall a : AppLogic.t,
  tempo_ok a -> s_transportActive a = true ->
  let a' := foldl (fun a c => processClockTick c a) a cs in
  tempo_ok a' /\ s_transportActive a' = true /\
  s_lastTickMicros a' = List.last cs (s_lastTickMicros a) /\
  s_tickInBeat (timeline a') =
    (s_tickInBeat (timeline a) + Z.of_nat (length cs)) mod 24 /\
  s_beatNumber (timeline a') =
    u32 (s_beatNumber (timeline a)
         + (s_tickInBeat (timeline a) + Z.of_nat (length cs)) / 24) /\
  s_samplePosition (timeline a') = s_samplePosition (timeline a).
Proof.
  induction cs as [|c cs IH]; intros a Hok Hact.
  - cbn [foldl length List.last]. pose proof Hok as (_ & (_ & Hb & Ht & _) & Hlt).
    unfold is_u32 in Ht. change (Z.of_nat 0) with 0.
    rewrite Z.add_0_r, Z.mod_small, Z.div_small, Z.add_0_r by lia.
    rewrite u32_small by exact Hb. repeat (split; [first [assumption|reflexivity]|]).
    reflexivity.
  - cbn [foldl].
    destruct (processClockTick_counts c a Hok Hact) as (K1 & K2 & K3 & K4 & K5 & K6).
    destruct (IH _ K1 K2) as (I1 & I2 & I3 & I4 & I5 & I6).
    cbv zeta. rewrite I3, I4, I5, I6, K3, K4, K5, K6.
    pose proof Hok as (_ & (_ & Hb & Ht & _) & Hlt).
    split; [exact I1|]. split; [exact I2|].
    split; [symmetry; apply last_shift|].
    replace (Z.of_nat (length (c :: cs))) with (Z.of_nat (length cs) + 1)
      by (cbn [length]; lia).
    set (n := Z.of_nat (length cs)). assert (Hn : 0 <= n) by lia.
    set (tk := s_tickInBeat (timeline a)) in *.
    split; [|split; [|reflexivity]].
    + rewrite Zplus_mod_idemp_l. f_equal. lia.
    + unfold u32. rewrite Zplus_mod_idemp_l. f_equal.
      Z.div_mod_to_equations. lia.
Qed.

(** X7. The loop over the clock queue. Run with more iterations than there
    are queued timestamps, it empties the queue. While the transport is
    inactive every timestamp is dropped and nothing else changes. While it is
    active each queued timestamp counts as one tick: the tick counter
    advances by their number modulo 24, the beat counter by the carries
    (modulo 2^32), the sample position is untouched, the last queued
    timestamp is what is remembered, and the tempo estimate stays in
    [10000, 50000]. *)
Theorem X7_clock_queue_counts_ticks (fuel : nat) (c0 : Z) (q : SPSC.t) (a : AppLogic.t) :
  SPSC.reachable 256 q -> SPSC.stored q < Z.of_nat fuel -> tempo_ok a ->
  let q' := fst (processClockTicks fuel c0 q a) in
  let a' := snd (processClockTicks fuel c0 q a) in
  let n := SPSC.stored q in
  SPSC.isEmpty q' = true /\ SPSC.writeIdx q' = SPSC.writeIdx q /\
  (s_transportActive a = false -> a' = a) /\
  (s_transportActive a = true ->
     tempo_ok a' /\ s_transportActive a' = true /\
     s_lastTickMicros a' = List.last (SPSC.contents 256 q) (s_lastTickMicros a) /\
     s_tickInBeat (timeline a') = (s_tickInBeat (timeline a) + n) mod 24 /\
     s_beatNumber (timeline a') =
       u32 (s_beatNumber (timeline a) + (s_tickInBeat (timeline a) + n) / 24) /\
     s_samplePosition (timeline a') = s_samplePosition (timeline a)).
Proof.
  intros Hreach Hfuel Hok q' a' n.
  assert (Hsz : SPSC.size_ok 256) by (unfold SPSC.size_ok; vm_compute; auto).
  pose proof (reachable_inv 256 Hsz ltac:(lia) q Hreach) as Hinv.
  unfold q', a'. rewrite (processClockTicks_fold fuel c0 q a Hinv Hfuel).
  cbn [fst snd SPSC.writeIdx SPSC.readIdx].
  split; [apply Z.eqb_refl|]. split; [reflexivity|]. split.
  - intros Hoff. generalize (SPSC.contents 256 q) as cs.
    induction cs as [|c cs IH]; [reflexivity|].
    cbn [foldl]. unfold processClockTick at 2. rewrite Hoff. exact IH.
  - intros Hact.
    assert (Hlen : Z.of_nat (length (SPSC.contents 256 q)) = n).
    { unfold SPSC.contents.
      rewrite (slots_length 256 Hsz ltac:(lia)) by apply Hinv.
      pose proof (u32_range (SPSC.writeIdx q - SPSC.readIdx q)) as Hd.
      unfold is_u32 in Hd. unfold n, SPSC.stored. lia. }
    rewrite <- Hlen. apply clock_ticks_counted; assumption.
Qed.

End ControlLoop.

Lemma X6_clock_tick_tracks_tempo_witness :
  let a := AppLogic.mk false 0 true 1000 20833 TimeKeeper.initial in
  AppLogic.s_avgTickPeriodUs (AppLogic.processClockTick 26000 a) = 21249 /\
  TimeKeeper.s_samplesPerBeat (AppLogic.timeline (AppLogic.processClockTick 26000 a))
    = 22489.
Proof.
  intros a.
  assert (Hok : AppLogic.tempo_ok a) by (vm_compute; intuition congruence).
  destruct (X6_clock_tick_tracks_tempo a 26000 Hok eq_refl)
    as (_ & _ & _ & _ & Hg & _).
  destruct (Hg eq_refl) as (H1 & _ & H2 & _).
  split; [rewrite H1 | rewrite H2, H1]; reflexivity.
Defined.

Lemma X7_clock_queue_counts_ticks_witness :
  let q := SPSC.pushAll 256 [1000; 22000; 43000] (SPSC.create (replicate 256 0)) in
  let a := AppLogic.mk false 0 true 0 20833 TimeKeeper.initial in
  TimeKeeper.s_tickInBeat
    (AppLogic.timeline (snd (AppLogic.processClockTicks 4 0 q a))) = 3.
Proof.
  intros q a.
  assert (Hreach : SPSC.reachable 256 q).
  { unfold q, SPSC.pushAll. cbn [foldl].
    do 3 apply SPSC.reach_push. apply SPSC.reach_create. reflexivity. }
  assert (Hok : AppLogic.tempo_ok a) by (vm_compute; intuition congruence).
  assert (Hfuel : SPSC.stored q < Z.of_nat 4) by (vm_compute; reflexivity).
  destruct (X7_clock_queue_counts_ticks 4 0 q a Hreach Hfuel Hok)
    as (_ & _ & _ & Hact).
  destruct (Hact eq_refl) as (_ & _ & _ & Ht & _).
  rewrite Ht. vm_compute. reflexivity.
Defined.

(** ** The CHOKE engine's blocks and schedules *)

Section ChokeBlocks.
Context {F : Float32}.
Import Choke.

Lemma applyGainRamp_shape (data : block) (inc : float) : forall g : float,
  length (snd (applyGainRamp data inc g)) = length data /\
  int16_block (snd (applyGainRamp data inc g)).
Proof.
  induction data as [|x rest IH]; intros g; cbn [applyGainRamp].
  - split; [reflexivity | constructor].
  - destruct (rampSample inc g x) as [g1 y] eqn:Ey.
    specialize (IH g1). destruct (applyGainRamp rest inc g1) as [g2 ys].
    cbn [snd length] in *. destruct IH as (Hl & Hf).
    split; [congruence|]. constructor; [|exact Hf].
    unfold rampSample in Ey. injection Ey as _ <-.
    repeat match goal with |- context [?a <? ?b] => destruct (Z.ltb_spec a b) end;
      lia.
Qed.

Lemma rampChannel_mirrors (b : option block) (inc : float) (s : t) :
  mirrors b (snd (rampChannel b inc s)).
Proof.
  unfold rampChannel, mirrors. destruct b as [data|]; [|exact I].
  pose proof (applyGainRamp_shape data inc (m_currentGain s)) as H.
  destruct (applyGainRamp data inc (m_currentGain s)). exact H.
Qed.

(** X8. Whatever the floating-point arithmetic does, a CHOKE block has the
    shape of its input: a channel is transmitted exactly when its input
    block was received, with as many samples, every one of them within the
    16-bit range [-32768, 32767]. *)
Theorem X8_choke_output_is_clamped (c : Z) (io : BlockIO) (s : t) :
  mirrors (in0 io) (fst (snd (update c io s))) /\
  mirrors (in1 io) (snd (snd (update c io s))).
Proof.
  unfold update. set (s1 := checkRelease c (checkOnset c s)).
  set (inc := f_div (f_sub (m_targetGain s1) (m_currentGain s1)) FADE_SAMPLES).
  pose proof (rampChannel_mirrors (in0 io) inc s1) as H1.
  destruct (rampChannel (in0 io) inc s1) as [s2 outL].
  pose proof (rampChannel_mirrors (in1 io) inc s2) as H2.
  destruct (rampChannel (in1 io) inc s2) as [s3 outR].
  split; assumption.
Qed.

Lemma update_missed (at_ c : Z) (io : BlockIO) (s : t) :
  at_ < c -> m_onsetAtSample s = at_ -> m_isEnabled s = false -> coherent s ->
  let s' := fst (update c io s) in
  m_onsetAtSample s' = at_ /\ m_isEnabled s' = false /\ coherent s'.
Proof.
  intros Hlate Hat Hoff Hco s'.
  destruct (update_control c io s) as (C1 & C2 & _ & _ & _ & C6). fold s' in C1, C2, C6.
  unfold coherent. rewrite C1, C2, C6.
  assert (E : checkOnset c s = s).
  { unfold checkOnset, inBlock. rewrite Hat.
    destruct (Z.leb_spec c at_); [lia|]. rewrite andb_false_r. reflexivity. }
  rewrite E. unfold checkRelease.
  destruct (inBlock (m_releaseAtSample s) c); cbn; auto.
Qed.

(** X9. The CHOKE onset schedule fires only in the block that contains it.
    A block whose range [c, c + 128) holds the scheduled sample engages the
    effect (unless the release is due in the same block, which wins) and
    clears the schedule. A schedule the sample position has already passed
    never fires: however many later blocks are processed, the effect stays
    disengaged, unmuted, and the schedule stays pending. *)
Theorem X9_choke_onset_fires_only_in_its_block
    (at_ : Z) (blocks : list (Z * BlockIO)) (s : t) :
  0 < at_ -> m_isEnabled s = false -> coherent s ->
  (forall c io, 0 <= c -> c + 128 < 2 ^ 64 -> c <= at_ < c + 128 ->
     let s1 := fst (update c io (scheduleOnset at_ s)) in
     m_onsetAtSample s1 = 0 /\
     m_isEnabled s1 = negb (inBlock (m_releaseAtSample s) c)) /\
  (Forall (fun p => at_ < fst p) blocks ->
     let s' := run (updates blocks) (scheduleOnset at_ s) in
     m_isEnabled s' = false /\ m_targetGain s' = f_one /\
     m_onsetAtSample s' = at_).
Proof.
  intros Hpos Hoff Hco. split.
  - intros c io Hc Hend Hin s1.
    destruct (update_control c io (scheduleOnset at_ s)) as (_ & C2 & _ & _ & _ & C6).
    fold s1 in C2, C6. rewrite C2, C6.
    assert (E : inBlock at_ c = true) by (apply inBlock_spec; lia).
    unfold checkOnset. cbn [scheduleOnset m_onsetAtSample]. rewrite E.
    unfold checkRelease. cbn [scheduleOnset set_target m_releaseAtSample].
    destruct (inBlock (m_releaseAtSample s) c); cbn; auto.
  - intros Hall s'.
    assert (Hgen : forall s0 : t,
      m_onsetAtSample s0 = at_ -> m_isEnabled s0 = false -> coherent s0 ->
      m_onsetAtSample (run (updates blocks) s0) = at_ /\
      m_isEnabled (run (updates blocks) s0) = false /\
      coherent (run (updates blocks) s0)).
    { induction Hall as [|[c io] rest Hc _ IH]; intros s0 H1 H2 H3.
      - cbn. auto.
      - cbn [updates map run foldl fst snd step].
        destruct (update_missed at_ c io s0 Hc H1 H2 H3) as (U1 & U2 & U3).
        apply IH; assumption. }
    destruct (Hgen (scheduleOnset at_ s)) as (G1 & G2 & G3);
      [reflexivity | exact Hoff | exact Hco |].
    fold s' in G1, G2, G3. unfold coherent in G3. rewrite G2 in G3. auto.
Qed.

End ChokeBlocks.

Lemma X9_choke_onset_fires_only_in_its_block_witness :
  let s := Choke.run
             (Choke.updates [(128, mkIO None None true true);
                             (256, mkIO None None true true)])
             (Choke.scheduleOnset 100 (Choke.initial (F := ExactGain))) in
  Choke.m_isEnabled s = false /\ Choke.m_onsetAtSample s = 100.
Proof.
  intros s.
  destruct (X9_choke_onset_fires_only_in_its_block (F := ExactGain) 100
              [(128, mkIO None None true true); (256, mkIO None None true true)]
              Choke.initial ltac:(lia) eq_refl eq_refl) as (_ & H).
  destruct H as (H1 & _ & H3).
  - repeat constructor; cbn; lia.
  - split; assumption.
Defined.

(** ** The FREEZE engine's ring *)

Section FreezeRing.
Import Freeze.

Lemma FREEZE_BUFFER_SAMPLES_value : FREEZE_BUFFER_SAMPLES = 132.
Proof. reflexivity. Qed.

Lemma next_pos (p : Z) :
  0 <= p < 132 ->
  (if FREEZE_BUFFER_SAMPLES <=? u32 (p + 1) then 0 else u32 (p + 1))
    = (p + 1) mod 132.
Proof.
  intros Hp. rewrite FREEZE_BUFFER_SAMPLES_value.
  rewrite u32_small by (unfold is_u32; lia).
  destruct (Z.leb_spec 132 (p + 1)).
  - replace (p + 1) with 132 by lia. reflexivity.
  - rewrite Z.mod_small by lia. reflexivity.
Qed.

(** Writing at the write position and advancing it slides the window. *)
Lemma unrolled_write {A : Type} (L : Z) (buf : list A) (w : Z) (x : A) :
  Z.of_nat (length buf) = L -> 0 <= w < L ->
  unrolled (<[Z.to_nat w := x]> buf) ((w + 1) mod L)
    = drop 1 (unrolled buf w ++ [x]).
Proof.
  intros Hlen Hw. unfold unrolled.
  set (n := Z.to_nat w). assert (Hlt : (n < length buf)%nat) by lia.
  destruct (lookup_lt_is_Some_2 buf n Hlt) as (y & Hy).
  assert (Hrhs : drop 1 ((drop n buf ++ take n buf) ++ [x])
                 = drop (S n) buf ++ take n buf ++ [x]).
  { rewrite (drop_S buf y n Hy), <- app_assoc. reflexivity. }
  assert (Htake : take (S n) (<[n:=x]> buf) = take n buf ++ [x]).
  { rewrite (take_S_r (<[n:=x]> buf) n x).
    - rewrite take_insert_ge by lia. reflexivity.
    - rewrite list_lookup_insert, decide_True by (split; [reflexivity|lia]).
      reflexivity. }
  rewrite Hrhs. destruct (Z.eq_dec (w + 1) L) as [E|Hne].
  - rewrite E, Z.mod_same by lia.
    change (Z.to_nat 0) with 0%nat. rewrite drop_0, take_0, app_nil_r.
    rewrite (drop_ge buf (S n)) by lia. cbn [app]. rewrite <- Htake.
    rewrite take_ge; [reflexivity|]. rewrite length_insert. lia.
  - rewrite Z.mod_small by lia.
    replace (Z.to_nat (w + 1)) with (S n) by lia.
    rewrite drop_insert_lt by lia. rewrite Htake. reflexivity.
Qed.

Lemma unrolled_length {A : Type} (buf : list A) (p : Z) :
  length (unrolled buf p) = length buf.
Proof.
  unfold unrolled. rewrite length_app, length_drop, length_take. lia.
Qed.

Lemma unrolled_lookup {A : Type} `{Inhabited A} (L : Z) (buf : list A)
    (r : Z) (j : nat) :
  Z.of_nat (length buf) = L -> 0 <= r < L -> Z.of_nat j < L ->
  unrolled buf r !!! j = buf !!! Z.to_nat ((r + Z.of_nat j) mod L).
Proof.
  intros Hlen Hr Hj. unfold unrolled.
  destruct (Z_lt_dec (r + Z.of_nat j) L) as [Hlt|Hge].
  - rewrite lookup_total_app_l by (rewrite length_drop; lia).
    rewrite lookup_total_drop, Z.mod_small by lia. f_equal. lia.
  - rewrite lookup_total_app_r by (rewrite length_drop; lia).
    rewrite length_drop, lookup_total_take.
    rewrite decide_True by lia.
    replace ((r + Z.of_nat j) mod L) with (r + Z.of_nat j - L)
      by (apply Z.mod_unique with 1; lia).
    f_equal. lia.
Qed.

Lemma writeSample_wf l r s : wf s -> wf (writeSample l r s).
Proof.
  intros (HL & HR & Hw & Hr). rewrite FREEZE_BUFFER_SAMPLES_value in *.
  unfold wf, writeSample.
  cbn [m_freezeBufferL m_freezeBufferR m_writePos m_readPos].
  rewrite !length_insert, next_pos by exact Hw.
  rewrite FREEZE_BUFFER_SAMPLES_value.
  pose proof (Z.mod_pos_bound (m_writePos s + 1) 132). auto with zarith.
Qed.

Lemma recordLoop_wf n : forall i dl dr s,
  wf s -> wf (recordLoop n i dl dr s).
Proof.
  induction n as [|n IH]; intros i dl dr s H; cbn [recordLoop]; [exact H|].
  apply IH, writeSample_wf, H.
Qed.

Lemma playLoop_wf n : forall s, wf s -> wf (fst (playLoop n s)).
Proof.
  induction n as [|n IH]; intros s H; cbn [playLoop]; [exact H|].
  set (s1 := set_readPos _ s).
  assert (H1 : wf s1).
  { destruct H as (HL & HR & Hw & Hr). rewrite FREEZE_BUFFER_SAMPLES_value in *.
    unfold wf, s1, set_readPos.
    cbn [m_freezeBufferL m_freezeBufferR m_writePos m_readPos].
    rewrite next_pos by exact Hr. rewrite FREEZE_BUFFER_SAMPLES_value.
    pose proof (Z.mod_pos_bound (m_readPos s + 1) 132). auto with zarith. }
  specialize (IH s1 H1). destruct (playLoop n s1) as [s2 [ls rs]]. exact IH.
Qed.

Lemma enable_wf s : wf s -> wf (set_enabled true (set_readPos (m_writePos s) s)).
Proof. intros (HL & HR & Hw & Hr). unfold wf. cbn. auto. Qed.

Lemma checks_wf c s : wf s -> wf (checkRelease c (checkOnset c s)).
Proof.
  intros H. unfold checkRelease, checkOnset.
  destruct (inBlock (m_onsetAtSample s) c).
  - pose proof (enable_wf s H) as (HL & HR & Hw & Hr).
    destruct (inBlock _ c); unfold wf; cbn in *; auto.
  - destruct (inBlock _ c); [|exact H].
    destruct H as (HL & HR & Hw & Hr). unfold wf. cbn. auto.
Qed.

Lemma update_wf c io s : wf s -> wf (fst (update c io s)).
Proof.
  intros H. unfold update. pose proof (checks_wf c s H) as H1.
  set (s1 := checkRelease c (checkOnset c s)) in *.
  destruct (m_isEnabled s1); cbn [negb].
  - destruct (alloc0 io && alloc1 io); [|exact H1].
    pose proof (playLoop_wf (Z.to_nat AUDIO_BLOCK_SAMPLES) s1 H1) as H2.
    destruct (playLoop _ s1) as [s2 [ls rs]]. exact H2.
  - destruct (in0 io), (in1 io); cbn [fst]; try exact H1.
    apply recordLoop_wf, H1.
Qed.

Lemma step_wf o s : wf s -> wf (fst (step o s)).
Proof.
  intros H. destruct o; cbn [step fst];
    try (apply update_wf, H);
    try (unfold freeze_toggle; destruct (freeze_isEnabled s));
    try (apply enable_wf, H);
    destruct H as (HL & HR & Hw & Hr); unfold wf; cbn; auto.
Qed.

Lemma run_wf ops : forall s, wf s -> wf (fst (run ops s)).
Proof.
  induction ops as [|o ops IH]; intros s H; cbn [run]; [exact H|].
  pose proof (step_wf o s H) as H1. destruct (step o s) as [s1 out].
  specialize (IH s1 H1). destruct (run ops s1) as [s2 outs]. exact IH.
Qed.

(** X10. Whatever is called on a FREEZE engine, in whatever order and with
    whatever blocks, both ring buffers keep their 132 samples and the write
    and read positions stay inside them: no access ever leaves a buffer. *)
Theorem X10_freeze_positions_stay_in_ring (ops : list op) :
  wf (fst (run ops initial)).
Proof.
  apply run_wf. unfold wf, initial, silence.
  cbn [m_freezeBufferL m_freezeBufferR m_writePos m_readPos].
  rewrite length_replicate, FREEZE_BUFFER_SAMPLES_value. lia.
Qed.

Lemma writeSample_unrolled l r s :
  wf s ->
  let s' := writeSample l r s in
  unrolled (m_freezeBufferL s') (m_writePos s')
    = drop 1 (unrolled (m_freezeBufferL s) (m_writePos s) ++ [l]) /\
  unrolled (m_freezeBufferR s') (m_writePos s')
    = drop 1 (unrolled (m_freezeBufferR s) (m_writePos s) ++ [r]).
Proof.
  intros (HL & HR & Hw & Hr) s'. rewrite FREEZE_BUFFER_SAMPLES_value in *.
  unfold s', writeSample. cbn [m_freezeBufferL m_freezeBufferR m_writePos].
  rewrite next_pos by exact Hw.
  split; apply unrolled_write; assumption.
Qed.

Lemma slide_step {A : Type} (U rest : list A) (x : A) (n : nat) :
  drop n (drop 1 (U ++ [x]) ++ rest) = drop (S n) (U ++ x :: rest).
Proof.
  rewrite <- (drop_app_le (U ++ [x]) rest 1) by (rewrite length_app; cbn; lia).
  rewrite drop_drop, <- app_assoc. reflexivity.
Qed.

Lemma recordLoop_unrolled n : forall i dl dr s,
  wf s -> (i + n <= length dl)%nat -> (i + n <= length dr)%nat ->
  let s' := recordLoop n i dl dr s in
  unrolled (m_freezeBufferL s') (m_writePos s')
    = drop n (unrolled (m_freezeBufferL s) (m_writePos s) ++ take n (drop i dl)) /\
  unrolled (m_freezeBufferR s') (m_writePos s')
    = drop n (unrolled (m_freezeBufferR s) (m_writePos s) ++ take n (drop i dr)) /\
  m_readPos s' = m_readPos s /\ m_isEnabled s' = m_isEnabled s /\
  m_releaseAtSample s' = m_releaseAtSample s /\
  m_onsetAtSample s' = m_onsetAtSample s.
Proof.
  induction n as [|n IH]; intros i dl dr s Hwf Hl Hr; cbn [recordLoop].
  - cbv zeta. rewrite !take_0, !app_nil_r, !drop_0. auto 10.
  - match goal with
    | |- context [recordLoop n (S i) dl dr (writeSample ?l ?r s)] =>
        destruct (writeSample_unrolled l r s Hwf) as (WL & WR);
        destruct (IH (S i) dl dr (writeSample l r s)
                    (writeSample_wf l r s Hwf) ltac:(lia) ltac:(lia))
          as (IL & IR & I3 & I4 & I5 & I6);
        cbv zeta in *; rewrite IL, IR, WL, WR, I3, I4, I5, I6;
        rewrite (drop_S dl l i) by (apply list_lookup_lookup_total_lt; lia);
        rewrite (drop_S dr r i) by (apply list_lookup_lookup_total_lt; lia)
    end.
    cbn [take]. rewrite !slide_step. auto 10.
Qed.

(** One block while the engine records. *)
Lemma update_recording c io s :
  wf s -> m_isEnabled s = false -> m_onsetAtSample s = 0 -> full_input io ->
  let s' := fst (update c io s) in
  snd (update c io s) = (in0 io, in1 io) /\
  wf s' /\ m_isEnabled s' = false /\ m_onsetAtSample s' = 0 /\
  (m_releaseAtSample s = 0 -> m_releaseAtSample s' = 0) /\
  unrolled (m_freezeBufferL s') (m_writePos s')
    = drop 128 (unrolled (m_freezeBufferL s) (m_writePos s)
                ++ default [] (in0 io)) /\
  unrolled (m_freezeBufferR s') (m_writePos s')
    = drop 128 (unrolled (m_freezeBufferR s) (m_writePos s)
                ++ default [] (in1 io)).
Proof.
  intros Hwf Hoff Hon Hfull s'. pose proof (update_wf c io s Hwf) as Hwf'.
  fold s' in Hwf'. revert Hwf'. unfold s', update.
  assert (E1 : checkOnset c s = s).
  { unfold checkOnset, inBlock. rewrite Hon. reflexivity. }
  rewrite E1. set (s1 := checkRelease c s).
  assert (H1 : wf s1 /\ m_isEnabled s1 = false /\ m_onsetAtSample s1 = 0 /\
               m_freezeBufferL s1 = m_freezeBufferL s /\
               m_freezeBufferR s1 = m_freezeBufferR s /\
               m_writePos s1 = m_writePos s /\
               (m_releaseAtSample s = 0 -> m_releaseAtSample s1 = 0)).
  { unfold s1, checkRelease. destruct (inBlock (m_releaseAtSample s) c);
      [|auto 10].
    destruct Hwf as (HL & HR & Hw & Hr). unfold wf. cbn. auto 10. }
  destruct H1 as (Hwf1 & Hoff1 & Hon1 & BL & BR & BW & Hrel).
  rewrite Hoff1. cbn [negb]. unfold full_input in Hfull.
  destruct (in0 io) as [dl|]; [|contradiction].
  destruct (in1 io) as [dr|]; [|contradiction].
  destruct Hfull as (Hl & Hr). unfold AUDIO_BLOCK_SAMPLES in *.
  cbn [fst snd default from_option id]. intros Hwf'.
  destruct (recordLoop_unrolled (Z.to_nat 128) 0 dl dr s1 Hwf1
              ltac:(lia) ltac:(lia)) as (RL & RR & _ & R4 & R5 & R6).
  cbv zeta in RL, RR, R4, R5, R6. rewrite RL, RR, R4, R5, R6, BL, BR, BW.
  rewrite !drop_0, !take_ge by lia.
  change (Z.to_nat 128) with 128%nat. auto 10.
Qed.

Lemma run_recording blocks : forall s,
  wf s -> m_isEnabled s = false -> m_onsetAtSample s = 0 ->
  Forall (fun p => full_input (snd p)) blocks ->
  let s' := fst (run (updates blocks) s) in
  snd (run (updates blocks) s) = inputs blocks /\
  wf s' /\ m_isEnabled s' = false /\ m_onsetAtSample s' = 0 /\
  (m_releaseAtSample s = 0 -> m_releaseAtSample s' = 0) /\
  unrolled (m_freezeBufferL s') (m_writePos s')
    = drop (128 * length blocks)
        (unrolled (m_freezeBufferL s) (m_writePos s)
         ++ left_stream (inputs blocks)) /\
  unrolled (m_freezeBufferR s') (m_writePos s')
    = drop (128 * length blocks)
        (unrolled (m_freezeBufferR s) (m_writePos s)
         ++ right_stream (inputs blocks)).
Proof.
  induction blocks as [|[c io] rest IH]; intros s Hwf Hoff Hon Hall.
  - cbn. unfold left_stream, right_stream. cbn. rewrite !app_nil_r. auto 10.
  - apply Forall_cons in Hall. destruct Hall as (Hio & Hall). cbn [snd] in Hio.
    destruct (update_recording c io s Hwf Hoff Hon Hio)
      as (U1 & U2 & U3 & U4 & U5 & U6 & U7).
    cbn [updates map run step fst snd].
    destruct (update c io s) as [s1 out]. cbn [fst snd] in *.
    specialize (IH s1 U2 U3 U4 Hall).
    fold (updates rest). destruct (run (updates rest) s1) as [s2 outs].
    cbn [fst snd] in *. destruct IH as (I1 & I2 & I3 & I4 & I5 & I6 & I7).
    rewrite I1, U1, I6, I7, U6, U7.
    unfold inputs, left_stream, right_stream. cbn [map concat fst snd length].
    fold (inputs rest).
    assert (HlenL : length (unrolled (m_freezeBufferL s) (m_writePos s)) = 132%nat)
      by (rewrite unrolled_length; destruct Hwf as (H & _);
          rewrite FREEZE_BUFFER_SAMPLES_value in H; lia).
    assert (HlenR : length (unrolled (m_freezeBufferR s) (m_writePos s)) = 132%nat)
      by (rewrite unrolled_length; destruct Hwf as (_ & H & _);
          rewrite FREEZE_BUFFER_SAMPLES_value in H; lia).
    rewrite <- !(drop_app_le _ _ 128) by (rewrite length_app; lia).
    rewrite !drop_drop, <- !app_assoc.
    replace (128 * S (length rest))%nat with (128 + 128 * length rest)%nat by lia.
    auto 10.
Qed.

Lemma ring_read_shift (m : Z) (buf : list Z) (r : Z) (a n : nat) :
  ring_read m buf ((r + Z.of_nat a) mod m) n
    = map (fun k => buf !!! Z.to_nat ((r + Z.of_nat k) mod m)) (seq a n).
Proof.
  unfold ring_read.
  replace (seq a n) with (seq (a + 0) n) by (f_equal; lia).
  rewrite <- (fmap_add_seq a 0 n), <- list_fmap_compose.
  apply map_ext. intros k. cbn. rewrite Zplus_mod_idemp_l.
  do 3 f_equal. lia.
Qed.

Lemma ring_read_app (m : Z) (buf : list Z) (r : Z) (a n : nat) :
  ring_read m buf r (a + n)
    = ring_read m buf r a ++ ring_read m buf ((r + Z.of_nat a) mod m) n.
Proof.
  rewrite ring_read_shift. unfold ring_read.
  rewrite seq_app, map_app. reflexivity.
Qed.

Lemma ring_read_one (m : Z) (buf : list Z) (r : Z) :
  0 <= r < m -> ring_read m buf r 1 = [buf !!! Z.to_nat r].
Proof.
  intros Hr. unfold ring_read. cbn [seq map].
  rewrite Z.add_0_r, Z.mod_small by lia. reflexivity.
Qed.

Lemma playLoop_ring n : forall s,
  wf s ->
  playLoop n s =
    (set_readPos ((m_readPos s + Z.of_nat n) mod 132) s,
     (ring_read 132 (m_freezeBufferL s) (m_readPos s) n,
      ring_read 132 (m_freezeBufferR s) (m_readPos s) n)).
Proof.
  induction n as [|n IH]; intros s Hwf.
  - pose proof Hwf as (_ & _ & _ & Hr). rewrite FREEZE_BUFFER_SAMPLES_value in Hr.
    cbn [playLoop]. rewrite Z.add_0_r, Z.mod_small by lia.
    destruct s; reflexivity.
  - pose proof Hwf as (HL & HR & Hw & Hr).
    rewrite FREEZE_BUFFER_SAMPLES_value in Hr.
    cbn [playLoop]. rewrite next_pos by exact Hr.
    set (s1 := set_readPos ((m_readPos s + 1) mod 132) s).
    assert (Hwf1 : wf s1).
    { unfold wf, s1. cbn. rewrite FREEZE_BUFFER_SAMPLES_value in *.
      pose proof (Z.mod_pos_bound (m_readPos s + 1) 132). auto with zarith. }
    rewrite (IH s1 Hwf1).
    change (m_freezeBufferL s1) with (m_freezeBufferL s).
    change (m_freezeBufferR s1) with (m_freezeBufferR s).
    change (m_readPos s1) with ((m_readPos s + 1) mod 132).
    change (S n) with (1 + n)%nat.
    rewrite !(ring_read_app 132 _ (m_readPos s) 1 n).
    change (Z.of_nat 1) with 1.
    rewrite !ring_read_one by lia. cbn [app]. f_equal.
    unfold s1, set_readPos. cbn. f_equal.
    rewrite Zplus_mod_idemp_l. f_equal. lia.
Qed.

Lemma run_frozen blocks : forall s,
  wf s -> m_isEnabled s = true ->
  m_onsetAtSample s = 0 -> m_releaseAtSample s = 0 ->
  Forall (fun p => can_allocate (snd p)) blocks ->
  fst (run (updates blocks) s)
    = set_readPos ((m_readPos s + Z.of_nat (128 * length blocks)) mod 132) s /\
  Forall full_output (snd (run (updates blocks) s)) /\
  length (snd (run (updates blocks) s)) = length blocks /\
  left_stream (snd (run (updates blocks) s))
    = ring_read 132 (m_freezeBufferL s) (m_readPos s) (128 * length blocks) /\
  right_stream (snd (run (updates blocks) s))
    = ring_read 132 (m_freezeBufferR s) (m_readPos s) (128 * length blocks).
Proof.
  induction blocks as [|[c io] rest IH]; intros s Hwf Hen Hon Hrel Hall.
  - pose proof Hwf as (_ & _ & _ & Hr). rewrite FREEZE_BUFFER_SAMPLES_value in Hr.
    cbn. rewrite Z.add_0_r, Z.mod_small by lia.
    repeat split; try constructor. destruct s; reflexivity.
  - apply Forall_cons in Hall. destruct Hall as (Hio & Hall). cbn [snd] in Hio.
    assert (E1 : checkOnset c s = s).
    { unfold checkOnset, inBlock. rewrite Hon. reflexivity. }
    assert (E2 : checkRelease c s = s).
    { unfold checkRelease, inBlock. rewrite Hrel. reflexivity. }
    set (s1 := set_readPos ((m_readPos s + Z.of_nat (Z.to_nat 128)) mod 132) s).
    assert (Hupd : update c io s =
      (s1, (Some (ring_read 132 (m_freezeBufferL s) (m_readPos s) (Z.to_nat 128)),
            Some (ring_read 132 (m_freezeBufferR s) (m_readPos s) (Z.to_nat 128))))).
    { unfold update. rewrite E1, E2, Hen, Hio. cbn [negb].
      unfold AUDIO_BLOCK_SAMPLES. rewrite (playLoop_ring (Z.to_nat 128) s Hwf).
      reflexivity. }
    cbn [updates map run step fst snd]. fold (updates rest). rewrite Hupd.
    assert (Hwf1 : wf s1).
    { destruct Hwf as (HL & HR & Hw & Hr). unfold wf, s1. cbn.
      rewrite FREEZE_BUFFER_SAMPLES_value in *.
      pose proof (Z.mod_pos_bound (m_readPos s + 128) 132). auto with zarith. }
    destruct (IH s1 Hwf1 Hen Hon Hrel Hall) as (I1 & I2 & I3 & I4 & I5).
    destruct (run (updates rest) s1) as [s2 outs]. cbn [fst snd length] in *.
    change (Z.to_nat 128) with 128%nat in *.
    replace (128 * S (length rest))%nat with (128 + 128 * length rest)%nat by lia.
    split.
    { rewrite I1. unfold s1, set_readPos. cbn. f_equal.
      rewrite Zplus_mod_idemp_l. f_equal. lia. }
    split.
    { constructor; [|exact I2]. unfold full_output, ring_read.
      rewrite !length_map, !length_seq. split; reflexivity. }
    split; [cbn [length]; congruence|].
    unfold left_stream, right_stream in *. cbn [map concat fst snd default from_option id].
    rewrite I4, I5, !ring_read_app. auto.
Qed.

Lemma run_app a : forall b s,
  run (a ++ b) s =
    (fst (run b (fst (run a s))), snd (run a s) ++ snd (run b (fst (run a s)))).
Proof.
  induction a as [|o a IH]; intros b s; cbn [app run fst snd].
  - destruct (run b s); reflexivity.
  - destruct (step o s) as [s1 out]. rewrite IH.
    destruct (run a s1) as [s2 outs]. reflexivity.
Qed.

Lemma ring_read_looped (buf : list Z) (r : Z) (n : nat) :
  Z.of_nat (length buf) = 132 -> 0 <= r < 132 ->
  ring_read 132 buf r n = looped (unrolled buf r) n.
Proof.
  intros Hlen Hr. unfold ring_read, looped. apply map_ext. intros k.
  rewrite unrolled_length. replace (length buf) with 132%nat by lia.
  rewrite (unrolled_lookup 132);
    [|assumption|assumption|pose proof (Nat.mod_upper_bound k 132); lia].
  do 2 f_equal.
  rewrite Nat2Z.inj_mod. change (Z.of_nat 132) with 132.
  rewrite Zplus_mod_idemp_r. reflexivity.
Qed.

(** X11. While FREEZE is disengaged with no onset pending, every block that
    arrives on both inputs is passed through unchanged and recorded: read
    from the write position around, each ring then holds its previous
    contents followed by the input with the oldest samples dropped, so after
    two blocks or more it holds exactly the last 132 input samples, oldest
    first. *)
Theorem X11_freeze_records_latest_samples (blocks : list (Z * BlockIO)) (s : t) :
  wf s -> m_isEnabled s = false -> m_onsetAtSample s = 0 ->
  Forall (fun p => full_input (snd p)) blocks ->
  let s' := fst (run (updates blocks) s) in
  let n := length blocks in
  snd (run (updates blocks) s) = inputs blocks /\
  m_isEnabled s' = false /\
  unrolled (m_freezeBufferL s') (m_writePos s')
    = drop (128 * n) (unrolled (m_freezeBufferL s) (m_writePos s)
                      ++ left_stream (inputs blocks)) /\
  unrolled (m_freezeBufferR s') (m_writePos s')
    = drop (128 * n) (unrolled (m_freezeBufferR s) (m_writePos s)
                      ++ right_stream (inputs blocks)) /\
  ((2 <= n)%nat ->
     unrolled (m_freezeBufferL s') (m_writePos s')
       = drop (128 * n - 132) (left_stream (inputs blocks)) /\
     unrolled (m_freezeBufferR s') (m_writePos s')
       = drop (128 * n - 132) (right_stream (inputs blocks))).
Proof.
  intros Hwf Hoff Hon Hall s' n.
  destruct (run_recording blocks s Hwf Hoff Hon Hall)
    as (R1 & _ & R3 & _ & _ & R6 & R7).
  fold s' in R3, R6, R7.
  split; [exact R1|]. split; [exact R3|]. split; [exact R6|].
  split; [exact R7|]. intros Hn. rewrite R6, R7.
  destruct Hwf as (HL & HR & _). rewrite FREEZE_BUFFER_SAMPLES_value in *.
  split; rewrite drop_app_ge by (rewrite unrolled_length; unfold n in *; lia);
    rewrite unrolled_length; do 2 f_equal; lia.
Qed.

(** X12. While FREEZE is engaged with nothing scheduled, and output blocks
    can be allocated, the output is read off the ring: sample k of the
    stream is the ring sample at (readPos + k) mod 132. The input is
    ignored, the buffers and the write position are untouched, and only the
    read position moves. *)
Theorem X12_freeze_plays_the_ring (blocks : list (Z * BlockIO)) (s : t) :
  wf s -> m_isEnabled s = true ->
  m_onsetAtSample s = 0 -> m_releaseAtSample s = 0 ->
  Forall (fun p => can_allocate (snd p)) blocks ->
  let n := (128 * length blocks)%nat in
  fst (run (updates blocks) s)
    = set_readPos ((m_readPos s + Z.of_nat n) mod 132) s /\
  Forall full_output (snd (run (updates blocks) s)) /\
  left_stream (snd (run (updates blocks) s))
    = ring_read 132 (m_freezeBufferL s) (m_readPos s) n /\
  right_stream (snd (run (updates blocks) s))
    = ring_read 132 (m_freezeBufferR s) (m_readPos s) n.
Proof.
  intros Hwf Hen Hon Hrel Hall n.
  destruct (run_frozen blocks s Hwf Hen Hon Hrel Hall) as (F1 & F2 & _ & F4 & F5).
  auto.
Qed.

(** X13. Recording, then freezing. From a disengaged engine with nothing
    scheduled, after at least two full input blocks, [enable] followed by
    any number of blocks makes the output the input stream followed by its
    last 132 samples (3 ms), oldest first, repeated over and over. *)
Theorem X13_freeze_repeats_the_last_3ms
    (recorded played : list (Z * BlockIO)) (s : t) :
  wf s -> m_isEnabled s = false ->
  m_onsetAtSample s = 0 -> m_releaseAtSample s = 0 ->
  Forall (fun p => full_input (snd p)) recorded -> (2 <= length recorded)%nat ->
  Forall (fun p => can_allocate (snd p)) played ->
  let outs := snd (run (updates recorded ++ OpEnable :: updates played) s) in
  let heardL := left_stream (inputs recorded) in
  let heardR := right_stream (inputs recorded) in
  let n := (128 * length played)%nat in
  left_stream outs = heardL ++ looped (drop (length heardL - 132) heardL) n /\
  right_stream outs = heardR ++ looped (drop (length heardR - 132) heardR) n.
Proof.
  intros Hwf Hoff Hon Hrel Hrec Hn Hplay outs heardL heardR n.
  destruct (run_recording recorded s Hwf Hoff Hon Hrec)
    as (R1 & R2 & R3 & R4 & R5 & R6 & R7).
  set (s1 := fst (run (updates recorded) s)) in *.
  set (s2 := freeze_enable s1).
  assert (Hwf2 : wf s2) by (apply enable_wf, R2).
  destruct (run_frozen played s2 Hwf2 eq_refl R4 (R5 Hrel) Hplay)
    as (_ & _ & _ & F4 & F5).
  assert (Houts : outs = inputs recorded ++ (None, None)
                           :: snd (run (updates played) s2)).
  { unfold outs. rewrite run_app. cbn [snd]. rewrite R1. f_equal.
    fold s1. cbn [run step]. fold s2.
    destruct (run (updates played) s2). reflexivity. }
  assert (HlenL : length heardL = (128 * length recorded)%nat).
  { clear - Hrec. unfold heardL, left_stream, inputs.
    induction Hrec as [|[c io] rest Hio _ IH]; [reflexivity|].
    cbn [map concat fst snd length]. rewrite length_app.
    unfold inputs in IH. rewrite IH. unfold full_input in Hio. cbn [snd] in Hio.
    destruct (in0 io); [|contradiction]. destruct (in1 io); [|contradiction].
    unfold AUDIO_BLOCK_SAMPLES in Hio. cbn [default from_option id]. lia. }
  assert (HlenR : length heardR = (128 * length recorded)%nat).
  { clear - Hrec. unfold heardR, right_stream, inputs.
    induction Hrec as [|[c io] rest Hio _ IH]; [reflexivity|].
    cbn [map concat fst snd length]. rewrite length_app.
    unfold inputs in IH. rewrite IH. unfold full_input in Hio. cbn [snd] in Hio.
    destruct (in0 io); [|contradiction]. destruct (in1 io); [|contradiction].
    unfold AUDIO_BLOCK_SAMPLES in Hio. cbn [default from_option id]. lia. }
  pose proof Hwf as (HL & HR & _). pose proof R2 as (HL1 & HR1 & Hw1 & _).
  rewrite FREEZE_BUFFER_SAMPLES_value in *.
  rewrite drop_app_ge in R6, R7 by (rewrite unrolled_length; lia).
  rewrite unrolled_length in R6, R7.
  replace (length (m_freezeBufferL s)) with 132%nat in R6 by lia.
  replace (length (m_freezeBufferR s)) with 132%nat in R7 by lia.
  rewrite HlenL, HlenR. subst heardL heardR. rewrite <- R6, <- R7.
  rewrite <- (ring_read_looped (m_freezeBufferL s1) (m_writePos s1)) by assumption.
  rewrite <- (ring_read_looped (m_freezeBufferR s1) (m_writePos s1)) by assumption.
  change (m_freezeBufferL s2) with (m_freezeBufferL s1) in F4.
  change (m_freezeBufferR s2) with (m_freezeBufferR s1) in F5.
  change (m_readPos s2) with (m_writePos s1) in F4, F5.
  assert (SL : forall a b, left_stream (a ++ (None, None) :: b)
                           = left_stream a ++ left_stream b)
    by (intros a b; unfold left_stream; rewrite map_app, concat_app; reflexivity).
  assert (SR : forall a b, right_stream (a ++ (None, None) :: b)
                           = right_stream a ++ right_stream b)
    by (intros a b; unfold right_stream; rewrite map_app, concat_app; reflexivity).
  rewrite Houts, SL, SR, F4, F5. split; reflexivity.
Qed.

End FreezeRing.

Lemma X11_freeze_records_latest_samples_witness :
  let blocks :=
    [(0, mkIO (Some (replicate 128 1)) (Some (replicate 128 2)) true true);
     (128, mkIO (Some (replicate 128 3)) (Some (replicate 128 4)) true true)] in
  let s' := fst (Freeze.run (Freeze.updates blocks) Freeze.initial) in
  unrolled (Freeze.m_freezeBufferL s') (Freeze.m_writePos s')
    = replicate 4 1 ++ replicate 128 3.
Proof.
  intros blocks s'.
  assert (Hwf : Freeze.wf Freeze.initial)
    by (repeat split; vm_compute; congruence).
  assert (Hall : Forall (fun p => full_input (snd p)) blocks)
    by (repeat constructor).
  destruct (X11_freeze_records_latest_samples blocks Freeze.initial
              Hwf eq_refl eq_refl Hall) as (_ & _ & _ & _ & H).
  destruct (H ltac:(cbn; lia)) as (HL & _).
  unfold s'. rewrite HL. vm_compute. reflexivity.
Defined.

Lemma X12_freeze_plays_the_ring_witness :
  let blocks := [(0, mkIO None None true true); (128, mkIO None None true true)] in
  Freeze.m_readPos
    (fst (Freeze.run (Freeze.updates blocks) (Freeze.freeze_enable Freeze.initial)))
    = 124.
Proof.
  intros blocks.
  assert (Hwf : Freeze.wf (Freeze.freeze_enable Freeze.initial))
    by (repeat split; vm_compute; congruence).
  assert (Hall : Forall (fun p => can_allocate (snd p)) blocks)
    by (repeat constructor).
  destruct (X12_freeze_plays_the_ring blocks (Freeze.freeze_enable Freeze.initial)
              Hwf eq_refl eq_refl eq_refl Hall) as (H & _).
  rewrite H. vm_compute. reflexivity.
Defined.

Lemma X13_freeze_repeats_the_last_3ms_witness :
  let recorded :=
    [(0, mkIO (Some (replicate 128 1)) (Some (replicate 128 2)) true true);
     (128, mkIO (Some (replicate 128 3)) (Some (replicate 128 4)) true true)] in
  let played := [(256, mkIO None None true true)] in
  left_stream
    (snd (Freeze.run (Freeze.updates recorded ++ Freeze.OpEnable :: Freeze.updates played)
            Freeze.initial))
    = replicate 128 1 ++ replicate 128 3 ++ replicate 4 1 ++ replicate 124 3.
Proof.
  intros recorded played.
  assert (Hwf : Freeze.wf Freeze.initial)
    by (repeat split; vm_compute; congruence).
  assert (Hrec : Forall (fun p => full_input (snd p)) recorded)
    by (repeat constructor).
  assert (Hplay : Forall (fun p => can_allocate (snd p)) played)
    by (repeat constructor).
  destruct (X13_freeze_repeats_the_last_3ms recorded played Freeze.initial
              Hwf eq_refl eq_refl eq_refl Hrec ltac:(cbn; lia) Hplay) as (H & _).
  rewrite H. vm_compute. reflexivity.
Defined.

(** ** The STUTTER engine's buffer *)

Section StutterBuffer.
Import Stutter.

Local Abbreviation N := 151200.

Lemma STUTTER_BUFFER_SAMPLES_value : STUTTER_BUFFER_SAMPLES = N.
Proof. reflexivity. Qed.

Ltac fields :=
  cbn [m_stutterBufferL m_stutterBufferR m_writePos m_readPos m_captureLength
       m_state m_onsetMode m_lengthMode m_captureStartMode m_captureEndMode
       m_captureStartAtSample m_captureEndAtSample m_playbackOnsetAtSample
       m_playbackLengthAtSample m_stutterHeld
       set_state set_writePos set_readPos set_captureLength set_modes
       set_schedule set_stutterHeld set_captureStartAt set_captureEndAt
       set_playbackOnsetAt set_playbackLengthAt] in *.

Ltac bnd :=
  unfold bounds in *; rewrite ?STUTTER_BUFFER_SAMPLES_value in *; fields;
  rewrite ?length_insert; intuition lia.

Lemma finishCapture_bounds held s : bounds s -> bounds (finishCapture held s).
Proof.
  intros H. unfold finishCapture.
  destruct (0 <? m_writePos s); [destruct held|]; bnd.
Qed.

Lemma checkSchedules_bounds c s : bounds s -> bounds (checkSchedules c s).
Proof.
  intros H. unfold checkSchedules.
  assert (H1 : bounds (checkCaptureStart c s)).
  { unfold checkCaptureStart. destruct (due _ c); bnd. }
  assert (H2 : bounds (checkCaptureEnd c (checkCaptureStart c s))).
  { unfold checkCaptureEnd. destruct (due _ c); [|exact H1].
    pose proof (finishCapture_bounds
                  (m_stutterHeld (checkCaptureStart c s)) _ H1) as H2.
    revert H2. generalize (finishCapture (m_stutterHeld (checkCaptureStart c s))
                             (checkCaptureStart c s)). intros s2 H2. bnd. }
  revert H2. generalize (checkCaptureEnd c (checkCaptureStart c s)).
  intros s2 H2.
  assert (H3 : bounds (checkPlaybackOnset c s2)).
  { unfold checkPlaybackOnset. destruct (due _ c); bnd. }
  revert H3. generalize (checkPlaybackOnset c s2). intros s3 H3.
  unfold checkPlaybackLength. destruct (due _ c); bnd.
Qed.

Lemma writeSample_bounds l r s :
  bounds s -> m_writePos s < N -> bounds (writeSample l r s).
Proof.
  intros H Hlt. unfold writeSample.
  assert (E : u32 (m_writePos s + 1) = m_writePos s + 1)
    by (apply u32_small; unfold is_u32; unfold bounds in H;
        rewrite STUTTER_BUFFER_SAMPLES_value in H; lia).
  rewrite E. bnd.
Qed.

Lemma captureLoop_bounds n : forall i dl dr s,
  bounds s -> bounds (captureLoop n i dl dr s).
Proof.
  induction n as [|n IH]; intros i dl dr s H; cbn [captureLoop]; [exact H|].
  rewrite STUTTER_BUFFER_SAMPLES_value.
  destruct (Z.ltb_spec (m_writePos s) N); [|exact H].
  apply IH, writeSample_bounds; assumption.
Qed.

Lemma bufferFull_bounds s : bounds s -> bounds (bufferFull s).
Proof.
  intros H. unfold bufferFull. destruct (_ <=? _); [|exact H].
  fields. destruct (m_stutterHeld s); bnd.
Qed.

Lemma stutter_next_pos (r cl : Z) :
  0 <= r -> r < cl -> cl <= N ->
  (if cl <=? u32 (r + 1) then 0 else u32 (r + 1)) = (r + 1) mod cl.
Proof.
  intros H0 Hr Hcl. rewrite u32_small by (unfold is_u32; lia).
  destruct (Z.leb_spec cl (r + 1)).
  - replace (r + 1) with cl by lia. rewrite Z.mod_same by lia. reflexivity.
  - rewrite Z.mod_small by lia. reflexivity.
Qed.

Lemma playLoop_bounds n : forall s, bounds s -> bounds (fst (playLoop n s)).
Proof.
  induction n as [|n IH]; intros s H; cbn [playLoop]; [exact H|].
  set (s1 := set_readPos _ s).
  assert (H1 : bounds s1).
  { unfold s1. pose proof H as (_ & _ & _ & Hr & Hc).
    rewrite STUTTER_BUFFER_SAMPLES_value in *.
    rewrite (u32_small (m_readPos s + 1)) by (unfold is_u32; lia).
    destruct (Z.leb_spec (m_captureLength s) (m_readPos s + 1)); bnd. }
  specialize (IH s1 H1). destruct (playLoop n s1) as [s2 [ls rs]]. exact IH.
Qed.

Lemma process_bounds io s : bounds s -> bounds (fst (process io s)).
Proof.
  intros H. unfold process.
  destruct (m_state s); destruct (in0 io), (in1 io); cbn [fst];
    try exact H;
    try (apply bufferFull_bounds, captureLoop_bounds, H);
    destruct (alloc0 io && alloc1 io); try exact H;
    pose proof (playLoop_bounds (Z.to_nat AUDIO_BLOCK_SAMPLES) s H) as H1;
    destruct (playLoop _ s) as [s1 [ls rs]]; exact H1.
Qed.

Lemma update_bounds c io s : bounds s -> bounds (fst (update c io s)).
Proof. intros H. apply process_bounds, checkSchedules_bounds, H. Qed.

Lemma step_bounds o s : bounds s -> bounds (step o s).
Proof.
  intros H. destruct o; cbn [step];
    try (apply update_bounds, H);
    try (apply finishCapture_bounds, H);
    try (unfold stutter_toggle; destruct (stutter_isEnabled s));
    unfold stutter_enable, stutter_disable, startCapture, scheduleCaptureStart,
      cancelCaptureStart, scheduleCaptureEnd, startPlayback,
      schedulePlaybackOnset, stopPlayback, schedulePlaybackLength,
      setLengthMode, setOnsetMode, setCaptureStartMode, setCaptureEndMode;
    bnd.
Qed.

Lemma initial_bounds : bounds initial.
Proof.
  unfold bounds, initial, silence. fields. rewrite length_replicate.
  rewrite STUTTER_BUFFER_SAMPLES_value. lia.
Qed.

(** X14. Whatever is called on a STUTTER engine, in whatever order and with
    whatever blocks, both buffers keep their 151200 samples, the write
    position stays in [0, 151200] (and the capture loop writes only below
    151200), the read position stays in [0, 151200) and the loop length in
    [0, 151200]: no access ever leaves a buffer. *)
Theorem X14_stutter_positions_stay_in_buffer (ops : list op) :
  bounds (run ops initial).
Proof.
  unfold run. generalize initial_bounds. generalize initial.
  induction ops as [|o ops IH]; intros s H; cbn [foldl]; [exact H|].
  apply IH, step_bounds, H.
Qed.

Lemma checkSchedules_unscheduled c s :
  unscheduled s -> checkSchedules c s = s.
Proof.
  intros (H1 & H2 & H3 & H4).
  apply checkSchedules_none; rewrite ?H1, ?H2, ?H3, ?H4; reflexivity.
Qed.

Lemma take_write (buf : list Z) (w : nat) (x : Z) :
  (w < length buf)%nat -> take (S w) (<[w:=x]> buf) = take w buf ++ [x].
Proof.
  intros Hlt. rewrite (take_S_r (<[w:=x]> buf) w x).
  - rewrite take_insert_ge by lia. reflexivity.
  - rewrite list_lookup_insert, decide_True by (split; [reflexivity|lia]).
    reflexivity.
Qed.

(** The captured prefix grows by what the loop copies; nothing else moves. *)
Lemma captureLoop_prefix n : forall i dl dr s,
  bounds s -> m_writePos s + Z.of_nat n <= N ->
  (i + n <= length dl)%nat -> (i + n <= length dr)%nat ->
  let s' := captureLoop n i dl dr s in
  m_writePos s' = m_writePos s + Z.of_nat n /\
  take (Z.to_nat (m_writePos s')) (m_stutterBufferL s')
    = take (Z.to_nat (m_writePos s)) (m_stutterBufferL s) ++ take n (drop i dl) /\
  take (Z.to_nat (m_writePos s')) (m_stutterBufferR s')
    = take (Z.to_nat (m_writePos s)) (m_stutterBufferR s) ++ take n (drop i dr).
Proof.
  induction n as [|n IH]; intros i dl dr s Hb Hroom Hl Hr; cbn [captureLoop].
  - cbv zeta. rewrite !take_0, !app_nil_r. split; [lia|auto].
  - pose proof Hb as (HL & HR & Hw & _).
    rewrite STUTTER_BUFFER_SAMPLES_value in *.
    destruct (Z.ltb_spec (m_writePos s) N); [|lia].
    match goal with
    | |- context [captureLoop n (S i) dl dr (writeSample ?l ?r s)] =>
        pose proof (writeSample_bounds l r s Hb ltac:(lia)) as Hb1;
        assert (Hw1 : m_writePos (writeSample l r s) = m_writePos s + 1)
          by (unfold writeSample; fields; apply u32_small; unfold is_u32; lia);
        destruct (IH (S i) dl dr (writeSample l r s) Hb1
                    ltac:(lia) ltac:(lia) ltac:(lia)) as (I1 & I2 & I3);
        cbv zeta; rewrite I2, I3, I1, Hw1;
        rewrite (drop_S dl l i) by (apply list_lookup_lookup_total_lt; lia);
        rewrite (drop_S dr r i) by (apply list_lookup_lookup_total_lt; lia)
    end.
    unfold writeSample. fields.
    replace (Z.to_nat (m_writePos s + 1)) with (S (Z.to_nat (m_writePos s))) by lia.
    rewrite !take_write by lia. rewrite <- !app_assoc. cbn [take app].
    split; [lia|auto].
Qed.

(** One block while the engine captures and the buffer has room. *)
Lemma update_capturing c io s :
  bounds s -> unscheduled s -> m_state s = CAPTURING -> full_input io ->
  m_writePos s + 128 < N ->
  let s' := fst (update c io s) in
  snd (update c io s) = (in0 io, in1 io) /\
  bounds s' /\ unscheduled s' /\ m_state s' = CAPTURING /\
  m_writePos s' = m_writePos s + 128 /\
  take (Z.to_nat (m_writePos s')) (m_stutterBufferL s')
    = take (Z.to_nat (m_writePos s)) (m_stutterBufferL s) ++ default [] (in0 io) /\
  take (Z.to_nat (m_writePos s')) (m_stutterBufferR s')
    = take (Z.to_nat (m_writePos s)) (m_stutterBufferR s) ++ default [] (in1 io).
Proof.
  intros Hb Hun Hst Hfull Hroom s'.
  pose proof (update_bounds c io s Hb) as Hb'. fold s' in Hb'. revert Hb'.
  unfold s', update. rewrite (checkSchedules_unscheduled c s Hun).
  unfold process. rewrite Hst. unfold full_input in Hfull.
  destruct (in0 io) as [dl|]; [|contradiction].
  destruct (in1 io) as [dr|]; [|contradiction].
  destruct Hfull as (Hl & Hr). unfold AUDIO_BLOCK_SAMPLES in *.
  cbn [fst snd default from_option id]. intros Hb'.
  destruct (captureLoop_prefix (Z.to_nat 128) 0 dl dr s Hb
              ltac:(lia) ltac:(lia) ltac:(lia)) as (P1 & P2 & P3).
  destruct (captureLoop_spec (Z.to_nat 128) 0 dl dr s)
    as (_ & _ & S3 & S4 & _ & S6 & S7 & S8 & S9).
  { destruct Hb as (_ & _ & Hw & _). exact Hw. }
  cbv zeta in P1, P2, P3, S3, S4, S6, S7, S8, S9.
  set (s1 := captureLoop (Z.to_nat 128) 0 dl dr s) in *.
  assert (E : bufferFull s1 = s1).
  { unfold bufferFull. rewrite STUTTER_BUFFER_SAMPLES_value.
    destruct (Z.leb_spec N (m_writePos s1)); [lia|reflexivity]. }
  rewrite E in *. rewrite !drop_0 in P2, P3.
  rewrite (take_ge dl) in P2 by lia. rewrite (take_ge dr) in P3 by lia.
  destruct Hun as (U1 & U2 & U3 & U4). unfold unscheduled.
  rewrite S6, S7, S8, S9, S4, P2, P3, P1.
  change (Z.of_nat (Z.to_nat 128)) with 128. auto 12.
Qed.

Lemma updates_capturing blocks : forall s,
  bounds s -> unscheduled s -> m_state s = CAPTURING ->
  Forall (fun p => full_input (snd p)) blocks ->
  m_writePos s + 128 * Z.of_nat (length blocks) < N ->
  let s' := fst (updates blocks s) in
  snd (updates blocks s) = inputs blocks /\
  bounds s' /\ unscheduled s' /\ m_state s' = CAPTURING /\
  m_writePos s' = m_writePos s + 128 * Z.of_nat (length blocks) /\
  take (Z.to_nat (m_writePos s')) (m_stutterBufferL s')
    = take (Z.to_nat (m_writePos s)) (m_stutterBufferL s)
      ++ left_stream (inputs blocks) /\
  take (Z.to_nat (m_writePos s')) (m_stutterBufferR s')
    = take (Z.to_nat (m_writePos s)) (m_stutterBufferR s)
      ++ right_stream (inputs blocks).
Proof.
  induction blocks as [|[c io] rest IH]; intros s Hb Hun Hst Hall Hroom.
  - cbn. unfold left_stream, right_stream. cbn. rewrite !app_nil_r.
    split; [reflexivity|]. split; [exact Hb|]. split; [exact Hun|].
    split; [exact Hst|]. split; [lia|auto].
  - apply Forall_cons in Hall. destruct Hall as (Hio & Hall). cbn [snd] in Hio.
    cbn [length] in Hroom.
    destruct (update_capturing c io s Hb Hun Hst Hio ltac:(lia))
      as (U1 & U2 & U3 & U4 & U5 & U6 & U7).
    cbn [updates]. destruct (update c io s) as [s1 out]. cbn [fst snd] in *.
    destruct (IH s1 U2 U3 U4 Hall ltac:(lia)) as (I1 & I2 & I3 & I4 & I5 & I6 & I7).
    destruct (updates rest s1) as [s2 outs]. cbn [fst snd] in *.
    rewrite I1, U1, I6, I7, I5, U6, U7, U5.
    unfold inputs, left_stream, right_stream.
    cbn [map concat fst snd length]. rewrite <- !app_assoc.
    split; [reflexivity|]. split; [exact I2|]. split; [exact I3|].
    split; [exact I4|]. split; [lia|auto].
Qed.

Lemma stutter_playLoop_ring n : forall s,
  0 <= m_readPos s < m_captureLength s -> m_captureLength s <= N ->
  playLoop n s =
    (set_readPos ((m_readPos s + Z.of_nat n) mod m_captureLength s) s,
     (ring_read (m_captureLength s) (m_stutterBufferL s) (m_readPos s) n,
      ring_read (m_captureLength s) (m_stutterBufferR s) (m_readPos s) n)).
Proof.
  induction n as [|n IH]; intros s Hr Hcl.
  - cbn [playLoop]. rewrite Z.add_0_r, Z.mod_small by lia.
    destruct s; reflexivity.
  - cbn [playLoop]. rewrite stutter_next_pos by lia.
    set (cl := m_captureLength s) in *.
    set (s1 := set_readPos ((m_readPos s + 1) mod cl) s).
    assert (Hr1 : 0 <= m_readPos s1 < m_captureLength s1).
    { unfold s1. fields. fold cl. apply Z.mod_pos_bound. lia. }
    rewrite (IH s1 Hr1) by (unfold s1; fields; fold cl; lia).
    change (m_stutterBufferL s1) with (m_stutterBufferL s).
    change (m_stutterBufferR s1) with (m_stutterBufferR s).
    change (m_captureLength s1) with cl.
    change (m_readPos s1) with ((m_readPos s + 1) mod cl).
    change (S n) with (1 + n)%nat.
    rewrite !(ring_read_app cl _ (m_readPos s) 1 n).
    change (Z.of_nat 1) with 1.
    rewrite !ring_read_one by lia. cbn [app]. f_equal.
    unfold s1, set_readPos. fields. f_equal.
    rewrite Zplus_mod_idemp_l. f_equal. lia.
Qed.

Lemma updates_playing blocks : forall s,
  unscheduled s -> m_state s = PLAYING ->
  0 <= m_readPos s < m_captureLength s -> m_captureLength s <= N ->
  Forall (fun p => can_allocate (snd p)) blocks ->
  let cl := m_captureLength s in
  fst (updates blocks s)
    = set_readPos ((m_readPos s + Z.of_nat (128 * length blocks)) mod cl) s /\
  Forall full_output (snd (updates blocks s)) /\
  left_stream (snd (updates blocks s))
    = ring_read cl (m_stutterBufferL s) (m_readPos s) (128 * length blocks) /\
  right_stream (snd (updates blocks s))
    = ring_read cl (m_stutterBufferR s) (m_readPos s) (128 * length blocks).
Proof.
  induction blocks as [|[c io] rest IH]; intros s Hun Hst Hr Hcl Hall cl.
  - cbn. rewrite Z.add_0_r, Z.mod_small by lia.
    repeat split; try constructor. destruct s; reflexivity.
  - apply Forall_cons in Hall. destruct Hall as (Hio & Hall). cbn [snd] in Hio.
    unfold can_allocate in Hio.
    set (s1 := set_readPos ((m_readPos s + Z.of_nat (Z.to_nat 128)) mod cl) s).
    assert (Hupd : update c io s =
      (s1, (Some (ring_read cl (m_stutterBufferL s) (m_readPos s) (Z.to_nat 128)),
            Some (ring_read cl (m_stutterBufferR s) (m_readPos s) (Z.to_nat 128))))).
    { unfold update. rewrite (checkSchedules_unscheduled c s Hun).
      unfold process. rewrite Hst, Hio. unfold AUDIO_BLOCK_SAMPLES.
      rewrite (stutter_playLoop_ring (Z.to_nat 128) s Hr Hcl). reflexivity. }
    cbn [updates]. rewrite Hupd.
    assert (Hr1 : 0 <= m_readPos s1 < m_captureLength s1).
    { unfold s1. fields. apply Z.mod_pos_bound. lia. }
    destruct (IH s1 Hun Hst Hr1 Hcl Hall) as (I1 & I2 & I3 & I4).
    destruct (updates rest s1) as [s2 outs]. cbn [fst snd length] in *.
    change (Z.to_nat 128) with 128%nat in *.
    change (m_captureLength s1) with cl in *.
    change (m_stutterBufferL s1) with (m_stutterBufferL s) in *.
    change (m_stutterBufferR s1) with (m_stutterBufferR s) in *.
    change (m_readPos s1) with ((m_readPos s + Z.of_nat 128) mod cl) in *.
    replace (128 * S (length rest))%nat with (128 + 128 * length rest)%nat by lia.
    split.
    { rewrite I1. unfold s1, set_readPos. fields. f_equal.
      rewrite Zplus_mod_idemp_l. f_equal. lia. }
    split.
    { constructor; [|exact I2]. unfold full_output, ring_read.
      rewrite !length_map, !length_seq. split; reflexivity. }
    unfold left_stream, right_stream in *.
    cbn [map concat fst snd default from_option id].
    rewrite I3, I4, !ring_read_app. auto.
Qed.

Lemma ring_read_prefix (cl : Z) (buf : list Z) (n : nat) :
  0 < cl -> cl <= Z.of_nat (length buf) ->
  ring_read cl buf 0 n = looped (take (Z.to_nat cl) buf) n.
Proof.
  intros Hpos Hle. unfold ring_read, looped. apply map_ext. intros k.
  rewrite length_take, Nat.min_l by lia.
  rewrite lookup_total_take, decide_True
    by (apply Nat.mod_upper_bound; lia).
  f_equal. rewrite Z.add_0_l.
  rewrite <- (Z2Nat.id cl) at 1 by lia.
  rewrite <- Nat2Z.inj_mod, Nat2Z.id. reflexivity.
Qed.

Lemma inputs_length blocks :
  Forall (fun p => full_input (snd p)) blocks ->
  length (left_stream (inputs blocks)) = (128 * length blocks)%nat /\
  length (right_stream (inputs blocks)) = (128 * length blocks)%nat.
Proof.
  unfold left_stream, right_stream, inputs.
  induction 1 as [|[c io] rest Hio _ IH]; [split; reflexivity|].
  cbn [map concat fst snd length]. rewrite !length_app.
  destruct IH as (IL & IR). rewrite IL, IR.
  unfold full_input in Hio. cbn [snd] in Hio.
  destruct (in0 io); [|contradiction]. destruct (in1 io); [|contradiction].
  unfold AUDIO_BLOCK_SAMPLES in Hio. cbn [default from_option id]. lia.
Qed.

(** X15. Capture, then replay. From any state with nothing scheduled,
    [startCapture], then between 1 and 1181 full input blocks (which the
    engine passes through unchanged), then [endCapture] with the key held:
    the engine plays, the loop is as long as what was captured, and over any
    number of further blocks each channel's output is exactly the captured
    input, repeated from its start over and over. *)
Theorem X15_stutter_replays_the_capture
    (recorded played : list (Z * BlockIO)) (s : t) :
  bounds s -> unscheduled s ->
  Forall (fun p => full_input (snd p)) recorded ->
  (1 <= length recorded <= 1181)%nat ->
  Forall (fun p => can_allocate (snd p)) played ->
  let captured := updates recorded (startCapture s) in
  let s2 := endCapture true (fst captured) in
  let replayed := updates played s2 in
  let n := (128 * length played)%nat in
  snd captured = inputs recorded /\
  m_state s2 = PLAYING /\
  m_captureLength s2 = 128 * Z.of_nat (length recorded) /\
  Forall full_output (snd replayed) /\
  left_stream (snd replayed) = looped (left_stream (inputs recorded)) n /\
  right_stream (snd replayed) = looped (right_stream (inputs recorded)) n.
Proof.
  intros Hb Hun Hrec Hlen Hplay captured s2 replayed n.
  assert (Hb0 : bounds (startCapture s)) by (unfold startCapture; bnd).
  assert (Hun0 : unscheduled (startCapture s)) by exact Hun.
  destruct (updates_capturing recorded (startCapture s) Hb0 Hun0 eq_refl Hrec)
    as (C1 & C2 & C3 & C4 & C5 & C6 & C7).
  { change (m_writePos (startCapture s)) with 0. lia. }
  fold captured in C1, C2, C3, C4, C5, C6, C7.
  set (s1 := fst captured) in *.
  change (m_writePos (startCapture s)) with 0 in C5, C6, C7.
  change (Z.to_nat 0) with 0%nat in C6, C7. rewrite take_0 in C6, C7.
  cbn [app] in C6, C7. rewrite Z.add_0_l in C5.
  assert (E2 : s2 = set_state PLAYING (set_readPos 0
                      (set_captureLength (m_writePos s1) s1))).
  { unfold s2, endCapture, finishCapture.
    destruct (Z.ltb_spec 0 (m_writePos s1)); [reflexivity|lia]. }
  assert (Hun2 : unscheduled s2) by (rewrite E2; exact C3).
  destruct (updates_playing played s2 Hun2) as (_ & P2 & P3 & P4);
    [rewrite E2; reflexivity | rewrite E2; fields; lia
    | rewrite E2; fields; pose proof C2 as (_ & _ & Hw & _);
      rewrite STUTTER_BUFFER_SAMPLES_value in Hw; lia
    | exact Hplay |].
  fold replayed in P2, P3, P4.
  split; [exact C1|]. split; [rewrite E2; reflexivity|].
  split; [rewrite E2; fields; exact C5|]. split; [exact P2|].
  pose proof C2 as (HL & HR & _). rewrite STUTTER_BUFFER_SAMPLES_value in *.
  rewrite P3, P4, <- C6, <- C7. rewrite E2. fields. fold n.
  split; apply ring_read_prefix; lia.
Qed.

(** X16. A scheduled capture start fires at the first block that starts at
    or after the scheduled sample, however late, and never before. Blocks
    that start before it are passed through with the engine still waiting;
    from the first block at or after it on (up to 1181 full blocks) the
    input is both passed through and captured, so the buffer then starts
    with exactly the input from that block on. *)
Theorem X16_stutter_capture_starts_on_time
    (at_ c : Z) (io : BlockIO) (before rest : list (Z * BlockIO)) (s : t) :
  bounds s -> unscheduled s -> 0 < at_ ->
  Forall (fun p => fst p < at_ /\ full_input (snd p)) before ->
  at_ <= c -> c + 128 < 2 ^ 64 ->
  Forall (fun p => full_input (snd p)) ((c, io) :: rest) ->
  (length rest < 1181)%nat ->
  let waiting := updates before (scheduleCaptureStart at_ s) in
  let capturing := updates ((c, io) :: rest) (fst waiting) in
  let s' := fst capturing in
  snd waiting = inputs before /\
  m_state (fst waiting) = WAIT_CAPTURE_START /\
  m_captureStartAtSample (fst waiting) = at_ /\
  snd capturing = inputs ((c, io) :: rest) /\
  m_state s' = CAPTURING /\ m_captureStartAtSample s' = 0 /\
  m_writePos s' = 128 * Z.of_nat (S (length rest)) /\
  take (Z.to_nat (m_writePos s')) (m_stutterBufferL s')
    = left_stream (inputs ((c, io) :: rest)) /\
  take (Z.to_nat (m_writePos s')) (m_stutterBufferR s')
    = right_stream (inputs ((c, io) :: rest)).
Proof.
  intros Hb Hun Hpos Hbefore Hc Hend Hafter Hlen waiting capturing s'.
  subst s' capturing.
  assert (Hwait : forall s0 : t,
    bounds s0 -> m_state s0 = WAIT_CAPTURE_START ->
    m_captureStartAtSample s0 = at_ -> m_captureEndAtSample s0 = 0 ->
    m_playbackOnsetAtSample s0 = 0 -> m_playbackLengthAtSample s0 = 0 ->
    updates before s0 = (s0, inputs before)).
  { induction Hbefore as [|[c0 io0] more (Hc0 & Hio0) _ IH];
      intros s0 B0 W0 W1 W2 W3 W4; [reflexivity|].
    cbn [fst snd] in Hc0, Hio0. cbn [updates].
    assert (E : update c0 io0 s0 = (s0, (in0 io0, in1 io0))).
    { unfold update. rewrite checkSchedules_none.
      - unfold process. rewrite W0. unfold full_input in Hio0.
        destruct (in0 io0); [|contradiction].
        destruct (in1 io0); [|contradiction]. reflexivity.
      - rewrite W1. unfold due. destruct (Z.leb_spec at_ c0); [lia|].
        rewrite andb_false_r. reflexivity.
      - rewrite W2. reflexivity.
      - rewrite W3. reflexivity.
      - rewrite W4. reflexivity. }
    rewrite E, (IH s0 B0 W0 W1 W2 W3 W4). reflexivity. }
  destruct Hun as (U1 & U2 & U3 & U4).
  set (s0 := scheduleCaptureStart at_ s) in *.
  assert (B0 : bounds s0) by (unfold s0, scheduleCaptureStart; bnd).
  assert (Ew : waiting = (s0, inputs before))
    by (apply Hwait; [exact B0 | reflexivity | reflexivity | exact U2
                      | exact U3 | exact U4]).
  rewrite Ew. cbn [fst snd].
  split; [reflexivity|]. split; [reflexivity|]. split; [reflexivity|].
  pose proof Hafter as Hall.
  apply Forall_cons in Hafter. destruct Hafter as (Hio & Hrest).
  cbn [snd] in Hio.
  (* the block in which the schedule fires *)
  set (s1 := set_captureStartAt 0
               (set_state CAPTURING (set_captureLength 0 (set_writePos 0 s0)))).
  assert (Hchk : checkSchedules c s0 = s1).
  { unfold checkSchedules.
    assert (E1 : checkCaptureStart c s0 = s1).
    { unfold checkCaptureStart.
      change (m_captureStartAtSample s0) with at_.
      unfold due, AUDIO_BLOCK_SAMPLES.
      rewrite u64_small by (unfold is_u64; lia).
      destruct (Z.ltb_spec 0 at_); [|lia].
      destruct (Z.leb_spec at_ c); [|lia].
      destruct (Z.ltb_spec c (c + 128)); [|lia]. reflexivity. }
    rewrite E1.
    assert (Hun1 : unscheduled s1) by (unfold s1, unscheduled; fields; auto).
    apply (checkSchedules_none c s1);
      destruct Hun1 as (V1 & V2 & V3 & V4); rewrite ?V1, ?V2, ?V3, ?V4;
      reflexivity. }
  assert (B1 : bounds s1) by (unfold s1; bnd).
  assert (Hun1 : unscheduled s1) by (unfold s1, unscheduled; fields; auto).
  assert (Hsame : update c io s0 = update c io s1).
  { unfold update. rewrite Hchk, (checkSchedules_unscheduled c s1 Hun1).
    reflexivity. }
  assert (Hups : updates ((c, io) :: rest) s0 = updates ((c, io) :: rest) s1)
    by (cbn [updates]; rewrite Hsame; reflexivity).
  rewrite Hups.
  destruct (updates_capturing ((c, io) :: rest) s1 B1 Hun1 eq_refl Hall)
    as (C1 & _ & C3 & C4 & C5 & C6 & C7).
  { change (m_writePos s1) with 0. cbn [length]. lia. }
  change (m_writePos s1) with 0 in C5, C6, C7.
  change (Z.to_nat 0) with 0%nat in C6, C7. rewrite take_0 in C6, C7.
  cbn [app] in C6, C7. rewrite Z.add_0_l in C5.
  destruct C3 as (V1 & _). auto 10.
Qed.

End StutterBuffer.

Lemma X15_stutter_replays_the_capture_witness :
  let recorded := [(0, rampIO); (128, rampIO)] in
  let played := [(256, rampIO); (384, rampIO); (512, rampIO)] in
  let s2 := Stutter.endCapture true
              (fst (Stutter.updates recorded (Stutter.startCapture Stutter.initial))) in
  Stutter.m_captureLength s2 = 256 /\
  left_stream (snd (Stutter.updates played s2))
    = looped (left_stream (inputs recorded)) 384.
Proof.
  intros recorded played s2.
  assert (Hun : Stutter.unscheduled Stutter.initial) by (repeat split).
  assert (Hrec : Forall (fun p => full_input (snd p)) recorded)
    by (repeat constructor).
  assert (Hplay : Forall (fun p => can_allocate (snd p)) played)
    by (repeat constructor).
  destruct (X15_stutter_replays_the_capture recorded played Stutter.initial
              initial_bounds Hun Hrec ltac:(cbn; lia) Hplay)
    as (_ & _ & H3 & _ & H5 & _).
  split; [exact H3 | exact H5].
Defined.

Lemma X16_stutter_capture_starts_on_time_witness :
  let before := [(0, rampIO); (128, rampIO)] in
  let s1 := fst (Stutter.updates before
                   (Stutter.scheduleCaptureStart 200 Stutter.initial)) in
  let s' := fst (Stutter.updates [(256, rampIO)] s1) in
  Stutter.m_state s1 = Stutter.WAIT_CAPTURE_START /\
  Stutter.m_state s' = Stutter.CAPTURING /\ Stutter.m_writePos s' = 128.
Proof.
  intros before s1 s'.
  assert (Hun : Stutter.unscheduled Stutter.initial) by (repeat split).
  assert (Hbefore : Forall (fun p => fst p < 200 /\ full_input (snd p)) before)
    by (repeat constructor).
  assert (Hafter : Forall (fun p => full_input (snd p)) [(256, rampIO)])
    by (repeat constructor).
  destruct (X16_stutter_capture_starts_on_time 200 256 rampIO before []
              Stutter.initial initial_bounds Hun ltac:(lia) Hbefore
              ltac:(lia) ltac:(lia) Hafter ltac:(cbn; lia))
    as (_ & H2 & _ & _ & H5 & _ & H7 & _).
  split; [exact H2|]. split; [exact H5 | exact H7].
Defined.

(** ** The effect registry *)

Section Registry.
Context {F : Float32}.
Import EffectManager.

Lemma EffectID_eqb_eq a b : EffectID_eqb a b = true <-> a = b.
Proof. destruct a, b; cbn; split; congruence. Qed.

Lemma getEffect_None id reg : getEffect id reg = None <-> ~ In id (ids reg).
Proof.
  induction reg as [|[id' e] reg IH]; cbn; [tauto|].
  destruct (EffectID_eqb id' id) eqn:E.
  - apply EffectID_eqb_eq in E. split; [discriminate | tauto].
  - assert (id' <> id) by (intros ->; destruct id; discriminate).
    rewrite IH. tauto.
Qed.

Lemma getEffect_Some id reg e : getEffect id reg = Some e -> In id (ids reg).
Proof.
  induction reg as [|[id' x] reg IH]; cbn; [discriminate|].
  destruct (EffectID_eqb id' id) eqn:E.
  - apply EffectID_eqb_eq in E. auto.
  - auto.
Qed.

Lemma getEffect_app id reg id' e :
  getEffect id reg = None ->
  getEffect id' (reg ++ [(id, e)])
    = if EffectID_eqb id id' then Some e else getEffect id' reg.
Proof.
  intros Hnone. induction reg as [|[i x] reg IH]; cbn in *.
  - reflexivity.
  - destruct (EffectID_eqb i id) eqn:E1; [discriminate|].
    destruct (EffectID_eqb i id') eqn:E2.
    + apply EffectID_eqb_eq in E2. subst i.
      destruct (EffectID_eqb id id') eqn:E3; [|reflexivity].
      apply EffectID_eqb_eq in E3. subst id'.
      destruct id; discriminate.
    + apply IH, Hnone.
Qed.

Lemma registerEffect_ok id effect reg :
  registry_ok reg -> registry_ok (snd (registerEffect id effect reg)).
Proof.
  intros (Hlen & Hnd & Hnone). unfold registerEffect, MAX_EFFECTS.
  destruct effect as [e|]; [|repeat split; assumption].
  assert (Hgen : id <> ID_NONE ->
    registry_ok (snd (if 4 <=? Z.of_nat (length reg) then (false, reg)
                      else match getEffect id reg with
                           | Some _ => (false, reg)
                           | None => (true, reg ++ [(id, e)])
                           end))).
  { intros Hid. destruct (Z.leb_spec 4 (Z.of_nat (length reg)));
      [repeat split; assumption|].
    destruct (getEffect id reg) eqn:Hget; [repeat split; assumption|].
    apply getEffect_None in Hget. unfold registry_ok, ids in *. cbn [snd].
    rewrite length_app, map_app. cbn [length map fst].
    split; [lia|]. split.
    - apply NoDup_app. split; [exact Hnd|]. split.
      + intros x Hx Hin. apply list_elem_of_In in Hx.
        apply list_elem_of_singleton in Hin. subst x. tauto.
      + apply NoDup_singleton.
    - rewrite in_app_iff. cbn. intuition congruence. }
  destruct id; try (apply Hgen; discriminate). repeat split; assumption.
Qed.

Lemma registerAll_ok calls : registry_ok (registerAll calls).
Proof.
  unfold registerAll.
  assert (H0 : registry_ok empty)
    by (repeat split; [cbn; lia | constructor | intros []]).
  revert H0. generalize empty.
  induction calls as [|[id e] calls IH]; intros reg H; cbn [foldl]; [exact H|].
  apply IH, registerEffect_ok, H.
Qed.

(** A full registry holds every identifier there is to register. *)
Lemma full_registry_has_all reg id :
  registry_ok reg -> (4 <= length reg)%nat -> id <> ID_NONE -> In id (ids reg).
Proof.
  intros (Hlen & Hnd & Hnone) Hfull Hid.
  assert (Hincl : incl (ids reg) [ID_STUTTER; ID_FREEZE; ID_CHOKE; ID_FUNC]).
  { intros x Hx. destruct x; cbn; auto 6; tauto. }
  assert (Hback : incl [ID_STUTTER; ID_FREEZE; ID_CHOKE; ID_FUNC] (ids reg)).
  { apply NoDup_length_incl; [apply NoDup_ListNoDup, Hnd | | exact Hincl].
    unfold ids. rewrite length_map. cbn. lia. }
  apply Hback. destruct id; cbn; auto 6; congruence.
Qed.

(** X17. The registry built by any sequence of [registerEffect] calls holds
    at most four entries with pairwise different identifiers, none of them
    NONE. On such a registry a registration succeeds exactly when the
    pointer is non-null, the identifier is not NONE and it is not registered
    yet: the capacity check never rejects a call the other checks would
    accept, since a full registry already holds all four identifiers. A
    successful call makes the new identifier resolve to the new pointer and
    changes no other lookup; a failed one leaves the registry as it was. *)
Theorem X17_registry_is_a_partial_map
    (calls : list (EffectID * option EffectPtr)) (id : EffectID)
    (effect : option EffectPtr) :
  let reg := registerAll calls in
  let accepted :=
    match effect with
    | Some _ => negb (EffectID_eqb id ID_NONE) && negb (registered id reg)
    | None => false
    end in
  ((length reg <= 4)%nat /\ NoDup (ids reg) /\ ~ In ID_NONE (ids reg)) /\
  (registered id reg = true <-> In id (ids reg)) /\
  fst (registerEffect id effect reg) = accepted /\
  (accepted = false -> snd (registerEffect id effect reg) = reg) /\
  (accepted = true ->
     forall id', getEffect id' (snd (registerEffect id effect reg))
                 = if EffectID_eqb id id' then effect else getEffect id' reg).
Proof.
  intros reg accepted. pose proof (registerAll_ok calls) as Hok. fold reg in Hok.
  split; [exact Hok|].
  assert (Hreg : registered id reg = true <-> In id (ids reg)).
  { unfold registered. pose proof (getEffect_None id reg) as H.
    destruct (getEffect id reg) as [x|] eqn:Hget.
    - split; [intros _|reflexivity]. apply (getEffect_Some id reg x Hget).
    - split; [discriminate|]. intros Hin. exfalso. apply (proj1 H eq_refl Hin). }
  split; [exact Hreg|].
  unfold accepted, registerEffect, MAX_EFFECTS. destruct effect as [e|];
    [|cbn; split; [reflexivity|]; split; [reflexivity | discriminate]].
  destruct (EffectID_eqb id ID_NONE) eqn:Hnone.
  { apply EffectID_eqb_eq in Hnone. subst id. cbn.
    split; [reflexivity|]. split; [reflexivity | discriminate]. }
  assert (Hid : id <> ID_NONE) by (intros ->; discriminate).
  assert (Hbody :
    (if 4 <=? Z.of_nat (length reg) then (false, reg)
     else match getEffect id reg with
          | Some _ => (false, reg)
          | None => (true, reg ++ [(id, e)])
          end)
    = if registered id reg then (false, reg)
      else (true, reg ++ [(id, e)])).
  { destruct (registered id reg) eqn:R.
    - destruct (4 <=? Z.of_nat (length reg)); [reflexivity|].
      unfold registered in R. destruct (getEffect id reg); [reflexivity|discriminate].
    - destruct (Z.leb_spec 4 (Z.of_nat (length reg))) as [Hfull|_].
      + exfalso.
        assert (Hin : In id (ids reg))
          by (apply full_registry_has_all; [exact Hok | lia | exact Hid]).
        apply Hreg in Hin. congruence.
      + unfold registered in R. destruct (getEffect id reg); [discriminate|reflexivity]. }
  replace (match id with
           | ID_NONE => (false, reg)
           | _ => if 4 <=? Z.of_nat (length reg) then (false, reg)
                  else match getEffect id reg with
                       | Some _ => (false, reg)
                       | None => (true, reg ++ [(id, e)])
                       end
           end)
    with (if registered id reg then (false, reg)
          else (true, reg ++ [(id, e)]))
    by (rewrite <- Hbody; destruct id; congruence).
  cbn [negb andb].
  destruct (registered id reg) eqn:R; cbn [fst snd negb].
  - split; [reflexivity|]. split; [reflexivity | discriminate].
  - split; [reflexivity|]. split; [discriminate|]. intros _ id'.
    apply getEffect_app. unfold registered in R.
    destruct (getEffect id reg); [discriminate|reflexivity].
Qed.

(** X18. Dispatch on the registry of main.cpp. A NONE command succeeds and
    does nothing. Any other command whose target is not STUTTER, FREEZE or
    CHOKE, or whose type is none of TOGGLE, ENABLE, DISABLE, SET_PARAM,
    fails and changes nothing. Otherwise the command succeeds and touches
    the targeted engine only, whose enabled flag becomes true for ENABLE,
    false for DISABLE, flips for TOGGLE and stays for SET_PARAM. *)
Theorem X18_dispatch_reaches_only_the_target (cmd : Command) (w : Engines) :
  let r := executeCommand cmd mainRegistry w in
  let target :=
    match targetEffect cmd with
    | ID_STUTTER => Some PtrStutter
    | ID_FREEZE => Some PtrFreeze
    | ID_CHOKE => Some PtrChoke
    | _ => None
    end in
  getEffect (targetEffect cmd) mainRegistry = target /\
  match type cmd, target with
  | CMD_NONE, _ => r = (true, w)
  | _, None => r = (false, w)
  | CMD_UNKNOWN _, _ => r = (false, w)
  | ty, Some p =>
      fst r = true /\
      (p <> PtrStutter -> stutter (snd r) = stutter w) /\
      (p <> PtrFreeze -> freeze (snd r) = freeze w) /\
      (p <> PtrChoke -> choke (snd r) = choke w) /\
      isEnabledOf p (snd r) =
        match ty with
        | EFFECT_ENABLE => true
        | EFFECT_DISABLE => false
        | EFFECT_TOGGLE => negb (isEnabledOf p w)
        | _ => isEnabledOf p w
        end
  end.
Proof.
  intros r target. subst r target. split.
  - destruct (targetEffect cmd); reflexivity.
  - unfold executeCommand.
    destruct (type cmd), (targetEffect cmd); cbn;
      try reflexivity;
      repeat split; try congruence;
      unfold Stutter.stutter_toggle, Freeze.freeze_toggle, Choke.choke_toggle;
      cbn;
      try (destruct (Stutter.stutter_isEnabled (stutter w)) eqn:E; cbn; congruence);
      try (destruct (Freeze.freeze_isEnabled (freeze w)) eqn:E; cbn; congruence);
      try (destruct (Choke.choke_isEnabled (choke w)) eqn:E; cbn; congruence).
    + change (getEffect ID_STUTTER mainRegistry) with (Some PtrStutter).
      cbn [snd call stutter toggle Stutter.effect].
      unfold Stutter.stutter_toggle.
      destruct (Stutter.stutter_isEnabled (stutter w)); reflexivity.
    + change (getEffect ID_FREEZE mainRegistry) with (Some PtrFreeze).
      cbn [snd call freeze toggle Freeze.effect].
      unfold Freeze.freeze_toggle.
      destruct (Freeze.freeze_isEnabled (freeze w)); reflexivity.
    + change (getEffect ID_CHOKE mainRegistry) with (Some PtrChoke).
      cbn [snd call choke toggle Choke.effect].
      unfold Choke.choke_toggle.
      destruct (Choke.choke_isEnabled (choke w)); reflexivity.
Qed.

End Registry.

(** ** Buttons: the command loop on CHOKE commands *)

Section ChokeButtons.
Context {F : Float32}.
Variable q : EffectQuantization.t.
Variable tk : TimeKeeper.t.
Import EffectManager InputCommands.

Local Abbreviation handle := (processInputCommand q tk mainRegistry).

Lemma choke_stays_released blocks : forall c : Choke.t,
  Choke.m_isEnabled c = false -> Choke.m_targetGain c = f_one ->
  Choke.m_onsetAtSample c = 0 ->
  let c' := Choke.run (Choke.updates blocks) c in
  Choke.m_isEnabled c' = false /\ Choke.m_targetGain c' = f_one /\
  Choke.m_onsetAtSample c' = 0.
Proof.
  induction blocks as [|[p io] rest IH]; intros c H1 H2 H3; [cbn; auto|].
  cbn [Choke.updates map Choke.run foldl fst snd Choke.step].
  apply IH;
    destruct (update_control p io c) as (C1 & C2 & _ & _ & _ & C6);
    rewrite ?C1, ?C2, ?C6;
    (assert (E : Choke.checkOnset p c = c)
       by (unfold Choke.checkOnset, Choke.inBlock; rewrite H3; reflexivity));
    rewrite E; unfold Choke.checkRelease;
    destruct (Choke.inBlock (Choke.m_releaseAtSample c) p); cbn;
    first [assumption | reflexivity].
Qed.

(** X19. The CHOKE key with free length is momentary. A press (an ENABLE
    or a TOGGLE command alike, whatever the state before) engages the choke
    at once when the onset is free and only schedules the onset when it is
    quantized. The release that follows always leaves the choke disengaged
    with target gain 1.0 and no onset pending, touches no other engine, and
    however many blocks follow the choke stays disengaged: a key released
    before its quantized onset never mutes. *)
Theorem X19_choke_key_is_momentary
    (press release : Command) (w : Engines) (blocks : list (Z * BlockIO)) :
  targetEffect press = ID_CHOKE ->
  type press = EFFECT_ENABLE \/ type press = EFFECT_TOGGLE ->
  targetEffect release = ID_CHOKE -> type release = EFFECT_DISABLE ->
  Choke.m_lengthMode (choke w) = FREE ->
  (Choke.m_onsetMode (choke w) = FREE ->
     handle press w = Some (with_choke (Choke.choke_enable (choke w)) w)) /\
  (Choke.m_onsetMode (choke w) = QUANTIZED ->
     handle press w =
       match ChokeController.quantizedOnsetSample q tk with
       | Some onset => Some (with_choke (Choke.scheduleOnset onset (choke w)) w)
       | None => None
       end) /\
  (forall w1, handle press w = Some w1 ->
     exists w2, handle release w1 = Some w2 /\
       stutter w2 = stutter w /\ freeze w2 = freeze w /\
       let c := Choke.run (Choke.updates blocks) (choke w2) in
       Choke.m_isEnabled c = false /\ Choke.m_targetGain c = f_one /\
       Choke.m_onsetAtSample c = 0).
Proof.
  intros Tp Yp Tr Yr Hlen.
  assert (Hpress : handle press w =
    match Choke.m_onsetMode (choke w) with
    | FREE => Some (with_choke (Choke.choke_enable (choke w)) w)
    | QUANTIZED =>
        match ChokeController.quantizedOnsetSample q tk with
        | Some onset => Some (with_choke (Choke.scheduleOnset onset (choke w)) w)
        | None => None
        end
    end).
  { unfold processInputCommand, ChokeController.handleButtonPress.
    rewrite Tp. unfold Choke.getLengthMode, Choke.getOnsetMode. rewrite Hlen.
    destruct Yp as [-> | ->]; destruct (Choke.m_onsetMode (choke w));
      try reflexivity;
      destruct (ChokeController.quantizedOnsetSample q tk); reflexivity. }
  split; [intros E; rewrite Hpress, E; reflexivity|].
  split; [intros E; rewrite Hpress, E; reflexivity|].
  intros w1 H1. rewrite Hpress in H1.
  assert (Hw1 : stutter w1 = stutter w /\ freeze w1 = freeze w /\
                Choke.m_lengthMode (choke w1) = FREE).
  { destruct (Choke.m_onsetMode (choke w));
      [|destruct (ChokeController.quantizedOnsetSample q tk); [|discriminate]];
      injection H1 as <-; cbn; auto. }
  destruct Hw1 as (S1 & S2 & L1).
  exists (with_choke (Choke.choke_disable (Choke.cancelScheduledOnset (choke w1))) w1).
  split.
  { unfold processInputCommand, ChokeController.handleButtonRelease.
    rewrite Tr, Yr. unfold Choke.getLengthMode. rewrite L1.
    unfold finish, executeCommand. cbn [type targetEffect]. rewrite Yr, Tr.
    reflexivity. }
  split; [exact S1|]. split; [exact S2|].
  apply choke_stays_released; reflexivity.
Qed.

(** X20. The CHOKE key with quantized length and free onset is timed. The
    press engages the choke and schedules the release one quantized
    duration after the current sample position; the release of the key is
    ignored; and a block of the audio interrupt leaves the choke engaged
    unless it contains the scheduled sample, in which case the choke is
    disengaged with target gain 1.0 and the schedule cleared. *)
Theorem X20_choke_key_is_timed
    (press release : Command) (w : Engines) (c : Z) (io : BlockIO) :
  targetEffect press = ID_CHOKE ->
  type press = EFFECT_ENABLE \/ type press = EFFECT_TOGGLE ->
  targetEffect release = ID_CHOKE -> type release = EFFECT_DISABLE ->
  Choke.m_lengthMode (choke w) = QUANTIZED ->
  Choke.m_onsetMode (choke w) = FREE ->
  0 <= c -> c + 128 < 2 ^ 64 ->
  let duration :=
    EffectQuantization.calculateQuantizedDuration
      (EffectQuantization.getGlobalQuantization q) tk in
  let at_ := u64 (TimeKeeper.getSamplePosition tk + duration) in
  let w1 := with_choke (Choke.scheduleRelease at_ (Choke.choke_enable (choke w))) w in
  let after := fst (Choke.update c io (choke w1)) in
  handle press w = Some w1 /\
  handle release w1 = Some w1 /\
  (c <= at_ < c + 128 -> 0 < at_ ->
     Choke.m_isEnabled after = false /\ Choke.m_targetGain after = f_one /\
     Choke.m_releaseAtSample after = 0) /\
  (~ (c <= at_ < c + 128) ->
     Choke.m_isEnabled after = true /\ Choke.m_targetGain after = f_zero /\
     Choke.m_releaseAtSample after = at_).
Proof.
  intros Tp Yp Tr Yr Hlen Hon Hc Hend duration at_ w1 after.
  split.
  { unfold processInputCommand, ChokeController.handleButtonPress.
    rewrite Tp. unfold Choke.getLengthMode, Choke.getOnsetMode.
    rewrite Hlen, Hon. destruct Yp as [-> | ->]; reflexivity. }
  split.
  { unfold processInputCommand, ChokeController.handleButtonRelease.
    rewrite Tr, Yr. unfold Choke.getLengthMode.
    change (Choke.m_lengthMode (choke w1)) with (Choke.m_lengthMode (choke w)).
    rewrite Hlen. destruct w; reflexivity. }
  destruct (update_control c io (choke w1)) as (C1 & C2 & _ & C4 & _ & _).
  fold after in C1, C2, C4. rewrite C1, C2, C4.
  set (c1 := Choke.checkOnset c (choke w1)).
  assert (H1 : Choke.m_isEnabled c1 = true /\ Choke.m_targetGain c1 = f_zero /\
               Choke.m_releaseAtSample c1 = at_).
  { unfold c1, Choke.checkOnset. destruct (Choke.inBlock _ c); cbn; auto. }
  destruct H1 as (E1 & E2 & E3). unfold Choke.checkRelease. rewrite E3.
  pose proof (inBlock_spec at_ c Hc Hend) as Hspec.
  split.
  - intros Hin Hpos. rewrite (proj2 Hspec) by lia. cbn. auto.
  - intros Hout. destruct (Choke.inBlock at_ c) eqn:E.
    + exfalso. apply Hout. apply (proj1 Hspec). reflexivity.
    + auto.
Qed.

End ChokeButtons.

Lemma X19_choke_key_is_momentary_witness :
  let w := EffectManager.mkEngines Stutter.initial Freeze.initial
             (Choke.initial (F := ExactGain)) in
  let press := mkCommand EFFECT_TOGGLE ID_CHOKE 0 0 0 in
  InputCommands.processInputCommand EffectQuantization.initialize
    TimeKeeper.initial EffectManager.mainRegistry press w
  = Some (InputCommands.with_choke (Choke.choke_enable (EffectManager.choke w)) w).
Proof.
  intros w press.
  exact (proj1 (X19_choke_key_is_momentary (F := ExactGain)
                  EffectQuantization.initialize TimeKeeper.initial
                  press (mkCommand EFFECT_DISABLE ID_CHOKE 0 0 0) w []
                  eq_refl (or_intror eq_refl) eq_refl eq_refl eq_refl) eq_refl).
Defined.

Lemma X20_choke_key_is_timed_witness :
  let w := EffectManager.mkEngines Stutter.initial Freeze.initial
             (Choke.setLengthMode QUANTIZED (Choke.initial (F := ExactGain))) in
  let w1 := InputCommands.with_choke
              (Choke.scheduleRelease 5512 (Choke.choke_enable (EffectManager.choke w))) w in
  Choke.m_isEnabled
    (fst (Choke.update 5504 (mkIO None None true true) (EffectManager.choke w1)))
  = false.
Proof.
  intros w w1.
  destruct (X20_choke_key_is_timed (F := ExactGain)
              EffectQuantization.initialize TimeKeeper.initial
              (mkCommand EFFECT_ENABLE ID_CHOKE 0 0 0)
              (mkCommand EFFECT_DISABLE ID_CHOKE 0 0 0) w 5504
              (mkIO None None true true)
              eq_refl (or_introl eq_refl) eq_refl eq_refl eq_refl eq_refl
              ltac:(lia) ltac:(lia)) as (_ & _ & H & _).
  destruct H as (H & _);
    [vm_compute; split; [discriminate | reflexivity] | reflexivity |].
  exact H.
Defined.

(** ** Buttons: the command loop on FREEZE commands *)

Section FreezeButtons.
Context {F : Float32}.
Variable q : EffectQuantization.t.
Variable tk : TimeKeeper.t.
Import EffectManager InputCommands.

Local Abbreviation handle := (processInputCommand q tk mainRegistry).

(** X21. The FREEZE key with free onset and free length is momentary.
    With nothing scheduled, a press engages the freeze at once: while the
    key is held the output ignores the input and is the ring read from the
    write position around and around (the last 132 samples recorded, oldest
    first). The release disengages it, and from then on every full input
    block is passed through unchanged again. Neither command touches the
    other engines. *)
Theorem X21_freeze_key_is_momentary
    (press release : Command) (w : Engines) (held resumed : list (Z * BlockIO)) :
  targetEffect press = ID_FREEZE ->
  type press = EFFECT_ENABLE \/ type press = EFFECT_TOGGLE ->
  targetEffect release = ID_FREEZE -> type release = EFFECT_DISABLE ->
  Freeze.m_lengthMode (freeze w) = FREE -> Freeze.m_onsetMode (freeze w) = FREE ->
  Freeze.wf (freeze w) ->
  Freeze.m_onsetAtSample (freeze w) = 0 -> Freeze.m_releaseAtSample (freeze w) = 0 ->
  Forall (fun p => can_allocate (snd p)) held ->
  Forall (fun p => full_input (snd p)) resumed ->
  let w1 := with_freeze (Freeze.freeze_enable (freeze w)) w in
  let frozen := Freeze.run (Freeze.updates held) (freeze w1) in
  let w2 := with_freeze (Freeze.freeze_disable (fst frozen)) w1 in
  handle press w = Some w1 /\
  left_stream (snd frozen)
    = looped (unrolled (Freeze.m_freezeBufferL (freeze w)) (Freeze.m_writePos (freeze w)))
             (128 * length held) /\
  right_stream (snd frozen)
    = looped (unrolled (Freeze.m_freezeBufferR (freeze w)) (Freeze.m_writePos (freeze w)))
             (128 * length held) /\
  handle release (with_freeze (fst frozen) w1) = Some w2 /\
  snd (Freeze.run (Freeze.updates resumed) (freeze w2)) = inputs resumed /\
  stutter w2 = stutter w /\ choke w2 = choke w.
Proof.
  intros Tp Yp Tr Yr Hlen Hon Hwf Hos Hrs Hheld Hres w1 frozen w2.
  pose proof Hwf as (HL & HR & Hw & _).
  rewrite FREEZE_BUFFER_SAMPLES_value in HL, HR, Hw.
  assert (Hwf1 : Freeze.wf (freeze w1)) by (apply enable_wf, Hwf).
  destruct (run_frozen held (freeze w1) Hwf1 eq_refl Hos Hrs Hheld)
    as (F1 & _ & _ & F4 & F5).
  fold frozen in F1, F4, F5.
  split.
  { unfold processInputCommand, FreezeController.handleButtonPress.
    rewrite Tp. unfold Freeze.getLengthMode, Freeze.getOnsetMode.
    rewrite Hlen, Hon. destruct Yp as [-> | ->]; reflexivity. }
  split.
  { rewrite F4. apply ring_read_looped; assumption. }
  split.
  { rewrite F5. apply ring_read_looped; assumption. }
  split.
  { assert (HlenF : Freeze.m_lengthMode (fst frozen) = FREE)
      by (rewrite F1; exact Hlen).
    assert (Hcancel : Freeze.cancelScheduledOnset (fst frozen) = fst frozen).
    { assert (H0 : Freeze.m_onsetAtSample (fst frozen) = 0)
        by (rewrite F1; exact Hos).
      revert H0. generalize (fst frozen). intros s H0.
      destruct s; cbn in *; subst; reflexivity. }
    unfold processInputCommand, FreezeController.handleButtonRelease.
    rewrite Tr, Yr. unfold Freeze.getLengthMode. cbn [freeze with_freeze].
    rewrite HlenF, Hcancel. unfold finish, executeCommand. rewrite Yr, Tr.
    reflexivity. }
  split; [|split; reflexivity].
  apply run_recording; [| reflexivity | | exact Hres].
  - unfold w2. cbn [freeze with_freeze]. rewrite F1.
    destruct Hwf1 as (A & B & C & D). unfold Freeze.wf. cbn.
    rewrite FREEZE_BUFFER_SAMPLES_value in *.
    pose proof (Z.mod_pos_bound
                  (Freeze.m_writePos (freeze w) + Z.of_nat (128 * length held)) 132).
    cbn in A, B, C. auto with zarith.
  - unfold w2. cbn [freeze with_freeze]. rewrite F1. exact Hos.
Qed.

End FreezeButtons.

Lemma X21_freeze_key_is_momentary_witness :
  let w := EffectManager.mkEngines Stutter.initial Freeze.initial
             (Choke.initial (F := ExactGain)) in
  let w1 := InputCommands.with_freeze
              (Freeze.freeze_enable (EffectManager.freeze w)) w in
  InputCommands.processInputCommand EffectQuantization.initialize
    TimeKeeper.initial EffectManager.mainRegistry
    (mkCommand EFFECT_ENABLE ID_FREEZE 0 0 0) w = Some w1.
Proof.
  intros w w1.
  assert (Hwf : Freeze.wf (EffectManager.freeze w))
    by (repeat split; vm_compute; congruence).
  exact (proj1 (X21_freeze_key_is_momentary (F := ExactGain)
                  EffectQuantization.initialize TimeKeeper.initial
                  (mkCommand EFFECT_ENABLE ID_FREEZE 0 0 0)
                  (mkCommand EFFECT_DISABLE ID_FREEZE 0 0 0) w [] []
                  eq_refl (or_introl eq_refl) eq_refl eq_refl eq_refl eq_refl
                  Hwf eq_refl eq_refl (Forall_nil_2 _) (Forall_nil_2 _))).
Defined.

(** ** The trace buffer *)

Section TraceRing.
Import Trace.

Lemma trace_mask (x : Z) : Z.land x (BUFFER_SIZE - 1) = x mod 1024.
Proof. change (BUFFER_SIZE - 1) with (Z.ones 10). apply Z.land_ones. lia. Qed.

Lemma record_event (e : TraceEvent) (tr : t) :
  record (timestamp e) (eventId e) (value e) tr
    = mk (<[Z.to_nat (s_writeIdx tr mod 1024) := e]> (s_buffer tr))
         (u32 (s_writeIdx tr + 1)).
Proof. unfold record. rewrite trace_mask. destruct e; reflexivity. Qed.

(** The ring, read from the write index around, is a window that slides
    over what is recorded. *)
Lemma recordAll_window (events : list TraceEvent) : forall tr : t,
  Z.of_nat (length (s_buffer tr)) = 1024 -> 0 <= s_writeIdx tr ->
  s_writeIdx tr + Z.of_nat (length events) < 2 ^ 32 ->
  let tr' := recordAll events tr in
  s_writeIdx tr' = s_writeIdx tr + Z.of_nat (length events) /\
  Z.of_nat (length (s_buffer tr')) = 1024 /\
  unrolled (s_buffer tr') (s_writeIdx tr' mod 1024)
    = drop (length events)
        (unrolled (s_buffer tr) (s_writeIdx tr mod 1024) ++ events).
Proof.
  induction events as [|e events IH]; intros tr Hlen Hw Hroom.
  - cbn. rewrite app_nil_r, Z.add_0_r. auto.
  - cbn [length] in Hroom.
    change (recordAll (e :: events) tr)
      with (recordAll events (record (timestamp e) (eventId e) (value e) tr)).
    rewrite record_event.
    set (tr1 := mk _ _).
    assert (Hw1 : s_writeIdx tr1 = s_writeIdx tr + 1)
      by (unfold tr1; cbn; apply u32_small; unfold is_u32; lia).
    assert (Hlen1 : Z.of_nat (length (s_buffer tr1)) = 1024)
      by (unfold tr1; cbn; rewrite length_insert; exact Hlen).
    destruct (IH tr1 Hlen1 ltac:(lia) ltac:(lia)) as (I1 & I2 & I3).
    cbv zeta. rewrite I3, I1, Hw1. split; [cbn [length]; lia|].
    split; [exact I2|].
    unfold tr1 at 1. cbn [s_buffer].
    rewrite <- (Zplus_mod_idemp_l (s_writeIdx tr) 1 1024).
    rewrite (unrolled_write 1024) by
      (try exact Hlen; apply Z.mod_pos_bound; lia).
    cbn [length]. apply slide_step.
Qed.

Lemma dumpLoop_filter (n : nat) : forall (i : nat) (start : Z) (buf : list TraceEvent),
  0 <= start < 1024 -> (i + n <= 1024)%nat ->
  dumpLoop n (Z.of_nat i) start buf
    = filter (fun e => timestamp e <> 0)
        (map (fun k => buf !!! Z.to_nat ((start + Z.of_nat k) mod 1024)) (seq i n)).
Proof.
  induction n as [|n IH]; intros i start buf Hs Hi; [reflexivity|].
  cbn [dumpLoop seq map]. rewrite trace_mask.
  rewrite u32_small by (unfold is_u32; lia).
  replace (Z.of_nat i + 1) with (Z.of_nat (S i)) by lia.
  rewrite (IH (S i) start buf Hs) by lia.
  set (e := buf !!! Z.to_nat ((start + Z.of_nat i) mod 1024)).
  destruct (Z.eqb_spec (timestamp e) 0) as [E|E].
  - rewrite filter_cons_False by (intros H; apply H; exact E). reflexivity.
  - rewrite filter_cons_True by exact E. reflexivity.
Qed.

Lemma read_around (buf : list TraceEvent) (start : Z) :
  Z.of_nat (length buf) = 1024 -> 0 <= start < 1024 ->
  map (fun k => buf !!! Z.to_nat ((start + Z.of_nat k) mod 1024)) (seq 0 1024)
    = unrolled buf start.
Proof.
  intros Hlen Hs. apply (list_eq_same_length _ _ 1024).
  - rewrite unrolled_length. lia.
  - rewrite length_map, length_seq. reflexivity.
  - intros i x y Hi Hx Hy.
    rewrite list_lookup_fmap, lookup_seq_lt in Hx by exact Hi.
    cbn in Hx. injection Hx as <-.
    apply list_lookup_total_correct in Hy. rewrite <- Hy.
    rewrite (unrolled_lookup 1024) by lia. reflexivity.
Qed.

Lemma dump_unrolled (tr : t) :
  Z.of_nat (length (s_buffer tr)) = 1024 -> 0 <= s_writeIdx tr ->
  dump tr = filter (fun e => timestamp e <> 0)
              (unrolled (s_buffer tr)
                 (if 1024 <=? s_writeIdx tr then s_writeIdx tr mod 1024 else 0)).
Proof.
  intros Hlen Hw. unfold dump. rewrite trace_mask.
  change BUFFER_SIZE with 1024. change (Z.to_nat 1024) with 1024%nat.
  set (start := if 1024 <=? s_writeIdx tr then s_writeIdx tr mod 1024 else 0).
  assert (Hs : 0 <= start < 1024).
  { unfold start. destruct (1024 <=? s_writeIdx tr); [|lia].
    apply Z.mod_pos_bound. lia. }
  change 0 with (Z.of_nat 0) at 1.
  rewrite (dumpLoop_filter 1024 0 start (s_buffer tr) Hs) by lia.
  rewrite read_around by assumption. reflexivity.
Qed.

(** X22. The trace dump is chronological. After [clear] (or from start-up)
    and fewer than 2^32 calls of [record], [dump] prints the last 1024
    recorded events, oldest first, leaving out those whose timestamp
    ([micros()] when they were recorded) is 0. *)
Theorem X22_trace_dump_is_chronological (events : list TraceEvent) (tr : t) :
  Z.of_nat (length events) < 2 ^ 32 ->
  dump (recordAll events (clear tr))
    = filter (fun e => timestamp e <> 0) (drop (length events - 1024) events) /\
  dump (recordAll events initial) = dump (recordAll events (clear tr)).
Proof.
  intros Hn. split; [|reflexivity].
  change (clear tr) with initial.
  assert (Hlen0 : Z.of_nat (length (s_buffer initial)) = 1024)
    by (cbn [initial s_buffer]; rewrite length_replicate; reflexivity).
  destruct (recordAll_window events initial Hlen0 ltac:(cbn; lia)
              ltac:(cbn [initial s_writeIdx]; lia)) as (W1 & W2 & W3).
  cbn [initial s_writeIdx s_buffer] in W1, W3. rewrite Z.add_0_l in W1.
  change (0 mod 1024) with 0 in W3.
  change (unrolled (replicate (Z.to_nat BUFFER_SIZE) (mkEvent 0 0 0)) 0)
    with (replicate 1024 (mkEvent 0 0 0) ++ []) in W3.
  rewrite app_nil_r in W3.
  set (tr' := recordAll events initial) in *.
  set (zeros := replicate 1024 (mkEvent 0 0 0)) in *.
  assert (Hz : forall k, filter (fun e => timestamp e <> 0)
                           (replicate k (mkEvent 0 0 0)) = []).
  { induction k as [|k IH]; [reflexivity|]. cbn [replicate].
    rewrite filter_cons_False by (cbn; intros H; apply H; reflexivity).
    exact IH. }
  rewrite dump_unrolled by (try exact W2; lia). rewrite W1.
  destruct (Z.leb_spec 1024 (Z.of_nat (length events))) as [Hbig|Hsmall].
  - rewrite <- W1, W3. rewrite drop_app_ge by (unfold zeros; rewrite length_replicate; lia).
    unfold zeros. rewrite length_replicate. reflexivity.
  - (* fewer than 1024 events: the buffer is the events followed by zeros *)
    replace (length events - 1024)%nat with 0%nat by lia. rewrite drop_0.
    rewrite drop_app_le in W3 by (unfold zeros; rewrite length_replicate; lia).
    unfold zeros in W3. rewrite drop_replicate in W3.
    rewrite W1, Z.mod_small in W3 by lia.
    unfold unrolled in W3. rewrite Nat2Z.id in W3.
    apply app_inj_1 in W3;
      [|rewrite length_drop, length_replicate; lia].
    destruct W3 as (Hd & Ht).
    change (unrolled (s_buffer tr') 0) with (s_buffer tr' ++ []).
    rewrite app_nil_r.
    rewrite <- (take_drop (length events) (s_buffer tr')), Hd, Ht.
    rewrite filter_app, Hz, app_nil_r. reflexivity.
Qed.

End TraceRing.

Lemma X22_trace_dump_is_chronological_witness :
  Trace.dump (Trace.recordAll
                [Trace.mkEvent 10 1 0; Trace.mkEvent 0 2 0; Trace.mkEvent 30 3 7]
                Trace.initial)
  = [Trace.mkEvent 10 1 0; Trace.mkEvent 30 3 7].
Proof.
  destruct (X22_trace_dump_is_chronological
              [Trace.mkEvent 10 1 0; Trace.mkEvent 0 2 0; Trace.mkEvent 30 3 7]
              Trace.initial ltac:(cbn; lia)) as (H1 & H2).
  rewrite H2, H1. vm_compute. reflexivity.
Defined.

(** ** Keys: the STUTTER controller *)

Section StutterKeys.
Import Stutter StutterController.
Variable q : EffectQuantization.t.

Local Abbreviation N := 151200.

Ltac fields :=
  cbn [m_stutterBufferL m_stutterBufferR m_writePos m_readPos m_captureLength
       m_state m_onsetMode m_lengthMode m_captureStartMode m_captureEndMode
       m_captureStartAtSample m_captureEndAtSample m_playbackOnsetAtSample
       m_playbackLengthAtSample Stutter.m_stutterHeld
       set_state set_writePos set_readPos set_captureLength set_modes
       set_schedule set_stutterHeld set_captureStartAt set_captureEndAt
       set_playbackOnsetAt set_playbackLengthAt] in *.

Ltac modes := unfold same_modes in *; fields; intuition congruence.

Lemma captureLoop_modes n : forall i dl dr s,
  same_modes (captureLoop n i dl dr s) s.
Proof.
  induction n as [|n IH]; intros i dl dr s; cbn [captureLoop]; [modes|].
  destruct (_ <? _); [|modes].
  match goal with
  | |- same_modes (captureLoop n (S i) dl dr ?s1) s =>
      pose proof (IH (S i) dl dr s1) as H;
      assert (H1 : same_modes s1 s) by (unfold writeSample; modes)
  end.
  modes.
Qed.

Lemma playLoop_modes n : forall s, same_modes (fst (playLoop n s)) s.
Proof.
  induction n as [|n IH]; intros s; cbn [playLoop]; [modes|].
  set (s1 := set_readPos _ s). pose proof (IH s1) as H.
  destruct (playLoop n s1) as [s2 [ls rs]]. cbn [fst] in *.
  assert (H1 : same_modes s1 s) by (unfold s1; modes). modes.
Qed.

Lemma update_modes c io s : same_modes (fst (update c io s)) s.
Proof.
  unfold update.
  assert (H0 : same_modes (checkSchedules c s) s).
  { unfold checkSchedules, checkPlaybackLength, checkPlaybackOnset,
      checkCaptureEnd, checkCaptureStart, finishCapture.
    repeat match goal with
           | |- context [if ?b then _ else _] => destruct b
           end; modes. }
  revert H0. generalize (checkSchedules c s). intros s1 H0.
  assert (H1 : same_modes (fst (process io s1)) s1).
  { unfold process.
    destruct (m_state s1); destruct (in0 io) as [dl|], (in1 io) as [dr|];
      cbn [fst]; try (modes; fail);
      try (pose proof (captureLoop_modes (Z.to_nat AUDIO_BLOCK_SAMPLES) 0 dl dr s1) as H;
           revert H;
           generalize (captureLoop (Z.to_nat AUDIO_BLOCK_SAMPLES) 0 dl dr s1);
           intros s2 H; unfold bufferFull;
           destruct (_ <=? _); [destruct (Stutter.m_stutterHeld _)|]; modes);
      destruct (alloc0 io && alloc1 io); try (modes; fail);
      pose proof (playLoop_modes (Z.to_nat AUDIO_BLOCK_SAMPLES) s1) as H;
      destruct (playLoop _ s1) as [s2 [ls rs]]; exact H. }
  modes.
Qed.

Lemma updates_modes blocks : forall s, same_modes (fst (updates blocks s)) s.
Proof.
  induction blocks as [|[c io] rest IH]; intros s; cbn [updates]; [modes|].
  pose proof (update_modes c io s) as H. destruct (update c io s) as [s1 out].
  pose proof (IH s1) as H1. destruct (updates rest s1) as [s2 outs].
  cbn [fst] in *. modes.
Qed.

Lemma updates_idle blocks : forall s,
  unscheduled s -> m_state s = IDLE_WITH_LOOP ->
  Forall (fun p => full_input (snd p)) blocks ->
  updates blocks s = (s, inputs blocks).
Proof.
  induction blocks as [|[c io] rest IH]; intros s Hun Hst Hall; [reflexivity|].
  apply Forall_cons in Hall. destruct Hall as (Hio & Hall). cbn [snd] in Hio.
  cbn [updates].
  assert (E : update c io s = (s, (in0 io, in1 io))).
  { unfold update. rewrite (checkSchedules_unscheduled c s Hun).
    unfold process. rewrite Hst. unfold full_input in Hio.
    destruct (in0 io); [|contradiction]. destruct (in1 io); [|contradiction].
    reflexivity. }
  rewrite E, (IH s Hun Hst Hall). reflexivity.
Qed.

Lemma drive_audio blocks : forall rest c s,
  drive q (audio blocks ++ rest) c s =
    match drive q rest c (fst (updates blocks s)) with
    | Some (c2, s2, outs) => Some (c2, s2, snd (updates blocks s) ++ outs)
    | None => None
    end.
Proof.
  induction blocks as [|[p io] blocks IH]; intros rest c s.
  - cbn. destruct (drive q rest c s) as [[[c2 s2] outs]|]; reflexivity.
  - cbn [audio map app drive fst snd updates]. fold (audio blocks).
    destruct (update p io s) as [s1 out]. rewrite IH.
    destruct (updates blocks s1) as [s2 outs]. cbn [fst snd].
    destruct (drive q rest c s2) as [[[c3 s3] outs3]|]; reflexivity.
Qed.

Lemma stream_app a b :
  left_stream (a ++ b) = left_stream a ++ left_stream b /\
  right_stream (a ++ b) = right_stream a ++ right_stream b.
Proof.
  unfold left_stream, right_stream. rewrite !map_app, !concat_app. auto.
Qed.

(** X23. The capture gesture, with all four modes free and nothing
    scheduled. FUNC down, STUTTER down starts the capture; the input is
    passed through while it is captured (1 to 1181 full blocks); FUNC up
    with STUTTER still down ends the capture and starts the loop; STUTTER
    up stops it and the input passes through again; STUTTER down replays the
    loop from its start. So the output is: what was heard during the
    capture, then that same audio looped, then the live input, then the
    loop again from its first sample. *)
Theorem X23_stutter_capture_gesture
    (tk1 tk2 tk3 tk4 tk5 : TimeKeeper.t) (c0 : StutterController.t) (s : Stutter.t)
    (recorded played idle replayed : list (Z * BlockIO)) :
  bounds s -> unscheduled s ->
  m_captureStartMode s = FREE -> m_captureEndMode s = FREE ->
  m_lengthMode s = FREE -> m_onsetMode s = FREE ->
  Forall (fun p => full_input (snd p)) recorded ->
  (1 <= length recorded <= 1181)%nat ->
  Forall (fun p => can_allocate (snd p)) played ->
  Forall (fun p => full_input (snd p)) idle ->
  Forall (fun p => can_allocate (snd p)) replayed ->
  let gesture :=
    Press tk1 pressFunc :: Press tk2 pressStutter :: audio recorded
    ++ Release tk3 releaseFunc :: audio played
    ++ Release tk4 releaseStutter :: audio idle
    ++ Press tk5 pressStutter :: audio replayed in
  let heardL := left_stream (inputs recorded) in
  let heardR := right_stream (inputs recorded) in
  match drive q gesture c0 s with
  | Some (c', s', outs) =>
      c' = StutterController.mk false true /\ m_state s' = PLAYING /\
      m_captureLength s' = 128 * Z.of_nat (length recorded) /\
      left_stream outs
        = heardL ++ looped heardL (128 * length played)
          ++ left_stream (inputs idle) ++ looped heardL (128 * length replayed) /\
      right_stream outs
        = heardR ++ looped heardR (128 * length played)
          ++ right_stream (inputs idle) ++ looped heardR (128 * length replayed)
  | None => False
  end.
Proof.
  intros Hb Hun Mcs Mce Mlen Mon Hrec Hn Hplay Hidle Hrep gesture heardL heardR.
  subst gesture.
  (* the capture *)
  assert (Hb0 : bounds (startCapture s)).
  { pose proof Hb as (A & B & C & D & E). unfold bounds, startCapture. fields.
    rewrite STUTTER_BUFFER_SAMPLES_value in *. lia. }
  destruct (updates_capturing recorded (startCapture s) Hb0 Hun eq_refl Hrec)
    as (C1 & C2 & C3 & C4 & C5 & C6 & C7).
  { change (m_writePos (startCapture s)) with 0. lia. }
  pose proof (updates_modes recorded (startCapture s)) as Cm.
  set (s1 := fst (updates recorded (startCapture s))) in *.
  change (m_writePos (startCapture s)) with 0 in C5, C6, C7.
  change (Z.to_nat 0) with 0%nat in C6, C7. rewrite take_0 in C6, C7.
  cbn [app] in C6, C7. rewrite Z.add_0_l in C5.
  assert (Mce1 : m_captureEndMode s1 = FREE)
    by (destruct Cm as (_ & _ & _ & ->); exact Mce).
  (* the loop *)
  set (s2 := set_state PLAYING (set_readPos 0 (set_captureLength (m_writePos s1) s1))).
  assert (E2 : endCapture true s1 = s2).
  { unfold endCapture, finishCapture.
    destruct (Z.ltb_spec 0 (m_writePos s1)); [reflexivity|lia]. }
  assert (Hun2 : unscheduled s2) by exact C3.
  pose proof C2 as (HL & HR & Hw & _).
  rewrite STUTTER_BUFFER_SAMPLES_value in HL, HR, Hw.
  destruct (updates_playing played s2 Hun2 eq_refl) as (P1 & _ & P3 & P4);
    [unfold s2; fields; lia | unfold s2; fields; lia | exact Hplay |].
  change (m_captureLength s2) with (m_writePos s1) in P1, P3, P4.
  change (m_readPos s2) with 0 in P1, P3, P4.
  change (m_stutterBufferL s2) with (m_stutterBufferL s1) in P3.
  change (m_stutterBufferR s2) with (m_stutterBufferR s1) in P4.
  rewrite ring_read_prefix in P3, P4 by lia.
  rewrite C6 in P3. rewrite C7 in P4.
  set (s3 := fst (updates played s2)) in *.
  (* the key goes up *)
  set (s4 := stopPlayback s3).
  assert (Hun4 : unscheduled s4) by (unfold s4; rewrite P1; exact C3).
  assert (Hidle4 : updates idle s4 = (s4, inputs idle))
    by (apply updates_idle; [exact Hun4 | reflexivity | exact Hidle]).
  (* and down again *)
  set (s5 := startPlayback s4).
  assert (Hun5 : unscheduled s5) by exact Hun4.
  assert (Hcl5 : m_captureLength s5 = m_writePos s1)
    by (unfold s5, s4; rewrite P1; reflexivity).
  destruct (updates_playing replayed s5 Hun5 eq_refl) as (R1 & _ & R3 & R4);
    [rewrite Hcl5; change (m_readPos s5) with 0; lia | rewrite Hcl5; lia
    | exact Hrep |].
  rewrite Hcl5 in R1, R3, R4. change (m_readPos s5) with 0 in R1, R3, R4.
  assert (B5 : m_stutterBufferL s5 = m_stutterBufferL s1 /\
               m_stutterBufferR s5 = m_stutterBufferR s1)
    by (unfold s5, s4; rewrite P1; split; reflexivity).
  destruct B5 as (B5L & B5R). rewrite B5L in R3. rewrite B5R in R4.
  rewrite ring_read_prefix in R3, R4 by lia.
  rewrite C6 in R3. rewrite C7 in R4.
  (* the handlers *)
  cbn [drive handleButtonPress pressFunc targetEffect].
  assert (K2 : handleButtonPress q tk2 pressStutter
                 (StutterController.mk true (StutterController.m_stutterHeld c0)) s
               = Some (true, StutterController.mk true true, startCapture s)).
  { unfold handleButtonPress. cbn. rewrite Mcs. reflexivity. }
  rewrite K2, drive_audio. fold s1. rewrite C1.
  assert (K3 : handleButtonRelease q tk3 releaseFunc
                 (StutterController.mk true true) s1
               = Some (true, StutterController.mk false true, s2)).
  { unfold handleButtonRelease, getState. cbn [releaseFunc targetEffect].
    rewrite C4. cbn. rewrite Mce1, E2. reflexivity. }
  cbn [drive]. rewrite K3, drive_audio. fold s3.
  assert (M3 : m_state s3 = PLAYING /\ m_lengthMode s3 = FREE).
  { rewrite P1. split; [reflexivity|]. unfold s2. fields.
    destruct Cm as (_ & -> & _). exact Mlen. }
  assert (K4 : handleButtonRelease q tk4 releaseStutter
                 (StutterController.mk false true) s3
               = Some (true, StutterController.mk false false, s4)).
  { unfold handleButtonRelease, getState. cbn [releaseStutter targetEffect type].
    destruct M3 as (-> & M3). cbn. rewrite M3. reflexivity. }
  cbn [drive]. rewrite K4, drive_audio, Hidle4. cbn [fst snd].
  assert (M4 : m_onsetMode s4 = FREE).
  { unfold s4. rewrite P1. unfold stopPlayback, s2. fields.
    destruct Cm as (-> & _). exact Mon. }
  assert (K5 : handleButtonPress q tk5 pressStutter
                 (StutterController.mk false false) s4
               = Some (true, StutterController.mk false true, s5)).
  { assert (St4 : m_state s4 = IDLE_WITH_LOOP) by reflexivity.
    unfold handleButtonPress, getState.
    cbn [pressStutter targetEffect type StutterController.m_funcHeld
         StutterController.m_stutterHeld].
    rewrite St4, M4. reflexivity. }
  cbn [drive]. rewrite K5.
  rewrite <- (app_nil_r (audio replayed)), drive_audio. cbn [drive].
  rewrite app_nil_r.
  split; [reflexivity|]. split; [rewrite R1; reflexivity|].
  split; [rewrite R1; fields; rewrite Hcl5; exact C5|].
  destruct (stream_app (inputs recorded)
              (snd (updates played s2) ++ inputs idle ++ snd (updates replayed s5)))
    as (A1 & A2).
  destruct (stream_app (snd (updates played s2))
              (inputs idle ++ snd (updates replayed s5))) as (A3 & A4).
  destruct (stream_app (inputs idle) (snd (updates replayed s5))) as (A5 & A6).
  rewrite A1, A2, A3, A4, A5, A6, P3, P4, R3, R4. split; reflexivity.
Qed.

End StutterKeys.

Lemma X23_stutter_capture_gesture_witness :
  let tk := TimeKeeper.initial in
  let gesture :=
    StutterController.Press tk StutterController.pressFunc
    :: StutterController.Press tk StutterController.pressStutter
    :: StutterController.audio [(0, rampIO); (128, rampIO)]
    ++ StutterController.Release tk StutterController.releaseFunc
    :: StutterController.audio [(256, rampIO)]
    ++ StutterController.Release tk StutterController.releaseStutter
    :: StutterController.audio [(384, rampIO)]
    ++ StutterController.Press tk StutterController.pressStutter
    :: StutterController.audio [(512, rampIO)] in
  exists c' s' outs,
    StutterController.drive EffectQuantization.initialize gesture
      StutterController.initial Stutter.initial = Some (c', s', outs) /\
    Stutter.m_state s' = Stutter.PLAYING /\ Stutter.m_captureLength s' = 256.
Proof.
  intros tk gesture.
  assert (Hun : Stutter.unscheduled Stutter.initial) by (repeat split).
  pose proof (X23_stutter_capture_gesture EffectQuantization.initialize
                tk tk tk tk tk StutterController.initial Stutter.initial
                [(0, rampIO); (128, rampIO)] [(256, rampIO)] [(384, rampIO)]
                [(512, rampIO)] initial_bounds Hun eq_refl eq_refl eq_refl eq_refl
                ltac:(repeat constructor) ltac:(cbn; lia)
                ltac:(repeat constructor) ltac:(repeat constructor)
                ltac:(repeat constructor)) as H.
  cbv zeta in H. fold gesture in H.
  destruct (StutterController.drive EffectQuantization.initialize gesture
              StutterController.initial Stutter.initial) as [[[c' s'] outs]|];
    [|contradiction].
  exists c', s', outs. destruct H as (_ & H2 & H3 & _).
  split; [reflexivity|]. split; [exact H2 | exact H3].
Defined.

Section StutterKeyEdges.
Import Stutter StutterController.
Variable q : EffectQuantization.t.

(** X24. Releasing the STUTTER key before a quantized playback onset
    returns the engine to IDLE_WITH_LOOP but leaves the onset scheduled:
    the first block that starts at or after the scheduled sample starts the
    loop from its first sample, with neither key held. *)
Theorem X24_stutter_released_onset_still_fires
    (tk tk' : TimeKeeper.t) (c0 : StutterController.t) (s : Stutter.t)
    (at_ p : Z) (io : BlockIO) :
  unscheduled s -> m_state s = IDLE_WITH_LOOP ->
  0 < m_captureLength s <= 151200 ->
  m_onsetMode s = QUANTIZED -> StutterController.m_funcHeld c0 = false ->
  boundarySample q tk = Some at_ -> 0 < at_ -> at_ <= p -> p + 128 < 2 ^ 64 ->
  can_allocate io ->
  let released := drive q [Press tk pressStutter; Release tk' releaseStutter] c0 s in
  let played := drive q [Press tk pressStutter; Release tk' releaseStutter;
                         Audio p io] c0 s in
  released = Some (StutterController.mk false false,
                   set_state IDLE_WITH_LOOP (set_playbackOnsetAt at_ s), []) /\
  match played with
  | Some (c', s', outs) =>
      c' = StutterController.mk false false /\ m_state s' = PLAYING /\
      m_playbackOnsetAtSample s' = 0 /\
      outs = [(Some (ring_read (m_captureLength s) (m_stutterBufferL s) 0 128),
               Some (ring_read (m_captureLength s) (m_stutterBufferR s) 0 128))]
  | None => False
  end.
Proof.
  intros (U1 & U2 & U3 & U4) Hst Hcl Hon Hfunc Hat Hpos Hle Hend Halloc
         released played.
  assert (K1 : handleButtonPress q tk pressStutter c0 s
               = Some (true, StutterController.mk false true,
                       schedulePlaybackOnset at_ s)).
  { unfold handleButtonPress, getState.
    cbn [pressStutter targetEffect type StutterController.m_funcHeld
         StutterController.m_stutterHeld].
    rewrite Hfunc, Hst, Hon, Hat. reflexivity. }
  assert (K2 : handleButtonRelease q tk' releaseStutter
                 (StutterController.mk false true) (schedulePlaybackOnset at_ s)
               = Some (true, StutterController.mk false false,
                       set_state IDLE_WITH_LOOP (set_playbackOnsetAt at_ s))).
  { reflexivity. }
  set (s2 := set_state IDLE_WITH_LOOP (set_playbackOnsetAt at_ s)) in *.
  split; [unfold released; cbn [drive]; rewrite K1, K2; reflexivity|].
  unfold played. cbn [drive]. rewrite K1, K2.
  set (s3 := set_playbackOnsetAt 0 (set_state PLAYING (set_readPos 0 s2))).
  assert (Hdue : due at_ p = true).
  { unfold due, AUDIO_BLOCK_SAMPLES. rewrite u64_small by (unfold is_u64; lia).
    destruct (Z.ltb_spec 0 at_); [|lia]. destruct (Z.leb_spec at_ p); [|lia].
    destruct (Z.ltb_spec p (p + 128)); [|lia]. reflexivity. }
  assert (Hchk : checkSchedules p s2 = s3).
  { unfold checkSchedules, checkCaptureStart, checkCaptureEnd.
    change (m_captureStartAtSample s2) with (m_captureStartAtSample s).
    rewrite U1. change (due 0 p) with false. cbv iota.
    change (m_captureEndAtSample s2) with (m_captureEndAtSample s).
    rewrite U2. change (due 0 p) with false. cbv iota.
    unfold checkPlaybackOnset. change (m_playbackOnsetAtSample s2) with at_.
    rewrite Hdue. fold s3. unfold checkPlaybackLength.
    change (m_playbackLengthAtSample s3) with (m_playbackLengthAtSample s).
    rewrite U4. reflexivity. }
  assert (Hupd : update p io s2 =
    (set_readPos ((0 + Z.of_nat 128) mod m_captureLength s) s3,
     (Some (ring_read (m_captureLength s) (m_stutterBufferL s) 0 128),
      Some (ring_read (m_captureLength s) (m_stutterBufferR s) 0 128)))).
  { unfold update. rewrite Hchk. unfold process.
    change (m_state s3) with PLAYING. unfold can_allocate in Halloc.
    rewrite Halloc. unfold AUDIO_BLOCK_SAMPLES.
    rewrite (stutter_playLoop_ring (Z.to_nat 128) s3)
      by (unfold s3, s2; cbn; lia).
    reflexivity. }
  rewrite Hupd. repeat split.
Qed.

End StutterKeyEdges.

Lemma X24_stutter_released_onset_still_fires_witness :
  let s := Stutter.set_captureLength 128
             (Stutter.set_state Stutter.IDLE_WITH_LOOP
                (Stutter.setOnsetMode QUANTIZED Stutter.initial)) in
  StutterController.drive EffectQuantization.initialize
    [StutterController.Press TimeKeeper.initial StutterController.pressStutter;
     StutterController.Release TimeKeeper.initial StutterController.releaseStutter]
    StutterController.initial s
  = Some (StutterController.mk false false,
          Stutter.set_state Stutter.IDLE_WITH_LOOP
            (Stutter.set_playbackOnsetAt 5512 s), []).
Proof.
  intros s.
  assert (H1 : Stutter.unscheduled s) by (repeat split).
  assert (H2 : 0 < Stutter.m_captureLength s <= 151200)
    by (change (0 < 128 <= 151200); lia).
  pose proof (X24_stutter_released_onset_still_fires
                EffectQuantization.initialize TimeKeeper.initial
                TimeKeeper.initial StutterController.initial s 5512 5632 rampIO
                H1 eq_refl H2 eq_refl eq_refl eq_refl
                ltac:(lia) ltac:(lia) ltac:(lia) eq_refl) as H.
  cbv zeta in H. destruct H as (H & _). exact H.
Defined.

(** ** Encoders *)

Section Encoders.
Import EncoderMenu.

Lemma i32_small x : - 2 ^ 31 <= x < 2 ^ 31 -> i32 x = x.
Proof. intros H. unfold i32. rewrite Z.mod_small by lia. lia. Qed.

Lemma i8_small x : - 128 <= x < 128 -> i8 x = x.
Proof.
  intros H. unfold i8. change (2 ^ 7) with 128. change (2 ^ 8) with 256.
  rewrite Z.mod_small by lia. lia.
Qed.

Lemma touch_keeps cb h :
  lastPosition (fst (touch cb h)) = lastPosition h /\
  accumulator (fst (touch cb h)) = accumulator h /\
  turnsDelivered (snd (touch cb h)) = 0.
Proof.
  unfold touch. destruct (wasTouched h); cbn; [auto|].
  destruct (displayUpdateCallback cb); auto.
Qed.

Lemma turnsDelivered_app a b :
  turnsDelivered (a ++ b) = turnsDelivered a + turnsDelivered b.
Proof.
  induction a as [|c a IH]; [reflexivity|]. cbn [app turnsDelivered].
  destruct c; lia.
Qed.

Lemma quot_rem_bound acc :
  8 * Z.quot acc 8 + Z.rem acc 8 = acc /\ Z.abs (Z.rem acc 8) < 8 /\
  (Z.quot acc 8 = 0 -> Z.abs acc < 8) /\ Z.abs (Z.quot acc 8) <= Z.abs acc.
Proof.
  pose proof (Z.quot_rem' acc 8) as E.
  pose proof (Z.rem_bound_abs acc 8 ltac:(lia)) as B.
  repeat split; lia.
Qed.

(** One update neither loses nor invents a step. *)
Lemma update_conserves cb button p t1 t2 h :
  valueChangeCallback cb = true ->
  Z.abs (accumulator h) < 8 ->
  - 2 ^ 30 <= lastPosition h <= 2 ^ 30 -> - 2 ^ 30 <= p <= 2 ^ 30 ->
  Z.abs (p - lastPosition h) <= 1000 ->
  let h' := fst (update cb button p t1 t2 h) in
  let cs := snd (update cb button p t1 t2 h) in
  8 * turnsDelivered cs + accumulator h'
    = accumulator h + (p - lastPosition h) /\
  Z.abs (accumulator h') < 8 /\ lastPosition h' = p.
Proof.
  intros Hcb Hacc Hlast Hp Hstep h' cs. subst h' cs. unfold update.
  (* button *)
  set (r1 := if buttonPressCallback cb && button then _ else _).
  assert (H1 : lastPosition (fst r1) = lastPosition h /\
               accumulator (fst r1) = accumulator h /\
               turnsDelivered (snd r1) = 0).
  { unfold r1. destruct (buttonPressCallback cb && button); [|cbn; auto].
    destruct (touch_keeps cb h) as (A & B & C).
    destruct (touch cb h) as [h1 cs1]. cbn in *. auto. }
  destruct r1 as [h1 calls1]. cbn [fst snd] in H1. destruct H1 as (L1 & A1 & T1).
  rewrite L1. rewrite (i32_small (p - lastPosition h)) by lia.
  (* rotation *)
  set (r2 := if negb (p - lastPosition h =? 0) then _ else _).
  assert (H2 : 8 * turnsDelivered (snd r2) + accumulator (fst r2)
                 = accumulator h + (p - lastPosition h) /\
               Z.abs (accumulator (fst r2)) < 8 /\ lastPosition (fst r2) = p).
  { unfold r2. destruct (Z.eqb_spec (p - lastPosition h) 0) as [E|E]; cbn [negb].
    - destruct (wasTouched h1); cbn; lia.
    - destruct (touch_keeps cb h1) as (A & B & C).
      destruct (touch cb h1) as [h2 cs2]. cbn [fst snd] in A, B, C.
      rewrite B, A1. rewrite i32_small by lia.
      set (acc := accumulator h + (p - lastPosition h)).
      destruct (quot_rem_bound acc) as (Q1 & Q2 & Q3 & Q4).
      unfold STEPS_PER_TURN. rewrite Hcb, andb_true_r.
      destruct (Z.eqb_spec (Z.quot acc 8) 0) as [Z0|Z0]; cbn [negb fst snd].
      + cbn [accumulator lastPosition]. rewrite C. split; [lia|]. split; [auto|reflexivity].
      + cbn [accumulator lastPosition]. rewrite turnsDelivered_app, C.
        cbn [turnsDelivered]. rewrite i8_small by (unfold acc in *; lia).
        split; [lia|]. split; [exact Q2 | reflexivity]. }
  destruct r2 as [h2 calls2]. cbn [fst snd] in H2. destruct H2 as (C2 & B2 & L2).
  (* cooldown *)
  set (r3 := if negb (wasTouched h2) && (0 <? releaseTime h2) then _ else _).
  assert (H3 : lastPosition (fst r3) = lastPosition h2 /\
               accumulator (fst r3) = accumulator h2 /\
               turnsDelivered (snd r3) = 0).
  { unfold r3. destruct (negb (wasTouched h2) && (0 <? releaseTime h2)); [|cbn; auto].
    destruct (DISPLAY_COOLDOWN_MS <=? _); [|cbn; auto].
    destruct (displayUpdateCallback cb); cbn; auto. }
  destruct r3 as [h3 calls3]. cbn [fst snd] in *. destruct H3 as (L3 & A3 & T3).
  rewrite !turnsDelivered_app, T1, T3, A3, L3. lia.
Qed.

(** X25. With a value-change callback installed, an encoder handler
    neither loses nor invents a step: over any sequence of polls in which
    the position (within +-2^30) moves by at most 1000 steps between polls,
    eight times the turns delivered to the callback plus the accumulator
    that is left equals the accumulator at the start plus the distance
    moved; the accumulator stays within (-8, 8), and the handler ends up at
    the last position read. The button, the touch state and the display
    cooldown have no part in it. *)
Theorem X25_encoder_steps_are_conserved
    (cb : Callbacks) (rs : list reading) (h : Handler) :
  valueChangeCallback cb = true ->
  Z.abs (accumulator h) < 8 ->
  - 2 ^ 30 <= lastPosition h <= 2 ^ 30 ->
  Forall (fun r => - 2 ^ 30 <= r_position r <= 2 ^ 30) rs ->
  smooth 1000 (lastPosition h) rs ->
  let h' := fst (updates cb rs h) in
  let cs := snd (updates cb rs h) in
  8 * turnsDelivered cs + accumulator h'
    = accumulator h + (lastPosition h' - lastPosition h) /\
  Z.abs (accumulator h') < 8 /\
  lastPosition h' = List.last (map r_position rs) (lastPosition h).
Proof.
  intros Hcb. revert h.
  induction rs as [|r rs IH]; intros h Hacc Hlast Hall Hsm; cbn [updates].
  - cbn. split; [lia|auto].
  - apply Forall_cons in Hall. destruct Hall as (Hr & Hall).
    destruct Hsm as (Hstep & Hsm).
    destruct (update_conserves cb (r_button r) (r_position r) (r_millis1 r)
                (r_millis2 r) h Hcb Hacc Hlast Hr Hstep) as (U1 & U2 & U3).
    destruct (update cb (r_button r) (r_position r) (r_millis1 r) (r_millis2 r) h)
      as [h1 cs1]. cbn [fst snd] in U1, U2, U3.
    rewrite <- U3 in Hsm, Hr.
    destruct (IH h1 U2 Hr Hall Hsm) as (I1 & I2 & I3).
    destruct (updates cb rs h1) as [h2 cs2]. cbn [fst snd] in *.
    rewrite turnsDelivered_app. split; [lia|]. split; [exact I2|].
    rewrite I3, U3. cbn [map]. symmetry. apply last_shift.
Qed.

(** X26. The value-change callback of encoder 4 moves the global
    quantization by the number of turns and stops at the ends, QUANT_32 and
    QUANT_4; the lookahead is not touched. The sum of index and turns is
    narrowed to 8 bits first, so a sum above 127 (index 1 to 3 with 125 to
    127 turns at once) lands on QUANT_32 instead of QUANT_4. *)
Theorem X26_encoder4_steps_quantization (delta : Z) (q : EffectQuantization.t) :
  - 128 <= delta <= 127 ->
  let i := quantizationIndex (EffectQuantization.globalQuantization q) in
  let q' := encoder4ValueChange delta q in
  quantizationIndex (EffectQuantization.globalQuantization q')
    = (if 127 <? i + delta then 0 else Z.max 0 (Z.min 3 (i + delta))) /\
  EffectQuantization.lookaheadOffset q' = EffectQuantization.lookaheadOffset q.
Proof.
  intros Hd i q'. subst q'. unfold encoder4ValueChange.
  unfold EffectQuantization.getGlobalQuantization. fold i.
  assert (Hi : 0 <= i <= 3)
    by (unfold i; destruct (EffectQuantization.globalQuantization q); cbn; lia).
  assert (E8 : i8 (i + delta) = if 127 <? i + delta then i + delta - 256 else i + delta).
  { destruct (Z.ltb_spec 127 (i + delta)); [|apply i8_small; lia].
    unfold i8. change (2 ^ 7) with 128. change (2 ^ 8) with 256.
    replace (i + delta + 128) with (i + delta - 128 + 1 * 256) by lia.
    rewrite Z.mod_add, Z.mod_small by lia. lia. }
  rewrite E8.
  set (n := if 127 <? i + delta then i + delta - 256 else i + delta).
  set (n1 := if n <? 0 then 0 else n).
  set (n2 := if 3 <? n1 then 3 else n1).
  assert (Hn2 : n2 = if 127 <? i + delta then 0 else Z.max 0 (Z.min 3 (i + delta))).
  { unfold n2, n1, n.
    destruct (Z.ltb_spec 127 (i + delta)).
    - destruct (Z.ltb_spec (i + delta - 256) 0); [|lia]. reflexivity.
    - destruct (Z.ltb_spec (i + delta) 0).
      + destruct (Z.ltb_spec 3 0); lia.
      + destruct (Z.ltb_spec 3 (i + delta)); lia. }
  assert (Hr : 0 <= n2 <= 3).
  { rewrite Hn2. destruct (127 <? i + delta); lia. }
  assert (Hround : quantizationIndex (quantizationOfIndex n2) = n2).
  { unfold quantizationOfIndex.
    destruct (Z.eqb_spec n2 0); [cbn; lia|].
    destruct (Z.eqb_spec n2 1); [cbn; lia|].
    destruct (Z.eqb_spec n2 2); [cbn; lia|]. cbn. lia. }
  rewrite <- Hn2.
  destruct (Z.eqb_spec n2 i) as [E|E]; cbn [negb].
  - split; [fold i; lia | reflexivity].
  - cbn. split; [exact Hround | reflexivity].
Qed.

End Encoders.

Lemma X25_encoder_steps_are_conserved_witness :
  let cb := EncoderMenu.mkCallbacks true false false in
  let rs := [EncoderMenu.mkReading false 5 0 0; EncoderMenu.mkReading false 19 0 0] in
  let r := EncoderMenu.updates cb rs (EncoderMenu.mk 0 0 false 0) in
  8 * EncoderMenu.turnsDelivered (snd r) + EncoderMenu.accumulator (fst r) = 19.
Proof.
  intros cb rs r.
  destruct (X25_encoder_steps_are_conserved cb rs (EncoderMenu.mk 0 0 false 0)
              eq_refl ltac:(cbn; lia) ltac:(cbn; lia)
              ltac:(repeat constructor; cbn; lia)
              ltac:(cbn; lia)) as (H1 & _ & H3).
  fold r in H1, H3. rewrite H1, H3. reflexivity.
Defined.

Lemma X26_encoder4_steps_quantization_witness :
  EffectQuantization.globalQuantization
    (EncoderMenu.encoder4ValueChange 2 EffectQuantization.initialize)
  = EffectQuantization.QUANT_4.
Proof.
  pose proof (X26_encoder4_steps_quantization 2 EffectQuantization.initialize
                ltac:(lia)) as (H & _).
  destruct (EffectQuantization.globalQuantization
              (EncoderMenu.encoder4ValueChange 2 EffectQuantization.initialize));
    try reflexivity; discriminate H.
Defined.

(** ** Key scanning *)

Section KeyScanning.

Local Abbreviation handleMapping := InputIO.handleMapping.
Local Abbreviation of_key := InputIO.of_key.

Lemma of_key_app (k : Z) (l1 l2 : list InputIO.pushed) :
  of_key k (l1 ++ l2) = of_key k l1 ++ of_key k l2.
Proof. unfold InputIO.of_key. apply filter_app. Qed.

(** A mapping leaves the other keys alone. *)
Lemma handle_other (r : InputIO.reading) (i : nat) (m : InputIO.ButtonMapping)
    (s : InputIO.t) (k : Z) :
  InputIO.keyIndex m <> k -> 0 <= InputIO.keyIndex m -> 0 <= k ->
  let s' := snd (handleMapping r i m s) in
  of_key k (fst (handleMapping r i m s)) = [] /\
  InputIO.lastKeyState s' !!! Z.to_nat k = InputIO.lastKeyState s !!! Z.to_nat k /\
  InputIO.lastEventTime s' !!! Z.to_nat k = InputIO.lastEventTime s !!! Z.to_nat k /\
  length (InputIO.lastKeyState s') = length (InputIO.lastKeyState s) /\
  length (InputIO.lastEventTime s') = length (InputIO.lastEventTime s).
Proof.
  intros Hne Hm Hk s'. subst s'.
  assert (Hn : Z.to_nat (InputIO.keyIndex m) <> Z.to_nat k) by lia.
  unfold InputIO.handleMapping.
  destruct (Bool.eqb _ _); [cbn; auto|].
  destruct (InputIO.DEBOUNCE_MS <=? _); [destruct (InputIO.isNone _)|];
    cbn [fst snd InputIO.lastKeyState InputIO.lastEventTime InputIO.commandQueue
         InputIO.trace];
    rewrite ?length_insert, ?list_lookup_total_insert_ne by assumption;
    repeat split; try reflexivity.
  unfold InputIO.of_key. rewrite filter_cons_False by (cbn; assumption).
  reflexivity.
Qed.

(** On its own key a mapping is a debounced edge detector. *)
Lemma handle_own (r : InputIO.reading) (i : nat) (m : InputIO.ButtonMapping)
    (s : InputIO.t) :
  let k := InputIO.keyIndex m in
  let n := Z.to_nat k in
  let p := InputIO.down k r in
  let accept :=
    negb (Bool.eqb p (InputIO.lastKeyState s !!! n)) &&
    (InputIO.DEBOUNCE_MS <=?
       u32 (InputIO.millis r i - InputIO.lastEventTime s !!! n)) in
  let s' := snd (handleMapping r i m s) in
  (n < length (InputIO.lastKeyState s))%nat ->
  (n < length (InputIO.lastEventTime s))%nat ->
  InputIO.isNone (type (InputIO.pressCommand m)) = false ->
  InputIO.isNone (type (InputIO.releaseCommand m)) = false ->
  of_key k (fst (handleMapping r i m s)) =
    (if accept
     then [InputIO.mkPushed (InputIO.millis r i) k
             (if p then InputIO.pressCommand m else InputIO.releaseCommand m)]
     else []) /\
  InputIO.lastKeyState s' !!! n = p /\
  InputIO.lastEventTime s' !!! n =
    (if accept then InputIO.millis r i else InputIO.lastEventTime s !!! n) /\
  length (InputIO.lastKeyState s') = length (InputIO.lastKeyState s) /\
  length (InputIO.lastEventTime s') = length (InputIO.lastEventTime s).
Proof.
  intros k n p accept s' Hn1 Hn2 Hp Hr. subst s' accept.
  unfold InputIO.handleMapping. fold k n. fold (InputIO.down k r). fold p.
  destruct (Bool.eqb p (InputIO.lastKeyState s !!! n)) eqn:Ech; cbn [negb andb].
  - cbn. apply Bool.eqb_prop in Ech. auto.
  - destruct (InputIO.DEBOUNCE_MS <=? _) eqn:Edb.
    + assert (Hty : InputIO.isNone
                (type (if p then InputIO.pressCommand m
                       else InputIO.releaseCommand m)) = false)
        by (destruct p; assumption).
      rewrite Hty.
      cbn [fst snd InputIO.lastKeyState InputIO.lastEventTime
           InputIO.commandQueue InputIO.trace].
      rewrite !length_insert, !list_lookup_total_insert_eq by assumption.
      repeat split.
      unfold InputIO.of_key. rewrite filter_cons_True by reflexivity.
      reflexivity.
    + cbn [fst snd InputIO.lastKeyState InputIO.lastEventTime
           InputIO.commandQueue InputIO.trace].
      rewrite !length_insert, !list_lookup_total_insert_eq by assumption.
      repeat split.
Qed.

Lemma scanFrom_cons (r : InputIO.reading) (i : nat) (m : InputIO.ButtonMapping)
    (rest : list InputIO.ButtonMapping) (s : InputIO.t) :
  InputIO.scanFrom r i (m :: rest) s =
    (fst (handleMapping r i m s) ++
       fst (InputIO.scanFrom r (S i) rest (snd (handleMapping r i m s))),
     snd (InputIO.scanFrom r (S i) rest (snd (handleMapping r i m s)))).
Proof.
  cbn [InputIO.scanFrom]. destruct (handleMapping r i m s) as [l1 s1].
  cbn [fst snd]. destruct (InputIO.scanFrom r (S i) rest s1). reflexivity.
Qed.

Lemma scanFrom_other (r : InputIO.reading) (k : Z)
    (ms : list InputIO.ButtonMapping) : forall (i : nat) (s : InputIO.t),
  Forall (fun m => InputIO.keyIndex m <> k /\ 0 <= InputIO.keyIndex m) ms ->
  0 <= k ->
  let s' := snd (InputIO.scanFrom r i ms s) in
  of_key k (fst (InputIO.scanFrom r i ms s)) = [] /\
  InputIO.lastKeyState s' !!! Z.to_nat k = InputIO.lastKeyState s !!! Z.to_nat k /\
  InputIO.lastEventTime s' !!! Z.to_nat k = InputIO.lastEventTime s !!! Z.to_nat k /\
  length (InputIO.lastKeyState s') = length (InputIO.lastKeyState s) /\
  length (InputIO.lastEventTime s') = length (InputIO.lastEventTime s).
Proof.
  induction ms as [|m ms IH]; intros i s Hall Hk s'; subst s'.
  - cbn. auto.
  - inversion Hall as [|? ? [Hne Hm] Hall']; subst.
    rewrite scanFrom_cons. cbn [fst snd]. rewrite of_key_app.
    destruct (handle_other r i m s k Hne Hm Hk) as (A1 & A2 & A3 & A4 & A5).
    destruct (IH (S i) (snd (handleMapping r i m s)) Hall' Hk)
      as (B1 & B2 & B3 & B4 & B5).
    rewrite A1, B1, B2, B3, B4, B5, A2, A3, A4, A5. auto.
Qed.

(** A scan, seen from one of the two keys that carry commands. *)
Lemma scan_key (r : InputIO.reading) (s : InputIO.t) (k : Z) :
  let n := Z.to_nat k in
  let p := InputIO.down k r in
  let accept :=
    negb (Bool.eqb p (InputIO.lastKeyState s !!! n)) &&
    (InputIO.DEBOUNCE_MS <=?
       u32 (InputIO.millis r n - InputIO.lastEventTime s !!! n)) in
  let s' := snd (InputIO.scan r s) in
  k = 0 \/ k = 2 ->
  length (InputIO.lastKeyState s) = 4%nat ->
  length (InputIO.lastEventTime s) = 4%nat ->
  of_key k (fst (InputIO.scan r s)) =
    (if accept
     then [InputIO.mkPushed (InputIO.millis r n) k
             (mkCommand (if p then EFFECT_ENABLE else EFFECT_DISABLE)
                        (if k =? 0 then ID_FREEZE else ID_CHOKE) 0 0 0)]
     else []) /\
  InputIO.lastKeyState s' !!! n = p /\
  InputIO.lastEventTime s' !!! n =
    (if accept then InputIO.millis r n else InputIO.lastEventTime s !!! n) /\
  length (InputIO.lastKeyState s') = 4%nat /\
  length (InputIO.lastEventTime s') = 4%nat.
Proof.
  intros n p accept s' Hk L1 L2. subst s' accept p n.
  unfold InputIO.scan, InputIO.buttonMappings.
  destruct Hk as [-> | ->].
  - rewrite scanFrom_cons. cbn [fst snd]. rewrite of_key_app.
    set (m0 := InputIO.mkMapping 0 _ _).
    destruct (handle_own r 0 m0 s) as (A1 & A2 & A3 & A4 & A5);
      [cbn; lia | cbn; lia | reflexivity | reflexivity |].
    match goal with
    | |- context [InputIO.scanFrom r 1 ?ms ?s1] =>
        destruct (scanFrom_other r 0 ms 1%nat s1) as (B1 & B2 & B3 & B4 & B5);
          [repeat constructor; cbn; lia | lia |]
    end.
    rewrite B1, B2, B3, B4, B5, app_nil_r, A4, A5.
    change (InputIO.keyIndex m0) with 0 in A1, A2, A3.
    change (Z.to_nat 0) with 0%nat in *.
    rewrite A1, A2, A3.
    repeat split; try assumption.
    destruct (InputIO.down 0 r); reflexivity.
  - do 3 rewrite scanFrom_cons. cbn [fst snd]. rewrite !of_key_app.
    set (m0 := InputIO.mkMapping 0 _ _).
    set (m1 := InputIO.mkMapping 1 _ _).
    set (m2 := InputIO.mkMapping 2 _ _).
    set (s1 := snd (handleMapping r 0 m0 s)).
    set (s2 := snd (handleMapping r 1 m1 s1)).
    destruct (handle_other r 0 m0 s 2) as (A1 & A2 & A3 & A4 & A5);
      [cbn; lia | cbn; lia | lia |].
    destruct (handle_other r 1 m1 s1 2) as (B1 & B2 & B3 & B4 & B5);
      [cbn; lia | cbn; lia | lia |].
    fold s1 in A2, A3, A4, A5. fold s2 in B2, B3, B4, B5.
    destruct (handle_own r 2 m2 s2) as (C1 & C2 & C3 & C4 & C5);
      [cbn; lia | cbn; lia | reflexivity | reflexivity |].
    match goal with
    | |- context [InputIO.scanFrom r 3 ?ms ?s3] =>
        destruct (scanFrom_other r 2 ms 3%nat s3) as (D1 & D2 & D3 & D4 & D5);
          [repeat constructor; cbn; lia | lia |]
    end.
    rewrite D1, D2, D3, D4, D5, app_nil_r, A1, B1, C4, C5.
    change (InputIO.keyIndex m2) with 2 in C1, C2, C3.
    change (Z.to_nat 2) with 2%nat in *.
    rewrite C1, C2, C3, B2, B3, A2, A3, B4, B5, A4, A5.
    repeat split; try assumption.
    destruct (InputIO.down 2 r); reflexivity.
Qed.

Lemma scans_cons (r : InputIO.reading) (rs : list InputIO.reading)
    (s : InputIO.t) :
  InputIO.scans (r :: rs) s =
    (fst (InputIO.scan r s) ++ fst (InputIO.scans rs (snd (InputIO.scan r s))),
     snd (InputIO.scans rs (snd (InputIO.scan r s)))).
Proof.
  cbn [InputIO.scans]. destruct (InputIO.scan r s) as [l1 s1].
  cbn [fst snd]. destruct (InputIO.scans rs s1). reflexivity.
Qed.

(** *** What is pushed, and where it goes *)

Lemma handle_log (r : InputIO.reading) (i : nat) (m : InputIO.ButtonMapping)
    (s : InputIO.t) :
  Forall (fun e => InputIO.key e = InputIO.keyIndex m /\
                   (InputIO.cmd e = InputIO.pressCommand m \/
                    InputIO.cmd e = InputIO.releaseCommand m) /\
                   InputIO.isNone (type (InputIO.cmd e)) = false)
         (fst (handleMapping r i m s)) /\
  InputIO.commandQueue (snd (handleMapping r i m s)) =
    SPSC.pushAll 32 (InputIO.cmd <$> fst (handleMapping r i m s))
                 (InputIO.commandQueue s).
Proof.
  unfold InputIO.handleMapping.
  destruct (Bool.eqb _ _); [cbn; auto|].
  destruct (InputIO.DEBOUNCE_MS <=? _); [|cbn; auto].
  destruct (InputIO.isNone _) eqn:Ety; [cbn; auto|].
  cbn [fst snd InputIO.commandQueue]. split; [|reflexivity].
  constructor; [|constructor]. cbn [InputIO.key InputIO.cmd].
  split; [reflexivity|]. split; [|exact Ety].
  destruct (negb _); auto.
Qed.

Lemma pushAll_app {T : Type} (SIZE : Z) (l1 l2 : list T) (q : SPSC.t) :
  SPSC.pushAll SIZE (l1 ++ l2) q = SPSC.pushAll SIZE l2 (SPSC.pushAll SIZE l1 q).
Proof. unfold SPSC.pushAll. apply foldl_app. Qed.

Lemma scanFrom_log (r : InputIO.reading) (ms : list InputIO.ButtonMapping) :
  forall (i : nat) (s : InputIO.t),
  Forall (fun e => exists m, In m ms /\
                   InputIO.key e = InputIO.keyIndex m /\
                   (InputIO.cmd e = InputIO.pressCommand m \/
                    InputIO.cmd e = InputIO.releaseCommand m) /\
                   InputIO.isNone (type (InputIO.cmd e)) = false)
         (fst (InputIO.scanFrom r i ms s)) /\
  InputIO.commandQueue (snd (InputIO.scanFrom r i ms s)) =
    SPSC.pushAll 32 (InputIO.cmd <$> fst (InputIO.scanFrom r i ms s))
                 (InputIO.commandQueue s).
Proof.
  induction ms as [|m ms IH]; intros i s.
  - cbn. auto.
  - rewrite scanFrom_cons. cbn [fst snd].
    destruct (handle_log r i m s) as (A1 & A2).
    destruct (IH (S i) (snd (handleMapping r i m s))) as (B1 & B2).
    split.
    + apply Forall_app. split.
      * eapply Forall_impl; [exact A1|]. intros e He. exists m.
        split; [left; reflexivity | exact He].
      * eapply Forall_impl; [exact B1|]. intros e (m' & Hin & He).
        exists m'. split; [right; exact Hin | exact He].
    + rewrite fmap_app, pushAll_app, <- A2. exact B2.
Qed.

Lemma scan_log (r : InputIO.reading) (s : InputIO.t) :
  Forall (fun e =>
            (InputIO.key e = 0 /\ targetEffect (InputIO.cmd e) = ID_FREEZE \/
             InputIO.key e = 2 /\ targetEffect (InputIO.cmd e) = ID_CHOKE) /\
            (type (InputIO.cmd e) = EFFECT_ENABLE \/
             type (InputIO.cmd e) = EFFECT_DISABLE) /\
            param1 (InputIO.cmd e) = 0 /\ param2 (InputIO.cmd e) = 0 /\
            value (InputIO.cmd e) = 0)
         (fst (InputIO.scan r s)) /\
  InputIO.commandQueue (snd (InputIO.scan r s)) =
    SPSC.pushAll 32 (InputIO.cmd <$> fst (InputIO.scan r s))
                 (InputIO.commandQueue s).
Proof.
  unfold InputIO.scan.
  destruct (scanFrom_log r InputIO.buttonMappings 0 s) as (A & B).
  split; [|exact B].
  eapply Forall_impl; [exact A|]. intros e (m & Hin & Hk & Hc & Hn).
  unfold InputIO.buttonMappings in Hin. cbn [In] in Hin.
  destruct Hin as [<- | [<- | [<- | [<- | []]]]];
    cbn [InputIO.keyIndex InputIO.pressCommand InputIO.releaseCommand] in Hk, Hc;
    destruct Hc as [Hc | Hc]; rewrite Hc in Hn |- *; rewrite Hk;
    try discriminate Hn; cbn; auto 10.
Qed.

Lemma scans_log (rs : list InputIO.reading) : forall s : InputIO.t,
  Forall (fun e =>
            (InputIO.key e = 0 /\ targetEffect (InputIO.cmd e) = ID_FREEZE \/
             InputIO.key e = 2 /\ targetEffect (InputIO.cmd e) = ID_CHOKE) /\
            (type (InputIO.cmd e) = EFFECT_ENABLE \/
             type (InputIO.cmd e) = EFFECT_DISABLE) /\
            param1 (InputIO.cmd e) = 0 /\ param2 (InputIO.cmd e) = 0 /\
            value (InputIO.cmd e) = 0)
         (fst (InputIO.scans rs s)) /\
  InputIO.commandQueue (snd (InputIO.scans rs s)) =
    SPSC.pushAll 32 (InputIO.cmd <$> fst (InputIO.scans rs s))
                 (InputIO.commandQueue s).
Proof.
  induction rs as [|r rs IH]; intros s.
  - cbn. auto.
  - rewrite scans_cons. cbn [fst snd].
    destruct (scan_log r s) as (A1 & A2).
    destruct (IH (snd (InputIO.scan r s))) as (B1 & B2).
    split; [apply Forall_app; split; assumption|].
    rewrite fmap_app, pushAll_app, <- A2. exact B2.
Qed.

Lemma size_ok_32 : SPSC.size_ok 32.
Proof. split; [reflexivity | lia]. Qed.

(** X28 (input_io.cpp, threadLoop): whatever the keys do, and from any
    state, the thread only ever pushes four commands: EFFECT_ENABLE or
    EFFECT_DISABLE for FREEZE, from key 0, and for CHOKE, from key 2, with
    all parameters zero. Nothing is pushed for keys 1 and 3 and no STUTTER or
    FUNC command is produced. The queue afterwards is the queue before with
    the pushes applied in order, and when the pushes fit into its free slots
    they are its newest contents, in the order they were decided. *)
Theorem X28_only_freeze_and_choke_are_queued (rs : list InputIO.reading)
    (s : InputIO.t) :
  let log := fst (InputIO.scans rs s) in
  let q' := InputIO.commandQueue (snd (InputIO.scans rs s)) in
  Forall (fun e =>
            (InputIO.key e = 0 /\ targetEffect (InputIO.cmd e) = ID_FREEZE \/
             InputIO.key e = 2 /\ targetEffect (InputIO.cmd e) = ID_CHOKE) /\
            (type (InputIO.cmd e) = EFFECT_ENABLE \/
             type (InputIO.cmd e) = EFFECT_DISABLE) /\
            param1 (InputIO.cmd e) = 0 /\ param2 (InputIO.cmd e) = 0 /\
            value (InputIO.cmd e) = 0) log /\
  q' = SPSC.pushAll 32 (InputIO.cmd <$> log) (InputIO.commandQueue s) /\
  (SPSC.inv 32 (InputIO.commandQueue s) ->
   SPSC.stored (InputIO.commandQueue s) + Z.of_nat (length log)
     <= SPSC.capacity 32 ->
   SPSC.contents 32 q' =
     SPSC.contents 32 (InputIO.commandQueue s) ++ (InputIO.cmd <$> log)).
Proof.
  intros log q'. subst log q'.
  destruct (scans_log rs s) as (A & B).
  split; [exact A|]. split; [exact B|].
  intros Hinv Hroom. rewrite B.
  destruct (pushAll_spec 32 size_ok_32 ltac:(lia)
              (InputIO.cmd <$> fst (InputIO.scans rs s))
              (InputIO.commandQueue s) Hinv) as (_ & Hc & _).
  rewrite Hc. f_equal. apply take_ge. rewrite length_fmap. lia.
Qed.

(** *** Debouncing *)

Lemma scans_spaced (k : Z) (rs : list InputIO.reading) : forall s : InputIO.t,
  k = 0 \/ k = 2 ->
  length (InputIO.lastKeyState s) = 4%nat ->
  length (InputIO.lastEventTime s) = 4%nat ->
  InputIO.spaced (InputIO.lastEventTime s !!! Z.to_nat k)
                 (of_key k (fst (InputIO.scans rs s))).
Proof.
  induction rs as [|r rs IH]; intros s Hk L1 L2.
  - cbn. exact I.
  - rewrite scans_cons. cbn [fst snd]. rewrite of_key_app.
    destruct (scan_key r s k Hk L1 L2) as (A1 & _ & A3 & A4 & A5).
    specialize (IH (snd (InputIO.scan r s)) Hk A4 A5).
    rewrite A3 in IH. rewrite A1.
    destruct (negb _ && _) eqn:Eacc.
    + cbn [app InputIO.spaced InputIO.at_ms]. split; [|exact IH].
      apply andb_prop in Eacc. destruct Eacc as (_ & Hdb).
      apply Z.leb_le in Hdb. exact Hdb.
    + exact IH.
Qed.

(** X27 (input_io.cpp, threadLoop): debouncing holds over any run of the
    thread. From any state with its two four-entry arrays, and for any
    readings and clock values, the pushes that come from one key are each at
    least DEBOUNCE_MS = 20 ms after the previous push of that key, and the
    first one after the key's stored lastEventTime, the differences taken in
    uint32_t arithmetic as the code takes them. *)
Theorem X27_key_pushes_are_debounced (rs : list InputIO.reading)
    (s : InputIO.t) (k : Z) :
  length (InputIO.lastKeyState s) = 4%nat ->
  length (InputIO.lastEventTime s) = 4%nat ->
  InputIO.spaced (InputIO.lastEventTime s !!! Z.to_nat k)
                 (InputIO.of_key k (fst (InputIO.scans rs s))).
Proof.
  intros L1 L2.
  destruct (Z.eq_dec k 0) as [E0|N0]; [apply scans_spaced; auto|].
  destruct (Z.eq_dec k 2) as [E2|N2]; [apply scans_spaced; auto|].
  assert (E : InputIO.of_key k (fst (InputIO.scans rs s)) = []).
  { destruct (scans_log rs s) as (A & _).
    unfold InputIO.of_key.
    induction A as [|e l He _ IH]; [reflexivity|].
    rewrite filter_cons_False; [exact IH|].
    destruct He as ([[Hk _] | [Hk _]] & _); lia. }
  rewrite E. exact I.
Qed.

(** *** Edges that are lost *)

Lemma scans_idle (k : Z) (p : bool) (rs : list InputIO.reading) :
  forall s : InputIO.t,
  k = 0 \/ k = 2 ->
  length (InputIO.lastKeyState s) = 4%nat ->
  length (InputIO.lastEventTime s) = 4%nat ->
  InputIO.lastKeyState s !!! Z.to_nat k = p ->
  Forall (fun r => InputIO.down k r = p) rs ->
  of_key k (fst (InputIO.scans rs s)) = [].
Proof.
  induction rs as [|r rs IH]; intros s Hk L1 L2 Hst Hall.
  - reflexivity.
  - apply Forall_cons in Hall as [Hr Hall'].
    rewrite scans_cons. cbn [fst snd]. rewrite of_key_app.
    destruct (scan_key r s k Hk L1 L2) as (A1 & A2 & _ & A4 & A5).
    rewrite A1, Hr, Hst, Bool.eqb_reflx. cbn [negb andb app].
    apply IH; try assumption. rewrite A2. exact Hr.
Qed.

(** X29 (input_io.cpp, threadLoop): an edge that follows an accepted edge of
    the same key within DEBOUNCE_MS is lost for good. Take key 0 or 2 in
    state [negb p], a reading that shows it in state [p] at least 20 ms after
    the key's last event, then a reading that shows it back in state
    [negb p] less than 20 ms later, then any number of readings in which it
    stays there. The thread pushes the command of the first edge and nothing
    else for this key: lastKeyState follows the second edge without a push,
    so later scans see no change. With [p = true] this is a tap shorter than
    20 ms: EFFECT_ENABLE is pushed and the EFFECT_DISABLE of the release is
    never sent. *)
Theorem X29_quick_second_edge_is_lost (s : InputIO.t) (k : Z) (p : bool)
    (r0 r1 : InputIO.reading) (rs : list InputIO.reading) :
  let n := Z.to_nat k in
  k = 0 \/ k = 2 ->
  length (InputIO.lastKeyState s) = 4%nat ->
  length (InputIO.lastEventTime s) = 4%nat ->
  InputIO.lastKeyState s !!! n = negb p ->
  InputIO.down k r0 = p ->
  InputIO.down k r1 = negb p ->
  Forall (fun r => InputIO.down k r = negb p) rs ->
  InputIO.DEBOUNCE_MS <=
    u32 (InputIO.millis r0 n - InputIO.lastEventTime s !!! n) ->
  u32 (InputIO.millis r1 n - InputIO.millis r0 n) < InputIO.DEBOUNCE_MS ->
  InputIO.of_key k (fst (InputIO.scans (r0 :: r1 :: rs) s)) =
    [InputIO.mkPushed (InputIO.millis r0 n) k
       (mkCommand (if p then EFFECT_ENABLE else EFFECT_DISABLE)
                  (if k =? 0 then ID_FREEZE else ID_CHOKE) 0 0 0)].
Proof.
  intros n Hk L1 L2 Hst H0 H1 Hall Hlate Hsoon.
  rewrite !scans_cons. cbn [fst snd]. rewrite !of_key_app.
  destruct (scan_key r0 s k Hk L1 L2) as (A1 & A2 & A3 & A4 & A5).
  fold n in A1, A2, A3.
  rewrite H0, Hst in A1, A3. rewrite H0 in A2.
  assert (Ea : negb (Bool.eqb p (negb p)) = true) by (destruct p; reflexivity).
  assert (Eb : (InputIO.DEBOUNCE_MS <=?
                  u32 (InputIO.millis r0 n - InputIO.lastEventTime s !!! n))
               = true) by (apply Z.leb_le; exact Hlate).
  rewrite Ea, Eb in A1, A3. cbn [andb] in A1, A3.
  set (s1 := snd (InputIO.scan r0 s)) in *.
  destruct (scan_key r1 s1 k Hk A4 A5) as (B1 & B2 & _ & B4 & B5).
  fold n in B1, B2.
  rewrite H1, A2, A3 in B1. rewrite H1 in B2.
  assert (Ec : (InputIO.DEBOUNCE_MS <=?
                  u32 (InputIO.millis r1 n - InputIO.millis r0 n)) = false)
    by (apply Z.leb_gt; exact Hsoon).
  rewrite Ec, Bool.andb_false_r in B1.
  rewrite A1, B1.
  rewrite (scans_idle k (negb p) rs (snd (InputIO.scan r1 s1)) Hk B4 B5 B2 Hall).
  reflexivity.
Qed.

(** *** Independence of the keys *)

(** X30 (input_io.cpp, threadLoop): the keys do not interfere. Two runs of
    the thread whose states agree on one of the command keys (its
    lastKeyState and lastEventTime) and whose readings agree on that key's
    bit and on the clock value read for it push the same commands for that
    key at the same times, whatever the other keys do and whatever the other
    entries of the state are. *)
Theorem X30_keys_do_not_interfere (k : Z) (rs rs' : list InputIO.reading) :
  forall s s' : InputIO.t,
  let n := Z.to_nat k in
  k = 0 \/ k = 2 ->
  length (InputIO.lastKeyState s) = 4%nat ->
  length (InputIO.lastEventTime s) = 4%nat ->
  length (InputIO.lastKeyState s') = 4%nat ->
  length (InputIO.lastEventTime s') = 4%nat ->
  InputIO.lastKeyState s !!! n = InputIO.lastKeyState s' !!! n ->
  InputIO.lastEventTime s !!! n = InputIO.lastEventTime s' !!! n ->
  Forall2 (fun r r' => InputIO.down k r = InputIO.down k r' /\
                       InputIO.millis r n = InputIO.millis r' n) rs rs' ->
  InputIO.of_key k (fst (InputIO.scans rs s)) =
    InputIO.of_key k (fst (InputIO.scans rs' s')).
Proof.
  intros s s' n Hk L1 L2 L1' L2' Hst Hti Hall. revert s s' L1 L2 L1' L2' Hst Hti.
  induction Hall as [|r r' rs rs' [Hd Hm] _ IH]; intros s s' L1 L2 L1' L2' Hst Hti.
  - reflexivity.
  - rewrite !scans_cons. cbn [fst snd]. rewrite !of_key_app.
    destruct (scan_key r s k Hk L1 L2) as (A1 & A2 & A3 & A4 & A5).
    destruct (scan_key r' s' k Hk L1' L2') as (B1 & B2 & B3 & B4 & B5).
    fold n in A1, A2, A3, B1, B2, B3.
    rewrite <- Hd, <- Hm, <- Hst, <- Hti in B1, B3. rewrite <- Hd in B2.
    rewrite A1, B1. f_equal.
    apply IH; try assumption; congruence.
Qed.

End KeyScanning.

Lemma X27_key_pushes_are_debounced_witness :
  let rs := [InputIO.mkReading 1 (fun _ => 100) (fun _ => 100000);
             InputIO.mkReading 0 (fun _ => 105) (fun _ => 105000);
             InputIO.mkReading 1 (fun _ => 130) (fun _ => 130000)] in
  InputIO.spaced 0 (InputIO.of_key 0 (fst (InputIO.scans rs InputIO.initial))).
Proof.
  intros rs.
  exact (X27_key_pushes_are_debounced rs InputIO.initial 0 eq_refl eq_refl).
Defined.

Lemma X28_only_freeze_and_choke_are_queued_witness :
  let rs := [InputIO.mkReading 5 (fun _ => 100) (fun _ => 100000);
             InputIO.mkReading 4 (fun _ => 150) (fun _ => 150000)] in
  SPSC.contents 32 (InputIO.commandQueue (snd (InputIO.scans rs InputIO.initial)))
  = [mkCommand EFFECT_ENABLE ID_FREEZE 0 0 0;
     mkCommand EFFECT_ENABLE ID_CHOKE 0 0 0;
     mkCommand EFFECT_DISABLE ID_FREEZE 0 0 0].
Proof.
  intros rs.
  pose proof (X28_only_freeze_and_choke_are_queued rs InputIO.initial) as H.
  cbv zeta in H. destruct H as (_ & _ & H).
  rewrite H.
  - vm_compute. reflexivity.
  - unfold SPSC.inv, is_u32. vm_compute. repeat split; discriminate.
  - vm_compute. discriminate.
Defined.

Lemma X29_quick_second_edge_is_lost_witness :
  let r0 := InputIO.mkReading 1 (fun _ => 100) (fun _ => 100000) in
  let r1 := InputIO.mkReading 0 (fun _ => 105) (fun _ => 105000) in
  let r2 := InputIO.mkReading 0 (fun _ => 5000) (fun _ => 5000000) in
  InputIO.of_key 0 (fst (InputIO.scans [r0; r1; r2] InputIO.initial)) =
    [InputIO.mkPushed 100 0 (mkCommand EFFECT_ENABLE ID_FREEZE 0 0 0)].
Proof.
  intros r0 r1 r2.
  exact (X29_quick_second_edge_is_lost InputIO.initial 0 true r0 r1 [r2]
           (or_introl eq_refl) eq_refl eq_refl eq_refl eq_refl eq_refl
           ltac:(repeat constructor)
           ltac:(vm_compute; discriminate) ltac:(vm_compute; reflexivity)).
Defined.

Lemma X30_keys_do_not_interfere_witness :
  let rs := [InputIO.mkReading 1 (fun _ => 100) (fun _ => 100000);
             InputIO.mkReading 0 (fun _ => 150) (fun _ => 150000)] in
  let rs' := [InputIO.mkReading 5 (fun _ => 100) (fun _ => 100000);
              InputIO.mkReading 8 (fun _ => 150) (fun _ => 150000)] in
  InputIO.of_key 0 (fst (InputIO.scans rs InputIO.initial)) =
    InputIO.of_key 0 (fst (InputIO.scans rs' InputIO.initial)).
Proof.
  intros rs rs'.
  exact (X30_keys_do_not_interfere 0 rs rs' InputIO.initial InputIO.initial
           (or_introl eq_refl) eq_refl eq_refl eq_refl eq_refl eq_refl eq_refl
           ltac:(repeat constructor)).
Defined.
